(** * T-diagram: geometry, break insertion, cost and generational search

    A shallow embedding of the t-diagram package (src/helpers.js,
    src/constants.js, src/diagram.js, src/cost.js, src/drawer.js).

    Numbers.  JavaScript numbers are modelled by exact rationals [Q]
    (every finite double is a rational); the two transcendental primitives
    used by the cost function, [Math.exp] and [Math.pow], live in [R].
    Non-finite results (a division by zero) are outside the number model
    and are reported as [None].

    Objects.  A JavaScript object used as a dictionary is an association
    list in insertion order, which is the order [Object.keys] and
    [for .. in] enumerate string keys that are not array indices. *)

From Stdlib Require Import ZArith QArith Qabs Qminmax Qround.
From Stdlib Require Import Reals Qreals Lra Lia.
From Stdlib Require Import List String Ascii Bool Sorted.
From Stdlib Require Decimal DecimalString.
From Stdlib Require Lqa.
Import ListNotations.

Open Scope Q_scope.

(** ** Numeric primitives *)

Definition Qltb (x y : Q) : bool := negb (Qle_bool y x).

(** [Math.round]: the nearest integer, halves rounded up. *)
Definition Math_round (q : Q) : Z := Qfloor (q + (1 # 2)).

(** ** helpers.js *)

Module Helpers.

(** An index computed by [binarySearch]: a number, or [NaN] (what the
    arithmetic on the [undefined] midpoint of an empty array yields).
    On the empty array the code also hands [arr[NaN]], which is
    [undefined], to [trans]: the identity accepts it and the result is
    [NaN]; a [trans] that reads a property of its argument throws there,
    and a caller with such a [trans] takes [NaN] for that error. *)
Inductive jsindex : Type :=
| Idx (i : Z)
| NaN.

(** How the [while] loop of [binarySearch] is left: by the [return mid]
    inside it, or by its condition, with the last midpoint (if any). *)
Inductive loop_exit : Type :=
| Return (mid : Z)
| Fallthrough (mid : option Z).

(** The sign of [trans(arr[i]) - x]; [NotANumber] when [arr[i]] is
    [undefined]. *)
Inductive sign : Type := Zero | Negative | Positive | NotANumber.

Section BinarySearch.
Context {T : Type}.
Variable trans : T -> Q.

Definition at_index (arr : list T) (i : Z) : option T :=
  if (i <? 0)%Z then None else nth_error arr (Z.to_nat i).

Definition diff_sign (arr : list T) (i : Z) (x : Q) : sign :=
  match at_index arr i with
  | None => NotANumber
  | Some e =>
      match trans e ?= x with
      | Eq => Zero
      | Lt => Negative
      | Gt => Positive
      end
  end.

(** The [while (m <= M)] loop.  [None] only when the fuel runs out. *)
Fixpoint search_loop (fuel : nat) (arr : list T) (x : Q)
         (m M : Z) (mid : option Z) : option loop_exit :=
  if (m <=? M)%Z then
    match fuel with
    | O => None
    | S fuel' =>
        let mid' := (m + Math_round (inject_Z (M - m) / 2))%Z in
        match diff_sign arr mid' x with
        | Zero => Some (Return mid')
        | Negative => search_loop fuel' arr x (mid' + 1)%Z M (Some mid')
        | Positive => search_loop fuel' arr x m (mid' - 1)%Z (Some mid')
        | NotANumber => search_loop fuel' arr x m M (Some mid')
        end
    end
  else Some (Fallthrough mid).

Definition is_positive (s : sign) : bool :=
  match s with Positive => true | _ => false end.

(** The code after the loop. *)
Definition after_loop (arr : list T) (x : Q) (mid : option Z) : jsindex :=
  match mid with
  | None => NaN
  | Some mid0 =>
      let mid := Z.min (Z.max 0 mid0) (Z.of_nat (List.length arr) - 1) in
      let i1 := Z.max 0 (mid - 1) in
      let i2 := mid in
      if is_positive (diff_sign arr i1 x) then Idx i1
      else if is_positive (diff_sign arr i2 x) then Idx i2
      else Idx (i2 + 1)
  end.

Definition binarySearch_fuel (fuel : nat) (arr : list T) (x : Q)
  : option jsindex :=
  match search_loop fuel arr x 0 (Z.of_nat (List.length arr) - 1) None with
  | None => None
  | Some (Return mid) => Some (Idx mid)
  | Some (Fallthrough mid) => Some (after_loop arr x mid)
  end.

(** [binarySearch(arr, x, trans)].  Every iteration shrinks [M - m], so
    as many iterations as the array has elements are enough. *)
Definition binarySearch (arr : list T) (x : Q) : option jsindex :=
  binarySearch_fuel (List.length arr) arr x.

(** *** Vocabulary for the properties of the search *)

(** Non-decreasing order of the transformed elements. *)
Definition sorted_by (arr : list T) : Prop :=
  StronglySorted (fun a b => trans a <= trans b) arr.

(** Everything before [p] is below [x]. *)
Definition below (arr : list T) (x : Q) (p : Z) : Prop :=
  forall i e, (i < p)%Z -> at_index arr i = Some e -> trans e < x.

(** Everything after [p] is above [x]. *)
Definition above (arr : list T) (x : Q) (p : Z) : Prop :=
  forall i e, (p < i)%Z -> at_index arr i = Some e -> x < trans e.

(** What the loop establishes. *)
Definition loop_post (arr : list T) (x : Q) (r : loop_exit) : Prop :=
  match r with
  | Return k => exists e, at_index arr k = Some e /\ trans e == x
  | Fallthrough o =>
      exists p k,
        o = Some k /\ (0 <= p <= Z.of_nat (List.length arr))%Z
        /\ below arr x p /\ above arr x (p - 1)
        /\ (0 <= k < Z.of_nat (List.length arr))%Z /\ (k = p - 1 \/ k = p)%Z
  end.

End BinarySearch.

End Helpers.

(** ** constants.js *)

Module Constants.
Definition POINTING_UP : Z := 0.
Definition POINTING_RIGHT : Z := 1.
Definition POINTING_DOWN : Z := 2.
Definition POINTING_LEFT : Z := 3.
Definition HORIZONTAL : Z := 1.
Definition VERTICAL : Z := 0.
End Constants.

(** ** Objects used as dictionaries *)

Module Dict.
Section Dict.
Context {V : Type}.

Definition dict : Type := list (string * V).

(** [d[k]] *)
Fixpoint get (k : string) (d : dict) : option V :=
  match d with
  | [] => None
  | (k', v) :: d' => if String.eqb k k' then Some v else get k d'
  end.

(** [k in d] *)
Definition has (k : string) (d : dict) : bool :=
  match get k d with Some _ => true | None => false end.

(** [d[k] = v]: an existing key keeps its place, a new one goes last.
    This is the order in which an object lists keys that are not array
    indices; array indices (['0'], ['3']) it lists first, by their
    number, whenever they were set. *)
Fixpoint set (k : string) (v : V) (d : dict) : dict :=
  match d with
  | [] => [(k, v)]
  | (k', v') :: d' =>
      if String.eqb k k' then (k', v) :: d' else (k', v') :: set k v d'
  end.

(** [delete d[k]] *)
Fixpoint delete (k : string) (d : dict) : dict :=
  match d with
  | [] => []
  | (k', v') :: d' =>
      if String.eqb k k' then d' else (k', v') :: delete k d'
  end.

(** [Object.keys(d)] *)
Definition keys (d : dict) : list string := map fst d.

(** [helpers.extendObjs(obj1, obj2)] *)
Definition extendObjs (obj1 obj2 : dict) : dict :=
  let obj := fold_left (fun obj kv => set (fst kv) (snd kv) obj) obj1 [] in
  fold_left (fun obj kv => set (fst kv) (snd kv) obj) obj2 obj.

End Dict.
Arguments dict V : clear implicits.
End Dict.

(** ** diagram.js *)

Module Diagram.
Import Constants.

Record coords : Type := { x : Q; y : Q }.

(** An item of the list given to [TDiagram], with the properties the
    code reads.  [parent] is the empty string for the root; an absent
    [branch_at] is [None]; an absent [hidden] is [false]; an absent
    [direction] (segment ends have none) is the empty string, which like
    [undefined] is not ['right'].  Names are taken to be unique, and not
    to be array indices other than possibly the first key, so that
    objects enumerate their keys in insertion order. *)
Record node : Type := {
  name : string;
  parent : string;
  direction : string;
  length : Q;
  seq : Z;
  branch_at : option Q;
  hidden : bool
}.

(** A node object of the tree: the item, what [setUpCoordinates] writes
    on it ([pointing], [coordinates], [end_added]) and its [children].
    Before [computeCoord] the first two are unset (and never read);
    they are 0 and the origin here. *)
#[local] Unset Elimination Schemes.
Inductive tree : Type :=
| Tree (item : node) (pointing : Z) (coordinates : coords)
       (end_added : bool) (children : list tree).
#[local] Set Elimination Schemes.

Definition item (t : tree) : node := let (i, _, _, _, _) := t in i.
Definition pointing (t : tree) : Z := let (_, p, _, _, _) := t in p.
Definition coordinates (t : tree) : coords := let (_, _, c, _, _) := t in c.
Definition end_added (t : tree) : bool := let (_, _, _, e, _) := t in e.
Definition children (t : tree) : list tree := let (_, _, _, _, cs) := t in cs.

Definition origin : coords := {| x := 0; y := 0 |}.

(** The object of a list item once [item.children = []] has run. *)
Definition fresh (i : node) : tree := Tree i 0%Z origin false [].

Definition add_first_child (c p : tree) : tree :=
  match p with
  | Tree i pt co ea cs => Tree i pt co ea (c :: cs)
  end.

(** [this.tree]: the items keyed by name, then, walking the list
    backwards, every item whose parent is still a key is put in front of
    its parent's children and removed from the keys. *)
Definition build (diagram : list node) : Dict.dict tree :=
  let nodes :=
    fold_left (fun t i => Dict.set (name i) (fresh i) t) diagram [] in
  fold_left
    (fun t i =>
       match Dict.get (parent i) t with
       | Some p =>
           let self := match Dict.get (name i) t with
                       | Some s => s
                       | None => fresh i
                       end in
           Dict.delete (name i)
             (Dict.set (parent i) (add_first_child self p) t)
       | None => t
       end)
    (List.rev diagram) nodes.

Inductive axis : Type := X | Y.

Definition getCoordToUpdate (pointing_dir : Z) : axis :=
  if (pointing_dir =? POINTING_RIGHT)%Z || (pointing_dir =? POINTING_LEFT)%Z
  then X else Y.

Definition getDirectionToUpdate (pointing_dir : Z) : Q :=
  if (pointing_dir =? POINTING_RIGHT)%Z || (pointing_dir =? POINTING_DOWN)%Z
  then 1 else -1.

(** [c[a] += d] *)
Definition advance (c : coords) (a : axis) (d : Q) : coords :=
  match a with
  | X => {| x := x c + d; y := y c |}
  | Y => {| x := x c; y := y c + d |}
  end.

(** [child.direction == 'right' ? 1 : -1] *)
Definition angle (child : tree) : Z :=
  if String.eqb (direction (item child)) "right" then 1 else (-1).

(** The delta of a node placed under [parent]. *)
Definition delta (root parent : tree) : Q :=
  match branch_at (item root) with
  | None =>
      inject_Z (seq (item root) + 1)
      / inject_Z (Z.of_nat (List.length (children parent)))
      * length (item parent)
  | Some b => b
  end.

(** The node marking the end of [root]'s segment. *)
Definition end_seg (root : node) (pointing : Z) (coordinates : coords) : tree :=
  Tree {| name := root.(name) ++ "_end";
          parent := root.(name);
          direction := "";
          length := 0;
          seq := 0;
          branch_at := Some root.(length);
          hidden := true |}
       pointing
       (advance coordinates (getCoordToUpdate pointing)
                (root.(length) * getDirectionToUpdate pointing))
       true
       [].

(** [setUpCoordinates(root, parent, pointing)], returning the updated
    [root]. *)
Fixpoint setUpCoordinates (root parent : tree) (pointing0 : Z) : tree :=
  match root with
  | Tree i _ _ ea cs =>
      let co :=
        advance (coordinates parent) (getCoordToUpdate (pointing parent))
                (delta root parent * getDirectionToUpdate (pointing parent)) in
      let self := Tree i pointing0 co ea cs in
      let cs' :=
        map (fun child =>
               setUpCoordinates child self
                 (Z.rem (4 + pointing0 + angle child) 4))
            cs in
      if ea then Tree i pointing0 co ea cs'
      else Tree i pointing0 co true (cs' ++ [end_seg i pointing0 co])
  end.

Record TDiagram : Type := {
  tree_of : Dict.dict tree;
  coord_computed : bool;
  margins_top : Q;
  margins_left : Q
}.

(** [new TDiagram(diagram)] *)
Definition new (diagram : list node) : TDiagram :=
  {| tree_of := build diagram;
     coord_computed := false;
     margins_top := 0;
     margins_left := 0 |}.

Definition setMarginLeft (m : Q) (td : TDiagram) : TDiagram :=
  {| tree_of := tree_of td; coord_computed := coord_computed td;
     margins_top := margins_top td; margins_left := m |}.

Definition setMarginTop (m : Q) (td : TDiagram) : TDiagram :=
  {| tree_of := tree_of td; coord_computed := coord_computed td;
     margins_top := m; margins_left := margins_left td |}.

(** [getRoot()]: the first entry of the tree, [null] when there is none. *)
Definition getRoot (td : TDiagram) : option tree :=
  match tree_of td with
  | [] => None
  | (_, r) :: _ => Some r
  end.

(** The parent handed to [setUpCoordinates] for the root. *)
Definition dummy_parent (root : tree) : tree :=
  Tree {| name := ""; parent := ""; direction := "right"; length := 0;
          seq := 0; branch_at := None; hidden := false |}
       POINTING_UP origin false [root].

(** [computeCoord()].  [None] is the TypeError of an empty diagram. *)
Definition computeCoord (td : TDiagram) : option TDiagram :=
  match tree_of td with
  | [] => None
  | (k, root) :: rest =>
      Some {| tree_of :=
                (k, setUpCoordinates root (dummy_parent root) POINTING_RIGHT)
                  :: rest;
              coord_computed := true;
              margins_top := margins_top td;
              margins_left := margins_left td |}
  end.

(** The check [requiresCoordinates] puts in front of a method. *)
Definition requiresCoordinates (td : TDiagram) : option TDiagram :=
  if coord_computed td then Some td else computeCoord td.

(** A child of a geometry node: a name, or the [undefined] that
    [introduceBreaks] can push. *)
Inductive ref : Type :=
| Name (s : string)
| Undefined.

(** A node of the geometry map. *)
Record gnode : Type := {
  g_name : string;
  g_coordinates : coords;
  g_pointing : Z;
  g_length : Q;
  g_parent : string;
  g_children : list ref;
  g_hidden : bool;
  g_branch_at : option Q
}.

Definition geometry_map : Type := Dict.dict gnode.

(** The recursion of [getGeometry(root)]. *)
Fixpoint geometry_from (root : tree) : geometry_map :=
  match root with
  | Tree i pt co _ cs =>
      let obj :=
        Dict.set i.(name)
          {| g_name := i.(name);
             g_coordinates := {| x := x co; y := y co |};
             g_pointing := pt;
             g_length := i.(length);
             g_parent := i.(parent);
             g_children := map (fun c => Name (name (item c))) cs;
             g_hidden := i.(hidden);
             g_branch_at := i.(branch_at) |}
          [] in
      let children :=
        fold_left (fun total child => Dict.extendObjs total child)
                  (map geometry_from cs) [] in
      Dict.extendObjs obj children
  end.

(** [getGeometry()], with the diagram once its coordinates are computed. *)
Definition getGeometry (td : TDiagram) : option (geometry_map * TDiagram) :=
  match requiresCoordinates td with
  | None => None
  | Some td' =>
      match getRoot td' with
      | None => None
      | Some root => Some (geometry_from root, td')
      end
  end.

(** [+Infinity] and [-Infinity], the starting values of the bounds, are
    [None]. *)
Definition min_r (c : coords -> Q) (min : option Q) (n : gnode) : option Q :=
  match min with
  | None => Some (c (g_coordinates n))
  | Some m => Some (Qmin (c (g_coordinates n)) m)
  end.

Definition max_r (c : coords -> Q) (max : option Q) (n : gnode) : option Q :=
  match max with
  | None => Some (c (g_coordinates n))
  | Some m => Some (Qmax (c (g_coordinates n)) m)
  end.

Record bounds : Type := { left : Q; top : Q; right : Q; bottom : Q }.

(** [getBounds()]; [None] also when a bound is infinite. *)
Definition getBounds (td : TDiagram) : option bounds :=
  match getGeometry td with
  | None => None
  | Some (g, _) =>
      let arr := map snd g in
      match fold_left (min_r x) arr None, fold_left (max_r x) arr None,
            fold_left (min_r y) arr None, fold_left (max_r y) arr None with
      | Some l, Some r, Some t, Some b =>
          Some {| left := l; top := t; right := r; bottom := b |}
      | _, _, _, _ => None
      end
  end.

Definition getCanvasHeight (td : TDiagram) : option Q :=
  match getBounds td with
  | None => None
  | Some b => Some (bottom b - top b + 2 * margins_top td)
  end.

Definition getCanvasWidth (td : TDiagram) : option Q :=
  match getBounds td with
  | None => None
  | Some b => Some (right b - left b + 2 * margins_left td)
  end.

End Diagram.

(** ** The random source

    [Math.random] is an explicit sequence of draws, consumed from the
    front; a computation that asks for more draws than there are does
    not return ([None]). *)

Module Random.

Definition rand (A : Type) : Type := list Q -> option (A * list Q).

Definition ret {A : Type} (a : A) : rand A := fun ds => Some (a, ds).

Definition bind {A B : Type} (c : rand A) (k : A -> rand B) : rand B :=
  fun ds =>
    match c ds with
    | None => None
    | Some (a, ds') => k a ds'
    end.

(** [Math.random()] *)
Definition random : rand Q :=
  fun ds =>
    match ds with
    | [] => None
    | d :: ds' => Some (d, ds')
    end.

(** A TypeError. *)
Definition throw {A : Type} : rand A := fun _ => None.

Definition lift {A : Type} (o : option A) : rand A :=
  match o with
  | Some a => ret a
  | None => throw
  end.

End Random.

Declare Scope rand_scope.
Delimit Scope rand_scope with rand.
Notation "x <- c ;; k" := (Random.bind c (fun x => k))
  (at level 61, c at next level, right associativity) : rand_scope.

(** ** cost.js *)

Module Cost.
Import Constants Diagram.

Record TDiagramCost : Type := {
  tdiagram : TDiagram;
  geometry : geometry_map;
  num_branches : nat
}.

(** [new TDiagramCost(tdiagram)] *)
Definition new (td : TDiagram) : option TDiagramCost :=
  match getGeometry td with
  | None => None
  | Some (g, td') =>
      Some {| tdiagram := td'; geometry := g; num_branches := 0 |}
  end.

(** The property key a child is looked up with. *)
Definition key_of (r : ref) : string :=
  match r with
  | Name s => s
  | Undefined => "undefined"
  end.

Definition lookup (g : geometry_map) (r : ref) : option gnode :=
  Dict.get (key_of r) g.

(** The distance of a child from its node that [introduceBreaks] searches
    on. *)
Definition distance (n child : gnode) : Q :=
  Qabs (x (g_coordinates child) - x (g_coordinates n))
  + Qabs (y (g_coordinates child) - y (g_coordinates n)).

(** [children.map(...)] of [introduceBreaks]; [None] is the TypeError of a
    child that is not in the geometry. *)
Fixpoint distances (g : geometry_map) (n : gnode) (cs : list ref)
  : option (list Q) :=
  match cs with
  | [] => Some []
  | c :: cs' =>
      match lookup g c, distances g n cs' with
      | Some child, Some ds => Some (distance n child :: ds)
      | _, _ => None
      end
  end.

(** Whether [k] is the key of one of the children [cs]. *)
Definition is_key_of (cs : list ref) (k : string) : bool :=
  existsb (fun c => String.eqb k (key_of c)) cs.

(** The distance of the child [c] of [n], 0 for a child that is not in
    the geometry (used to state properties only). *)
Definition distance_of (g : geometry_map) (n : gnode) (c : ref) : Q :=
  match lookup g c with
  | Some child => distance n child
  | None => 0
  end.

(** Where [arr.splice(start)] starts. *)
Definition splice_start (start : Helpers.jsindex) (len : nat) : nat :=
  match start with
  | Helpers.NaN => 0
  | Helpers.Idx i =>
      if (i <? 0)%Z then Z.to_nat (Z.max (Z.of_nat len + i) 0)
      else Nat.min (Z.to_nat i) len
  end.

(** [arr.splice(-1)[0]] with what is left of [arr]. *)
Definition splice_last (arr : list ref) : list ref * ref :=
  match arr with
  | [] => ([], Undefined)
  | _ :: _ => (removelast arr, last arr Undefined)
  end.

Definition break_coordinates (n : gnode) (l : Q) : coords :=
  {| x := x (g_coordinates n)
          + inject_Z (Z.rem (g_pointing n) 2)
            * (if (g_pointing n =? POINTING_RIGHT)%Z then 1 else -1) * l;
     y := y (g_coordinates n)
          + inject_Z (Z.rem (g_pointing n + 1) 2)
            * (if (g_pointing n =? POINTING_DOWN)%Z then 1 else -1) * l |}.

Definition break_pointing (n : gnode) : Z :=
  if (Z.rem (g_pointing n) 2 =? VERTICAL)%Z
  then POINTING_RIGHT else POINTING_UP.

Definition with_parent (p : string) (n : gnode) : gnode :=
  {| g_name := g_name n; g_coordinates := g_coordinates n;
     g_pointing := g_pointing n; g_length := g_length n;
     g_parent := p; g_children := g_children n;
     g_hidden := g_hidden n; g_branch_at := g_branch_at n |}.

(** [newChildren.forEach(child => geometry[child].parent = name)] *)
Fixpoint reparent (g : geometry_map) (p : string) (cs : list ref)
  : option geometry_map :=
  match cs with
  | [] => Some g
  | c :: cs' =>
      match lookup g c with
      | None => None
      | Some child => reparent (Dict.set (key_of c) (with_parent p child) g) p cs'
      end
  end.

(** The body of the [forEach] of [introduceBreaks] for the key [node],
    once the name of the break is chosen. *)
Definition introduceBreak (g : geometry_map) (node : string) (break_at : Q)
           (break_node_name : string) : option geometry_map :=
  match Dict.get node g with
  | None => None
  | Some n =>
      let l := g_length n * break_at in
      match distances g n (g_children n) with
      | None => None
      | Some arr =>
          match Helpers.binarySearch (fun d => d) arr l with
          | None => None
          | Some index_to_break =>
              let start :=
                splice_start index_to_break (List.length (g_children n)) in
              let kept := firstn start (g_children n) in
              let (newChildren, node_end) :=
                splice_last (skipn start (g_children n)) in
              let break_node :=
                {| g_name := break_node_name;
                   g_coordinates := break_coordinates n l;
                   g_pointing := break_pointing n;
                   g_length := g_length n - l;
                   g_parent := node;
                   g_children := newChildren;
                   g_hidden := true;
                   g_branch_at := Some l |} in
              let n' :=
                {| g_name := g_name n; g_coordinates := g_coordinates n;
                   g_pointing := g_pointing n; g_length := l;
                   g_parent := g_parent n;
                   g_children := kept ++ [Name break_node_name; node_end];
                   g_hidden := g_hidden n; g_branch_at := g_branch_at n |} in
              match reparent (Dict.set node n' g) break_node_name newChildren with
              | None => None
              | Some g' => Some (Dict.set break_node_name break_node g')
              end
          end
      end
  end.

(** ['b' + rand] for an integer [rand]. *)
Definition break_name (rand : Z) : string :=
  "b" ++ DecimalString.NilZero.string_of_int (Z.to_int rand).

(** The [do .. while] choosing the name of a break: the first drawn name
    that is not a key of the geometry. *)
Fixpoint fresh_break_name (g : geometry_map) (draws : list Q)
  : option (string * list Q) :=
  match draws with
  | [] => None
  | d :: draws' =>
      let rand := Math_round (d * 100000000000) in
      if Dict.has (break_name rand) g then fresh_break_name g draws'
      else Some (break_name rand, draws')
  end.

(** [Object.keys(breaks).forEach(...)] *)
Fixpoint introduceEach (g : geometry_map) (breaks : Dict.dict Q)
  : Random.rand geometry_map :=
  match breaks with
  | [] => Random.ret g
  | (node, break_at) :: breaks' =>
      (name <- fresh_break_name g ;;
       g' <- Random.lift (introduceBreak g node break_at name) ;;
       introduceEach g' breaks')%rand
  end.

(** [k.endsWith('_end')] *)
Definition endsWith_end (k : string) : bool :=
  let n := String.length k in
  (4 <=? n)%nat && String.eqb (String.substring (n - 4) 4 k) "_end".

(** [children.indexOf(name)] *)
Fixpoint indexOf (name : string) (cs : list ref) : Z :=
  match cs with
  | [] => -1
  | Name s :: cs' =>
      if String.eqb s name then 0
      else let i := indexOf name cs' in if (i <? 0)%Z then -1 else i + 1
  | Undefined :: cs' =>
      let i := indexOf name cs' in if (i <? 0)%Z then -1 else i + 1
  end.

(** A geometry node as [updateFromGeometry] hands it to [TDiagram]: with
    the [direction] and [seq] computed from its parent.  [None] is the
    TypeError of a parent that is not in the geometry. *)
Definition describe (g : geometry_map) (n : gnode) : option node :=
  let as_item (d : string) (s : Z) :=
    {| name := g_name n; parent := g_parent n; direction := d;
       length := g_length n; seq := s; branch_at := g_branch_at n;
       hidden := g_hidden n |} in
  if String.eqb (g_parent n) "" then Some (as_item "right"%string 0%Z)
  else
    match Dict.get (g_parent n) g with
    | None => None
    | Some p =>
        Some (as_item
                (if (0 <? g_pointing p - g_pointing n)%Z then "left" else "right")%string
                (indexOf (g_name n) (g_children p)))
    end.

Fixpoint describe_all (g : geometry_map) (ns : list gnode)
  : option (list node) :=
  match ns with
  | [] => Some []
  | n :: ns' =>
      match describe g n, describe_all g ns' with
      | Some i, Some items => Some (i :: items)
      | _, _ => None
      end
  end.

Definition is_added (added : list string) (n : gnode) : bool :=
  existsb (String.eqb (g_name n)) added.

(** The [while] of the topological sort: the ancestors of a node that are
    not yet added, nearest first, marking each as added. *)
Fixpoint climb (fuel : nat) (g : geometry_map) (added : list string)
         (parent : gnode) (answer : list gnode)
  : option (list gnode * list string) :=
  if is_added added parent then Some (answer, added)
  else
    match fuel with
    | O => None
    | S fuel' =>
        let answer' := answer ++ [parent] in
        let added' := g_name parent :: added in
        match Dict.get (g_parent parent) g with
        | Some grandparent => climb fuel' g added' grandparent answer'
        | None => Some (answer', added')
        end
    end.

(** [sort(tree)], on the list read from its end ([tree.pop()]). *)
Fixpoint sort (g : geometry_map) (popped : list gnode) (added : list string)
  : option (list gnode) :=
  match popped with
  | [] => Some []
  | node :: rest =>
      if is_added added node then sort g rest added
      else
        match
          match Dict.get (g_parent node) g with
          | Some parent => climb (S (List.length g)) g added parent []
          | None => Some ([], added)
          end
        with
        | None => None
        | Some (answer, added') =>
            match sort g rest (g_name node :: added') with
            | None => None
            | Some sorted => Some (List.rev (node :: answer) ++ sorted)
            end
        end
  end.

(** The number of names of the geometry that are not yet added: what
    the [while] of the sort can still add. *)
Definition not_added (g : geometry_map) (added : list string) : nat :=
  List.length
    (filter (fun nm => negb (existsb (String.eqb nm) added))
            (nodup string_dec (map g_name (map snd g)))).

(** [updateFromGeometry()]: the new diagram and its geometry.  The
    sorted list is described again, which gives a node the direction and
    seq it got before the sort.  Bend maps are taken to have no segment
    end (a key ending in [_end]) among their keys, as the optimizer draws
    them from the nodes that are not hidden: only as the parent of a bend
    put on it would a segment end come into the sorted list, and the code
    hands it on without a direction. *)
Definition updateFromGeometry (g : geometry_map)
  : option (TDiagram * geometry_map) :=
  let tdiagram :=
    map snd (filter (fun kv => negb (endsWith_end (fst kv))) g) in
  match describe_all g tdiagram with
  | None => None
  | Some _ =>
      match sort g (List.rev tdiagram) [] with
      | None => None
      | Some sorted =>
          match describe_all g sorted with
          | None => None
          | Some sorted_tdiagram =>
              match computeCoord (Diagram.new sorted_tdiagram) with
              | None => None
              | Some td =>
                  match getGeometry td with
                  | None => None
                  | Some (g', td') => Some (td', g')
                  end
              end
          end
      end
  end.

(** [self.num_branches = Object.keys(breaks).length], the first statement
    of [introduceBreaks]. *)
Definition count_branches (self : TDiagramCost) (breaks : Dict.dict Q)
  : TDiagramCost :=
  {| tdiagram := tdiagram self;
     geometry := geometry self;
     num_branches := List.length (Dict.keys breaks) |}.

(** [introduceBreaks(breaks)] *)
Definition introduceBreaks (self : TDiagramCost) (breaks : Dict.dict Q)
  : Random.rand TDiagramCost :=
  let self := count_branches self breaks in
  (g <- introduceEach (geometry self) breaks ;;
   u <- Random.lift (updateFromGeometry g) ;;
   Random.ret {| tdiagram := fst u;
                 geometry := snd u;
                 num_branches := num_branches self |})%rand.

(** *** Counting intersections *)

Definition point : Type := (Q * Q)%type.
Definition segment : Type := (point * point)%type.

(** A segment projected on an axis, as [project(axis)] builds it. *)
Record projection : Type := { projected : Q * Q; other : Q }.

Definition project (a : axis) (s : segment) : projection :=
  match a with
  | X => {| projected := (fst (fst s), fst (snd s)); other := snd (fst s) |}
  | Y => {| projected := (snd (fst s), snd (snd s)); other := fst (fst s) |}
  end.

(** The segments from a node to each of its children. *)
Fixpoint segments_of (g : geometry_map) (n : gnode) (cs : list ref)
  : option (list segment) :=
  match cs with
  | [] => Some []
  | c :: cs' =>
      match lookup g c, segments_of g n cs' with
      | Some child, Some ss =>
          Some (((x (g_coordinates n), y (g_coordinates n)),
                 (x (g_coordinates child), y (g_coordinates child))) :: ss)
      | _, _ => None
      end
  end.

Fixpoint all_segments (g : geometry_map) (ns : list gnode)
  : option (list segment) :=
  match ns with
  | [] => Some []
  | n :: ns' =>
      match segments_of g n (g_children n), all_segments g ns' with
      | Some ss, Some total => Some (ss ++ total)
      | _, _ => None
      end
  end.

Definition is_horizontal (s : segment) : bool :=
  Qeq_bool (snd (fst s)) (snd (snd s)).

Definition is_vertical (s : segment) : bool :=
  Qeq_bool (fst (fst s)) (fst (snd s)).

Definition inverse (s : segment) : segment := (snd s, fst s).

(** [arr.sort(function(a, b) { return key(a) - key(b); })], which is
    stable. *)
Section Sort.
Context {A : Type}.
Variable key : A -> Q.

Fixpoint insert_sorted (a : A) (l : list A) : list A :=
  match l with
  | [] => [a]
  | b :: l' =>
      if Qle_bool (key b) (key a) then b :: insert_sorted a l' else a :: l
  end.

Definition sort_by (l : list A) : list A :=
  fold_left (fun sorted a => insert_sorted a sorted) l [].
End Sort.

Section Intersections.
(** The conversion of a number to a string, which decides the keys of
    objects indexed by a number and the order of the default [sort()]. *)
Variable Number_toString : Q -> string.

(** [s.sort()] on a pair of numbers: by their strings. *)
Definition default_sort (s : Q * Q) : Q * Q :=
  if String.leb (Number_toString (fst s)) (Number_toString (snd s))
  then s else (snd s, fst s).

(** The grouping of [uni_dir_intersections]. *)
Definition group_by_other (ps : list projection)
  : Dict.dict (list (Q * Q)) :=
  fold_left
    (fun grouped p =>
       let k := Number_toString (other p) in
       match Dict.get k grouped with
       | Some group => Dict.set k (group ++ [projected p]) grouped
       | None => Dict.set k [projected p] grouped
       end)
    ps [].

(** What the segment at [index] adds to the count. *)
Definition overlaps_ahead (segments : list (Q * Q)) (index : Z) (s : Q * Q)
  : option Z :=
  match Helpers.binarySearch fst segments (snd s) with
  | None => None
  | Some Helpers.NaN => None
  | Some (Helpers.Idx max_ind) =>
      if (max_ind <=? index)%Z then Some 0%Z
      else
        let len := Z.of_nat (List.length segments) in
        let max_ind := if (len <=? max_ind)%Z then (len - 1)%Z else max_ind in
        match Helpers.at_index segments max_ind with
        | None => None
        | Some seg =>
            let max_ind :=
              if Qltb (snd s) (fst seg) then (max_ind - 1)%Z else max_ind in
            Some (max_ind - index)%Z
        end
  end.

Fixpoint count_group (segments rest : list (Q * Q)) (index : Z)
  : option Z :=
  match rest with
  | [] => Some 0%Z
  | s :: rest' =>
      match overlaps_ahead segments index s,
            count_group segments rest' (index + 1) with
      | Some c, Some total => Some (c + total)%Z
      | _, _ => None
      end
  end.

Fixpoint count_groups (groups : list (list (Q * Q))) : option Z :=
  match groups with
  | [] => Some 0%Z
  | group :: groups' =>
      match count_groups groups' with
      | None => None
      | Some total =>
          if (List.length group =? 1)%nat then Some total
          else
            let sorted := sort_by fst (map default_sort group) in
            match count_group sorted sorted 0 with
            | None => None
            | Some c => Some (c + total)%Z
            end
      end
  end.

Definition uni_dir_intersections (ps : list projection) : option Z :=
  count_groups (map snd (group_by_other ps)).

(** [JSON.stringify(segment)] *)
Definition stringify (s : segment) : string :=
  "[[" ++ Number_toString (fst (fst s)) ++ "," ++ Number_toString (snd (fst s))
  ++ "],[" ++ Number_toString (fst (snd s)) ++ ","
  ++ Number_toString (snd (snd s)) ++ "]]".

Definition getIntersection (set : Dict.dict segment) (s : segment) : Z :=
  fold_left
    (fun count kv =>
       let hor := snd kv in
       if Qle_bool (snd (fst s)) (snd (fst hor))
          && Qle_bool (snd (fst hor)) (snd (snd s))
       then (count + 1)%Z else count)
    set 0%Z.

(** The sweep of [perp_intersections].  (The pass of the source that
    is commented as removing duplicates changes nothing: its result is
    dropped.) *)
Definition perp_intersections (segments : list segment) : Z :=
  let doubled := segments ++ map inverse segments in
  let sorted := sort_by (fun s : segment => fst (fst s)) doubled in
  snd
    (fold_left
       (fun (st : Dict.dict segment * Z) s =>
          let (set, count) := st in
          if is_vertical s then (set, (count + getIntersection set s)%Z)
          else
            let key := stringify (inverse s) in
            if Dict.has key set then (Dict.delete key set, count)
            else (Dict.set (stringify s) s set, count))
       sorted ([], 0%Z)).

(** [intersections()] *)
Definition intersections (self : TDiagramCost) : option Z :=
  match all_segments (geometry self) (map snd (geometry self)) with
  | None => None
  | Some segments =>
      let horizontal_segments := filter is_horizontal segments in
      let vertical_segments := filter is_vertical segments in
      match uni_dir_intersections (map (project X) horizontal_segments),
            uni_dir_intersections (map (project Y) vertical_segments) with
      | Some his, Some vis =>
          Some (his + vis + perp_intersections segments)%Z
      | _, _ => None
      end
  end.

(** *** The cost *)

(** [Math.exp] *)
Definition Math_exp (q : Q) : R := exp (Q2R q).

(** [Math.pow] where [cost] uses it: on a base that is not negative
    (and with an exponent that is not negative when the base is 0). *)
Definition Math_pow (b e : R) : R :=
  if Req_dec_T b 0
  then (if Req_dec_T e 0 then 1%R else 0%R)
  else Rpower b e.

Record cost_record : Type := {
  branches_factor : R;
  intersection_factor : R;
  ar_factor : R;
  total : R
}.

(** [cost(alpha, beta, gamma, prefered_aspect_ratio)].  [None] when
    the code throws, and when a division by zero takes the result out
    of the finite numbers. *)
Definition cost (self : TDiagramCost) (alpha beta gamma prefered_aspect_ratio : Q)
  : option cost_record :=
  let branches_factor := Math_pow (INR (num_branches self)) 2 in
  match intersections self,
        getCanvasWidth (tdiagram self), getCanvasHeight (tdiagram self) with
  | Some intersections, Some width, Some height =>
      if Qeq_bool height 0 then None
      else
        let ar_diagram := width / height in
        if Qeq_bool (Qmin ar_diagram prefered_aspect_ratio) 0 then None
        else
          let ar :=
            Math_exp (Qmax ar_diagram prefered_aspect_ratio
                      / Qmin ar_diagram prefered_aspect_ratio - 1) in
          Some {| branches_factor := branches_factor;
                  intersection_factor := IZR intersections;
                  ar_factor := (ar - 1)%R;
                  total := (Q2R alpha * branches_factor
                            + Q2R beta * IZR intersections
                            + Math_pow ar (Q2R gamma) - 1)%R |}
  | _, _, _ => None
  end.

End Intersections.

End Cost.

(** ** drawer.js *)

Module Drawer.
Import Constants Diagram Cost.

Record cost_params : Type := {
  alpha : Q;
  beta : Q;
  gamma : Q;
  prefered_aspect_ratio : Q
}.

(** A specimen; an [id] of [None] is the [NaN] that the counter yields
    before it is initialised. *)
Record specimen : Type := {
  diagram : TDiagramCost;
  breaks : Dict.dict Q;
  id : option Z;
  cost : option cost_record
}.

Record TDiagramDrawer : Type := {
  params : cost_params;
  population_size : nat;
  mutation_prob : Q;
  base : TDiagram;
  geometry : geometry_map;
  probability_of_adding_branch : Q;
  population : list specimen;
  counter : option Z
}.

Definition with_population (self : TDiagramDrawer) (p : list specimen)
  : TDiagramDrawer :=
  {| params := params self; population_size := population_size self;
     mutation_prob := mutation_prob self; base := base self;
     geometry := geometry self;
     probability_of_adding_branch := probability_of_adding_branch self;
     population := p; counter := counter self |}.

Definition with_counter (self : TDiagramDrawer) (c : option Z)
  : TDiagramDrawer :=
  {| params := params self; population_size := population_size self;
     mutation_prob := mutation_prob self; base := base self;
     geometry := geometry self;
     probability_of_adding_branch := probability_of_adding_branch self;
     population := population self; counter := c |}.

(** [Math.floor(Math.random() * n)] for the draw [d]. *)
Definition random_index (d : Q) (n : nat) : Z :=
  Qfloor (d * inject_Z (Z.of_nat n)).

(** A fresh fraction, [Math.random() * 0.8 + 0.1]. *)
Definition random_fraction (d : Q) : Q := d * (8 # 10) + (1 # 10).

(** The [filter] choosing the nodes of a random specimen: a draw for
    every key, kept when it is below the probability and the node is not
    hidden. *)
Fixpoint sample_nodes (prob : Q) (g : geometry_map) : Random.rand (list string) :=
  match g with
  | [] => Random.ret []
  | (k, n) :: g' =>
      (d <- Random.random ;;
       rest <- sample_nodes prob g' ;;
       Random.ret (if Qltb d prob && negb (g_hidden n) then k :: rest else rest))%rand
  end.

(** The [reduce] giving every chosen node a fraction. *)
Fixpoint random_fractions (nodes : list string) (total : Dict.dict Q)
  : Random.rand (Dict.dict Q) :=
  match nodes with
  | [] => Random.ret total
  | node :: nodes' =>
      (d <- Random.random ;;
       random_fractions nodes' (Dict.set node (random_fraction d) total))%rand
  end.

(** [counter++] *)
Definition next (c : option Z) : option Z :=
  match c with
  | Some n => Some (n + 1)%Z
  | None => None
  end.

(** [createRandomSpecimenFromBreaks(breaks)]; [None] for an argument
    that is not an object. *)
Definition createRandomSpecimenFromBreaks (self : TDiagramDrawer)
           (breaks : option (Dict.dict Q))
  : Random.rand (specimen * TDiagramDrawer) :=
  (tdiagramBreaker <- Random.lift (Cost.new (base self)) ;;
   the_breaks <- match breaks with
                 | Some b => Random.ret b
                 | None =>
                     nodes <- sample_nodes (probability_of_adding_branch self)
                                           (geometry self) ;;
                     random_fractions nodes []
                 end ;;
   broken <- introduceBreaks tdiagramBreaker the_breaks ;;
   Random.ret ({| diagram := broken; breaks := the_breaks;
                  id := counter self; cost := None |},
               with_counter self (next (counter self))))%rand.

Section Grading.
Variable Number_toString : Q -> string.

(** [cost(specimen)] *)
Definition cost_of (self : TDiagramDrawer) (s : specimen)
  : option cost_record :=
  Cost.cost Number_toString (diagram s)
            (alpha (params self)) (beta (params self))
            (gamma (params self)) (prefered_aspect_ratio (params self)).

(** [gradePopulation()]; [None] when computing a cost fails. *)
Fixpoint grade (self : TDiagramDrawer) (p : list specimen)
  : option (list specimen) :=
  match p with
  | [] => Some []
  | s :: p' =>
      match match cost s with
            | Some c => Some c
            | None => cost_of self s
            end,
            grade self p' with
      | Some c, Some graded =>
          Some ({| diagram := diagram s; breaks := breaks s; id := id s;
                   cost := Some c |} :: graded)
      | _, _ => None
      end
  end.

Definition gradePopulation (self : TDiagramDrawer) : option TDiagramDrawer :=
  match grade self (population self) with
  | None => None
  | Some p => Some (with_population self p)
  end.
End Grading.

(** The [reduce] of [performSelection], from 0.  [None] is the
    TypeError of a specimen without a cost. *)
Fixpoint max_total (p : list specimen) (t : R) : option R :=
  match p with
  | [] => Some t
  | s :: p' =>
      match cost s with
      | None => None
      | Some c => max_total p' (if Rlt_dec t (total c) then total c else t)
      end
  end.

(** The [filter] of [performSelection], with one draw per specimen. *)
Fixpoint select (max : R) (p : list specimen) : Random.rand (list specimen) :=
  match p with
  | [] => Random.ret []
  | s :: p' =>
      (c <- Random.lift (cost s) ;;
       d <- Random.random ;;
       survivors <- select max p' ;;
       Random.ret (if Rlt_dec (total c) (Q2R d * max) then s :: survivors
                   else survivors))%rand
  end.

(** [performSelection()] on a population. *)
Definition performSelection (p : list specimen) : Random.rand (list specimen) :=
  (max <- Random.lift (max_total p 0%R) ;;
   select max p)%rand.

(** *** Vocabulary for the properties of the selection *)

(** The total of a graded specimen. *)
Definition total_of (s : specimen) : R :=
  match cost s with
  | Some c => total c
  | None => 0%R
  end.

(** The largest total of a population, and at least [floor]. *)
Definition largest_total (floor : R) (p : list specimen) : R :=
  fold_left (fun t s => Rmax t (total_of s)) p floor.

(** Whether a specimen is kept for the draw [d]. *)
Definition survives (max : R) (sd : specimen * Q) : bool :=
  if Rlt_dec (total_of (fst sd)) (Q2R (snd sd) * max) then true else false.

(** The [while (p2 == p1)] choosing the second parent. *)
Fixpoint second_parent (p1 : Z) (n : nat) (draws : list Q)
  : option (Z * list Q) :=
  match draws with
  | [] => None
  | d :: draws' =>
      let p2 := random_index d n in
      if (p2 =? p1)%Z then second_parent p1 n draws' else Some (p2, draws')
  end.

(** The crossover loop over the breaks of one parent. *)
Fixpoint inherit (from : Dict.dict Q) (breaks : Dict.dict Q)
  : Random.rand (Dict.dict Q) :=
  match from with
  | [] => Random.ret breaks
  | (k, v) :: from' =>
      (d <- Random.random ;;
       inherit from' (if Qltb (1 # 2) d then Dict.set k v breaks else breaks))%rand
  end.

(** The value the mutation writes. *)
Definition mutated (v d : Q) : Q :=
  Qmin (1 # 10) (Qmax (9 # 10) (v + d * (1 # 10) - (5 # 100))).

(** The mutation loop: a key whose draw is below [mutation_prob] gets
    the value [mutated], computed with one more draw.  (Assigning to an
    existing key leaves the order of the keys as it is.) *)
Fixpoint mutate (mutation_prob : Q) (breaks : Dict.dict Q)
  : Random.rand (Dict.dict Q) :=
  match breaks with
  | [] => Random.ret []
  | (k, v) :: breaks' =>
      (d <- Random.random ;;
       v' <- (if Qltb d mutation_prob
              then (d' <- Random.random ;; Random.ret (mutated v d'))
              else Random.ret v) ;;
       rest <- mutate mutation_prob breaks' ;;
       Random.ret ((k, v') :: rest))%rand
  end.

(** [delete arr[key]] on an array: the element at the index that [key]
    spells, if any, becomes a hole. *)
Definition array_delete (arr : list string) (key : string)
  : list (option string) :=
  map (fun ie : nat * string =>
         if String.eqb key
              (DecimalString.NilZero.string_of_uint (Nat.to_uint (fst ie)))
         then None else Some (snd ie))
      (combine (List.seq 0%nat (List.length arr)) arr).

(** The branch-removal event:
    [var branches = Object.keys(breaks);
     var rand_branch = branches[Math.floor(Math.random()*branches.length)];
     delete branches[rand_branch];]
    The deletion acts on the array of keys, a local of this block.  An
    [undefined] key is the property name ["undefined"]. *)
Definition remove_branch (breaks : Dict.dict Q) : Random.rand (Dict.dict Q) :=
  (d <- Random.random ;;
   let branches := Dict.keys breaks in
   let rand_branch :=
     Helpers.at_index branches (random_index d (List.length branches)) in
   let branches' :=
     array_delete branches
       (match rand_branch with Some k => k | None => "undefined"%string end) in
   Random.ret breaks)%rand.

(** The [do .. while (random_node in breaks)] of the branch-adding
    event. *)
Fixpoint pick_new_node (possible_nodes : list string) (breaks : Dict.dict Q)
         (draws : list Q) : option (string * list Q) :=
  match draws with
  | [] => None
  | d :: draws' =>
      let rand_id := random_index d (List.length possible_nodes) in
      let random_node :=
        match Helpers.at_index possible_nodes rand_id with
        | Some k => k
        | None => "undefined"%string
        end in
      if Dict.has random_node breaks then pick_new_node possible_nodes breaks draws'
      else Some (random_node, draws')
  end.

Definition add_branch (self : TDiagramDrawer) (breaks : Dict.dict Q)
  : Random.rand (Dict.dict Q) :=
  let possible_nodes :=
    Dict.keys (filter (fun kv => negb (g_hidden (snd kv))) (geometry self)) in
  if (List.length (Dict.keys breaks) <? List.length possible_nodes)%nat then
    (random_node <- pick_new_node possible_nodes breaks ;;
     d <- Random.random ;;
     Random.ret (Dict.set random_node (random_fraction d) breaks))%rand
  else Random.ret breaks.

(** An event that fires when a draw is below [prob]. *)
Definition with_probability {A : Type} (prob : Q) (event : A -> Random.rand A)
           (a : A) : Random.rand A :=
  (d <- Random.random ;;
   if Qltb d prob then event a else Random.ret a)%rand.

(** The bend map of a child, up to and including the mutation. *)
Definition crossover_and_mutation (self : TDiagramDrawer)
           (parents : list specimen) : Random.rand (Dict.dict Q) :=
  (d <- Random.random ;;
   let p1 := random_index d (List.length parents) in
   p2 <- second_parent p1 (List.length parents) ;;
   p1 <- Random.lift (Helpers.at_index parents p1) ;;
   p2 <- Random.lift (Helpers.at_index parents p2) ;;
   from_p1 <- inherit (breaks p1) [] ;;
   from_both <- inherit (breaks p2) from_p1 ;;
   mutate (mutation_prob self) from_both)%rand.

(** The bend map that the breeding of [step] hands to
    [createRandomSpecimenFromBreaks]. *)
Definition child_breaks (self : TDiagramDrawer) (parents : list specimen)
  : Random.rand (Dict.dict Q) :=
  (mutated_breaks <- crossover_and_mutation self parents ;;
   after_removal <- with_probability (probability_of_adding_branch self)
                                     remove_branch mutated_breaks ;;
   with_probability (probability_of_adding_branch self)
                    (add_branch self) after_removal)%rand.

(** [Array(population_size).fill(0).map(...)] of [step]. *)
Fixpoint breed (n : nat) (self : TDiagramDrawer) (parents : list specimen)
  : Random.rand (list specimen * TDiagramDrawer) :=
  match n with
  | O => Random.ret ([], self)
  | S n' =>
      (new_breaks <- child_breaks self parents ;;
       made <- createRandomSpecimenFromBreaks self (Some new_breaks) ;;
       rest <- breed n' (snd made) parents ;;
       Random.ret (fst made :: fst rest, snd rest))%rand
  end.

(** [createPopulation()] *)
Fixpoint createPopulation (n : nat) (self : TDiagramDrawer)
  : Random.rand (list specimen * TDiagramDrawer) :=
  match n with
  | O => Random.ret ([], self)
  | S n' =>
      (made <- createRandomSpecimenFromBreaks self None ;;
       rest <- createPopulation n' (snd made) ;;
       Random.ret (fst made :: fst rest, snd rest))%rand
  end.

(** [new TDiagramDrawer(cost_params, population_size, mutation_prob,
    diagram)].  The population is created before the counter is set to
    0. *)
Definition new (cost_params0 : cost_params) (population_size0 : nat)
           (mutation_prob0 : Q) (diagram0 : TDiagram)
  : Random.rand TDiagramDrawer :=
  (gd <- Random.lift (getGeometry diagram0) ;;
   made <- createPopulation population_size0
             {| params := cost_params0; population_size := population_size0;
                mutation_prob := mutation_prob0; base := snd gd;
                geometry := fst gd;
                probability_of_adding_branch := mutation_prob0;
                population := []; counter := None |} ;;
   Random.ret (with_counter (with_population (snd made) (fst made)) (Some 0%Z)))%rand.

Section Step.
Variable Number_toString : Q -> string.

(** [step(callbacks)]; the callbacks only observe. *)
Definition step (self : TDiagramDrawer) : Random.rand TDiagramDrawer :=
  (self <- Random.lift (gradePopulation Number_toString self) ;;
   parents <- performSelection (population self) ;;
   bred <- breed (population_size self) (with_population self parents) parents ;;
   Random.lift
     (gradePopulation Number_toString (with_population (snd bred) (fst bred))))%rand.
End Step.

Section Learn.
Variable Number_toString : Q -> string.

(** The callback of [learn], given the number of the iteration and the
    costs of the population; [false] is the answer [=== false], which
    stops the loop.  A call without a callback uses the one that always
    answers [true]. *)
Variable step_callback : Z -> list (option cost_record) -> bool.

(** The [for] of [learn], at the iteration [i] with [n] iterations to
    go. *)
Fixpoint learn_from (n : nat) (i : Z) (self : TDiagramDrawer)
  : Random.rand TDiagramDrawer :=
  match n with
  | O => Random.ret self
  | S n' =>
      (self <- step Number_toString self ;;
       if step_callback i (map cost (population self))
       then learn_from n' (i + 1)%Z self
       else Random.ret self)%rand
  end.

(** [learn(generation_limit, step_callback, callbacks)], with the
    drawer it leaves. *)
Definition learn (generation_limit : nat) (self : TDiagramDrawer)
  : Random.rand (list specimen * TDiagramDrawer) :=
  (self <- learn_from generation_limit 0%Z self ;;
   Random.ret (population self, self))%rand.
End Learn.

End Drawer.

(** ** Sample diagrams *)

Module Examples.
Import Diagram.

Definition entry (name parent direction : string) (length : Q)
           (seq : Z) (branch_at : option Q) : node :=
  {| name := name; parent := parent; direction := direction;
     length := length; seq := seq; branch_at := branch_at;
     hidden := false |}.

(** A root with three children spread along it. *)
Definition comb : list node :=
  [ entry "R" "" "right" 100 0 None;
    entry "A" "R" "left" 50 0 None;
    entry "B" "R" "right" 50 1 None;
    entry "C" "R" "left" 50 2 None ].

(** Two branches leaving the root at the same point, one on each side. *)
Definition crossing : list node :=
  [ entry "R" "" "right" 100 0 None;
    entry "A" "R" "left" 30 0 (Some 50);
    entry "B" "R" "right" 30 1 (Some 50) ].

(** A branch turning left twice. *)
Definition left_left : list node :=
  [ entry "R" "" "right" 100 0 None;
    entry "A" "R" "left" 50 0 None;
    entry "B" "A" "left" 20 0 None ].

(** A branch turning right twice. *)
Definition right_right : list node :=
  [ entry "R" "" "right" 100 0 None;
    entry "A" "R" "right" 50 0 None;
    entry "B" "A" "right" 20 0 None ].

(** The start of the diagram of example/example.js. *)
Definition example_js : list node :=
  [ entry "0" "" "left" 100 0 None;
    entry "00" "0" "left" 170 0 None;
    entry "01" "0" "left" 50 1 None;
    entry "02" "0" "right" 20 2 None;
    entry "000" "00" "right" 10 0 None ].

(** The geometry a [TDiagramCost] captures from a diagram. *)
Definition captured (diagram : list node) : geometry_map :=
  match Cost.new (Diagram.new diagram) with
  | Some c => Cost.geometry c
  | None => []
  end.

(** The captured geometry of [comb], and its root. *)
Definition comb_geometry : geometry_map :=
  Eval vm_compute in captured comb.

Definition comb_root : gnode :=
  Eval vm_compute in
    match Dict.get "R" comb_geometry with
    | Some n => n
    | None => {| g_name := ""; g_coordinates := origin; g_pointing := 0;
                 g_length := 0; g_parent := ""; g_children := [];
                 g_hidden := false; g_branch_at := None |}
    end.

(** The depth of the nodes of [comb_geometry]: the root, then the
    branches, then the ends of the segments. *)
Definition comb_depth (k : string) : nat :=
  if String.eqb k "R" then 0%nat
  else if Cost.endsWith_end k then 2%nat else 1%nat.

(** The cost engine of a diagram. *)
Definition engine (diagram : list node) : Cost.TDiagramCost :=
  match Cost.new (Diagram.new diagram) with
  | Some c => c
  | None =>
      {| Cost.tdiagram := Diagram.new []; Cost.geometry := [];
         Cost.num_branches := 0 |}
  end.

(** A graded specimen with the given total. *)
Definition graded (t : R) : Drawer.specimen :=
  {| Drawer.diagram :=
       {| Cost.tdiagram := Diagram.new []; Cost.geometry := [];
          Cost.num_branches := 0 |};
     Drawer.breaks := [];
     Drawer.id := None;
     Drawer.cost :=
       Some {| Cost.branches_factor := 0; Cost.intersection_factor := 0;
               Cost.ar_factor := 0; Cost.total := t |} |}.

(** An ungraded specimen with the given bend map. *)
Definition bent (b : Dict.dict Q) : Drawer.specimen :=
  {| Drawer.diagram := engine comb;
     Drawer.breaks := b;
     Drawer.id := None;
     Drawer.cost := None |}.

(** A drawer for [comb], for two specimens, with the given population. *)
Definition drawer (p : list Drawer.specimen) : Drawer.TDiagramDrawer :=
  {| Drawer.params :=
       {| Drawer.alpha := 1; Drawer.beta := 1; Drawer.gamma := 1;
          Drawer.prefered_aspect_ratio := 1 |};
     Drawer.population_size := 2;
     Drawer.mutation_prob := 1 # 10;
     Drawer.base := Cost.tdiagram (engine comb);
     Drawer.geometry := comb_geometry;
     Drawer.probability_of_adding_branch := 1 # 10;
     Drawer.population := p;
     Drawer.counter := Some 0%Z |}.

(** The diagram of a specimen of [drawer] made with the empty bend
    map. *)
Definition unbent_diagram : Cost.TDiagramCost :=
  Eval vm_compute in
    match Drawer.createRandomSpecimenFromBreaks (drawer []) (Some []) [] with
    | Some (s, _, _) => Drawer.diagram s
    | None => engine comb
    end.

(** That specimen, with the id [i]. *)
Definition unbent (i : Z) : Drawer.specimen :=
  {| Drawer.diagram := unbent_diagram;
     Drawer.breaks := [];
     Drawer.id := Some i;
     Drawer.cost := None |}.

(** A specimen without bends that has the cost [c]. *)
Definition cached (c : option Cost.cost_record) : Drawer.specimen :=
  {| Drawer.diagram :=
       {| Cost.tdiagram := Diagram.new []; Cost.geometry := [];
          Cost.num_branches := 0 |};
     Drawer.breaks := [];
     Drawer.id := None;
     Drawer.cost := c |}.

(** A conversion of numbers to strings that is exact on integers:
    decimal digits for an integer, as JavaScript writes it below 1e21,
    numerator/denominator otherwise. *)
Definition toString (q : Q) : string :=
  let r := Qred q in
  match Qden r with
  | xH => DecimalString.NilZero.string_of_int (Z.to_int (Qnum r))
  | d => DecimalString.NilZero.string_of_int (Z.to_int (Qnum r)) ++ "/"
         ++ DecimalString.NilZero.string_of_int (Z.to_int (Zpos d))
  end.

End Examples.


(** ** Vocabulary for the properties of the tree and of the geometry *)

Module Shape.
Import Diagram.

(** The nodes of a tree, the root first. *)
Fixpoint nodes (t : tree) : list tree :=
  match t with
  | Tree _ _ _ _ cs => t :: flat_map nodes cs
  end.

(** The entry that [getGeometry] writes for a node. *)
Definition entry_of (t : tree) : gnode :=
  match t with
  | Tree i pt co _ cs =>
      {| g_name := i.(name);
         g_coordinates := {| x := x co; y := y co |};
         g_pointing := pt;
         g_length := i.(length);
         g_parent := i.(parent);
         g_children := map (fun c => Name (name (item c))) cs;
         g_hidden := i.(hidden);
         g_branch_at := i.(branch_at) |}
  end.

(** A geometry in which every entry is stored under its own name and
    every child is the name of an entry. *)
Definition closed (g : geometry_map) : Prop :=
  forall k n,
    Dict.get k g = Some n ->
    g_name n = k
    /\ forall c, In c (g_children n) ->
                 exists s, c = Name s /\ Dict.has s g = true.

(** A tree as the constructor of [TDiagram] builds it: no segment end
    has been added yet. *)
Definition unplaced (t : tree) : Prop :=
  Forall (fun n => end_added n = false) (nodes t).

(** The order the constructor of [TDiagram] asks for: the parent of
    every item after the first is the name of an earlier item. *)
Fixpoint parents_first (seen : list string) (items : list Diagram.node)
  : Prop :=
  match items with
  | [] => True
  | i :: items' =>
      In (Diagram.parent i) seen
      /\ parents_first (seen ++ [Diagram.name i]) items'
  end.

(** A list of geometry nodes in which the parent of a node, when the
    geometry has it, is among [seen] or earlier in the list. *)
Fixpoint parents_before (g : geometry_map) (seen : list string)
         (l : list gnode) : Prop :=
  match l with
  | [] => True
  | n :: l' =>
      (Dict.has (g_parent n) g = true -> In (g_parent n) seen)
      /\ parents_before g (g_name n :: seen) l'
  end.

(** A draw of [Math.random]: a number from 0 up to, but not including,
    1. *)
Definition unit_draw (d : Q) : Prop := 0 <= d /\ d < 1.

(** A fraction as [createRandomSpecimenFromBreaks] and the branch-adding
    event draw it: from 0.1 up to, but not including, 0.9. *)
Definition fresh_fraction (v : Q) : Prop := (1 # 10) <= v /\ v < (9 # 10).


End Shape.

(** ** The SVG output (helpers.js, diagram.js, cost.js) *)

Module Svg.
Import Diagram Cost.
#[local] Open Scope string_scope.



Section Svg.
Variable Number_toString : Q -> string.







End Svg.
End Svg.

(** * Properties *)

(** ** [binarySearch] *)

Section BinarySearchFacts.
Import Helpers.
Context {T : Type}.
Variable trans : T -> Q.

Local Abbreviation sorted_by := (Helpers.sorted_by trans).

Lemma Math_round_half (d : Z) :
  Math_round (inject_Z d / 2) = ((d + 1) / 2)%Z.
Proof.
  unfold Math_round.
  assert (E : inject_Z d / 2 + (1 # 2) == (d + 1) # 2).
  { unfold Qeq, Qdiv, Qplus, Qmult, Qinv, inject_Z; simpl. lia. }
  rewrite (Qfloor_comp _ _ E). reflexivity.
Qed.

Lemma at_index_Some (arr : list T) (i : Z) :
  (0 <= i < Z.of_nat (List.length arr))%Z -> exists e, at_index arr i = Some e.
Proof.
  intros H. unfold at_index.
  destruct (Z.ltb_spec i 0); [lia|].
  destruct (nth_error arr (Z.to_nat i)) eqn:E; [eauto|].
  apply nth_error_None in E. lia.
Qed.

Lemma at_index_range (arr : list T) (i : Z) (e : T) :
  at_index arr i = Some e -> (0 <= i < Z.of_nat (List.length arr))%Z.
Proof.
  unfold at_index. destruct (Z.ltb_spec i 0); [discriminate|].
  intros E. assert (Z.to_nat i < List.length arr)%nat.
  { apply nth_error_Some. congruence. }
  lia.
Qed.

Lemma at_index_In (arr : list T) (i : Z) (e : T) :
  at_index arr i = Some e -> In e arr.
Proof.
  unfold at_index. destruct (i <? 0)%Z; [discriminate|].
  apply nth_error_In.
Qed.

Lemma In_at_index (arr : list T) (e : T) :
  In e arr -> exists i, at_index arr i = Some e.
Proof.
  intros H. apply In_nth_error in H. destruct H as [n H].
  exists (Z.of_nat n). unfold at_index.
  destruct (Z.ltb_spec (Z.of_nat n) 0); [lia|]. now rewrite Nat2Z.id.
Qed.

Lemma at_index_cons (a : T) (arr : list T) (i : Z) :
  (0 < i)%Z -> at_index (a :: arr) i = at_index arr (i - 1).
Proof.
  intros H. unfold at_index.
  destruct (Z.ltb_spec i 0); [lia|].
  destruct (Z.ltb_spec (i - 1) 0); [lia|].
  replace (Z.to_nat i) with (S (Z.to_nat (i - 1))) by lia. reflexivity.
Qed.

Lemma sorted_by_index (arr : list T) :
  sorted_by arr ->
  forall i j a b, (i <= j)%Z ->
    at_index arr i = Some a -> at_index arr j = Some b -> trans a <= trans b.
Proof.
  induction 1 as [|a0 arr S IH F]; intros i j a b Hij Ha Hb.
  - apply at_index_range in Ha. simpl in Ha. lia.
  - pose proof (at_index_range _ _ _ Ha) as Ra.
    destruct (Z.eq_dec i 0) as [->|Hi].
    + assert (a = a0) by (unfold at_index in Ha; simpl in Ha; congruence).
      subst a0.
      destruct (Z.eq_dec j 0) as [->|Hj].
      * assert (b = a) by (unfold at_index in Hb; simpl in Hb; congruence).
        subst. apply Qle_refl.
      * rewrite at_index_cons in Hb by lia.
        apply at_index_In in Hb.
        rewrite Forall_forall in F. now apply F.
    + rewrite at_index_cons in Ha by lia.
      rewrite at_index_cons in Hb by lia.
      apply (IH (i - 1)%Z (j - 1)%Z); auto; lia.
Qed.

(** The loop of the search always ends: the fuel is never used up.  (An
    index between [m] and [M] is an index of the array, so the element read
    is a number.) *)
Lemma search_loop_returns (arr : list T) (x : Q) (fuel : nat) :
  forall m M mid,
    (0 <= m)%Z -> (M < Z.of_nat (List.length arr))%Z ->
    (Z.to_nat (M - m + 1) <= fuel)%nat ->
    search_loop trans fuel arr x m M mid <> None.
Proof.
  induction fuel as [|fuel IH]; intros m M mid Hm HM Hfuel; simpl.
  - destruct (Z.leb_spec m M); [lia|discriminate].
  - destruct (Z.leb_spec m M) as [Hle|Hgt]; [|discriminate].
    rewrite Math_round_half.
    set (mid' := (m + (M - m + 1) / 2)%Z).
    assert (Hmid' : (m <= mid' <= M)%Z).
    { unfold mid'. split.
      - assert (0 <= (M - m + 1) / 2)%Z by (apply Z.div_pos; lia). lia.
      - assert ((M - m + 1) / 2 < M - m + 1)%Z; [|lia].
        apply Z.div_lt_upper_bound; lia. }
    destruct (at_index_Some arr mid') as [e He]; [lia|].
    unfold diff_sign. rewrite He.
    destruct (trans e ?= x); [discriminate| |]; apply IH; lia.
Qed.

(** [binarySearch] returns on every array. *)
Lemma binarySearch_returns (arr : list T) (x : Q) :
  binarySearch trans arr x <> None.
Proof.
  unfold binarySearch, binarySearch_fuel.
  pose proof (search_loop_returns arr x (List.length arr) 0
                (Z.of_nat (List.length arr) - 1) None) as H.
  destruct (search_loop trans (List.length arr) arr x 0
                        (Z.of_nat (List.length arr) - 1) None) as [[k|o]|];
    try discriminate.
  exfalso. apply H; [lia|lia|lia|reflexivity].
Qed.

Section Search.
Variable arr : list T.
Variable x : Q.
Hypothesis arr_sorted : sorted_by arr.

Local Abbreviation len := (Z.of_nat (List.length arr)).

Local Abbreviation below := (Helpers.below trans arr x).
Local Abbreviation above := (Helpers.above trans arr x).
Local Abbreviation loop_post := (Helpers.loop_post trans arr x).

Lemma diff_sign_cases (i : Z) (e : T) :
  at_index arr i = Some e ->
  (diff_sign trans arr i x = Zero /\ trans e == x)
  \/ (diff_sign trans arr i x = Negative /\ trans e < x)
  \/ (diff_sign trans arr i x = Positive /\ x < trans e).
Proof.
  intros E. unfold diff_sign. rewrite E.
  destruct (trans e ?= x) eqn:C.
  - left. split; [reflexivity|]. now apply Qeq_alt.
  - right; left. split; [reflexivity|]. now apply Qlt_alt.
  - right; right. split; [reflexivity|]. now apply Qgt_alt.
Qed.

Lemma search_loop_post (fuel : nat) :
  forall m M mid,
    (0 <= m)%Z -> (M < len)%Z -> (m <= M + 1)%Z ->
    (Z.to_nat (M - m + 1) <= fuel)%nat ->
    below m -> above M ->
    ((m <= M)%Z
     \/ exists k, mid = Some k /\ (0 <= k < len)%Z /\ (k = m - 1 \/ k = m)%Z) ->
    exists r, search_loop trans fuel arr x m M mid = Some r /\ loop_post r.
Proof.
  induction fuel as [|fuel IH]; intros m M mid Hm HM HmM Hfuel Hb Ha Hmid.
  - simpl. destruct (Z.leb_spec m M); [lia|].
    destruct Hmid as [?|(k & -> & Hk & Hk')]; [lia|].
    eexists; split; [reflexivity|]. simpl.
    exists m, k. repeat split; auto; try lia.
    replace (m - 1)%Z with M by lia. exact Ha.
  - simpl. destruct (Z.leb_spec m M) as [Hle|Hgt].
    + rewrite Math_round_half.
      set (mid' := (m + (M - m + 1) / 2)%Z).
      assert (Hmid' : (m <= mid' <= M)%Z).
      { unfold mid'. split.
        - assert (0 <= (M - m + 1) / 2)%Z by (apply Z.div_pos; lia). lia.
        - assert ((M - m + 1) / 2 < M - m + 1)%Z; [|lia].
          apply Z.div_lt_upper_bound; lia. }
      destruct (at_index_Some arr mid') as [e He]; [lia|].
      destruct (diff_sign_cases mid' e He) as [[-> Hx]|[[-> Hx]|[-> Hx]]].
      * eexists; split; [reflexivity|]. simpl. eauto.
      * apply IH; try lia.
        -- intros i e' Hi He'.
           apply Qle_lt_trans with (trans e); auto.
           apply (sorted_by_index arr arr_sorted i mid'); auto; lia.
        -- exact Ha.
        -- destruct (Z_le_gt_dec (mid' + 1) M); [left; lia|].
           right. exists mid'. repeat split; auto; lia.
      * apply IH; try lia.
        -- exact Hb.
        -- intros i e' Hi He'.
           apply Qlt_le_trans with (trans e); auto.
           apply (sorted_by_index arr arr_sorted mid' i); auto; lia.
        -- destruct (Z_le_gt_dec m (mid' - 1)); [left; lia|].
           right. exists mid'. repeat split; auto; lia.
    + destruct Hmid as [?|(k & -> & Hk & Hk')]; [lia|].
      eexists; split; [reflexivity|]. simpl.
      exists m, k. repeat split; auto; try lia.
      replace (m - 1)%Z with M by lia. exact Ha.
Qed.

Lemma not_positive (i : Z) (e : T) :
  at_index arr i = Some e -> trans e <= x ->
  is_positive (diff_sign trans arr i x) = false.
Proof.
  intros E H. destruct (diff_sign_cases i e E) as [[-> _]|[[-> _]|[-> H']]];
    auto.
  exfalso. apply (Qlt_irrefl x). now apply Qlt_le_trans with (trans e).
Qed.

Lemma positive (i : Z) (e : T) :
  at_index arr i = Some e -> x < trans e ->
  is_positive (diff_sign trans arr i x) = true.
Proof.
  intros E H. destruct (diff_sign_cases i e E) as [[-> H']|[[-> H']|[-> _]]];
    auto; exfalso; apply (Qlt_irrefl x).
  - now rewrite <- H' at 2.
  - now apply Qlt_trans with (trans e).
Qed.

(** The search on a sorted array that is not empty returns a number:
    the index of an element equal to [x], or the index that splits
    the array into the elements below [x] and those above it. *)
Lemma binarySearch_cases :
  arr <> [] ->
  exists i,
    binarySearch trans arr x = Some (Idx i)
    /\ (0 <= i <= len)%Z
    /\ ((exists e, at_index arr i = Some e /\ trans e == x)
        \/ (below i /\ above (i - 1))).
Proof.
  unfold Helpers.below, Helpers.above.
  intros Hne.
  assert (Hlen : (0 < len)%Z).
  { destruct arr; [congruence|simpl; lia]. }
  unfold binarySearch, binarySearch_fuel.
  destruct (search_loop_post (List.length arr) 0 (len - 1) None)
    as (r & -> & Hr); try (lia).
  - intros i e Hi He. apply at_index_range in He. lia.
  - intros i e Hi He. apply at_index_range in He. lia.
  - destruct r as [k|o]; simpl in Hr.
    + destruct Hr as (e & He & Hx). exists k.
      pose proof (at_index_range _ _ _ He). split; [reflexivity|].
      split; [lia|]. left; eauto.
    + destruct Hr as (p & k & -> & Hp & Hb & Ha & Hk & Hkp).
      exists p. split; [|split; [exact Hp|right; split; assumption]].
      unfold after_loop. f_equal.
      replace (Z.min (Z.max 0 k) (len - 1)) with k by lia.
      destruct (at_index_Some arr k) as [ek Hek]; [exact Hk|].
      destruct (at_index_Some arr (Z.max 0 (k - 1))) as [e1 He1];
        [lia|].
      destruct Hkp as [Hkp|Hkp]; subst k.
      * rewrite (not_positive _ e1 He1)
          by (apply Qlt_le_weak, (Hb (Z.max 0 (p - 1 - 1))); auto; lia).
        rewrite (not_positive _ ek Hek)
          by (apply Qlt_le_weak, (Hb (p - 1)%Z); auto; lia).
        f_equal; lia.
      * destruct (Z.eq_dec p 0) as [->|Hp0].
        -- change (Z.max 0 (0 - 1)) with 0%Z in *.
           rewrite (positive _ e1 He1); [reflexivity|].
           apply (Ha 0%Z); auto; lia.
        -- rewrite (not_positive _ e1 He1)
             by (apply Qlt_le_weak, (Hb (Z.max 0 (p - 1))); auto; lia).
           rewrite (positive _ ek Hek); [reflexivity|].
           apply (Ha p); auto; lia.
Qed.

End Search.

(** C10.  On an array that is not empty and is sorted in non-decreasing
    order of [trans], [binarySearch(arr, x, trans)] returns an index [i]
    with [0 <= i <= arr.length] such that either [i < arr.length] and
    [trans(arr[i])] is the smallest transformed value that is [>= x], or
    [i = arr.length] and every transformed element is [< x]. *)
Theorem binarySearch_smallest_at_least (arr : list T) (x : Q) :
  arr <> [] ->
  sorted_by arr ->
  exists i,
    binarySearch trans arr x = Some (Idx i)
    /\ (0 <= i <= Z.of_nat (List.length arr))%Z
    /\ ((i < Z.of_nat (List.length arr))%Z
        /\ (exists e, at_index arr i = Some e
                      /\ x <= trans e
                      /\ forall e', In e' arr -> x <= trans e' ->
                                    trans e <= trans e')
        \/ i = Z.of_nat (List.length arr)
           /\ forall e', In e' arr -> trans e' < x).
Proof.
  intros Hne Hs.
  destruct (binarySearch_cases arr x Hs Hne) as (i & E & Hi & H).
  exists i. split; [exact E|]. split; [exact Hi|].
  destruct H as [(e & He & Hx)|[Hb Ha]].
  - left. pose proof (at_index_range _ _ _ He). split; [lia|].
    exists e. split; [exact He|]. split.
    + rewrite Hx. apply Qle_refl.
    + intros e' _ Hx'. now rewrite Hx.
  - destruct (Z.eq_dec i (Z.of_nat (List.length arr))) as [->|Hlt].
    + right. split; [reflexivity|].
      intros e' Hin. destruct (In_at_index _ _ Hin) as [j Hj].
      pose proof (at_index_range _ _ _ Hj). apply (Hb j); auto; lia.
    + left. split; [lia|].
      destruct (at_index_Some arr i) as [e He]; [lia|].
      exists e. split; [exact He|]. split.
      * apply Qlt_le_weak, (Ha i); [lia|exact He].
      * intros e' Hin Hx'. destruct (In_at_index _ _ Hin) as [j Hj].
        destruct (Z_lt_le_dec j i) as [Hji|Hij].
        -- exfalso. apply (Qlt_irrefl x).
           apply Qle_lt_trans with (trans e'); auto. now apply (Hb j).
        -- now apply (sorted_by_index arr Hs i j).
Qed.

End BinarySearchFacts.

(** [binarySearch] on the examples of its documentation. *)
Example binarySearch_doc_1 :
  Helpers.binarySearch (fun y => y) [0; 1; 2; 3; 4] (1 # 2) = Some (Helpers.Idx 1).
Proof. reflexivity. Qed.

Example binarySearch_doc_2 :
  Helpers.binarySearch (fun y => y) [0; 1; 2; 3; 4] 0 = Some (Helpers.Idx 0).
Proof. reflexivity. Qed.

Example binarySearch_doc_3 :
  Helpers.binarySearch (fun y => y) [0; 1; 2; 3; 4] (-1) = Some (Helpers.Idx 0).
Proof. reflexivity. Qed.

Example binarySearch_doc_4 :
  Helpers.binarySearch (fun y => y) [0; 1; 2; 3; 4] 100 = Some (Helpers.Idx 5).
Proof. reflexivity. Qed.

(** ** Dictionaries *)

Section DictFacts.
Context {V : Type}.
Implicit Types (d : Dict.dict V) (k : string) (v : V).

Lemma get_set_same d k v : Dict.get k (Dict.set k v d) = Some v.
Proof.
  induction d as [|[k' v'] d IH]; simpl.
  - now rewrite String.eqb_refl.
  - destruct (String.eqb k k') eqn:E; simpl; rewrite E; auto.
Qed.

Lemma get_set_other d k k' v :
  k' <> k -> Dict.get k' (Dict.set k v d) = Dict.get k' d.
Proof.
  intros N. induction d as [|[k0 v0] d IH]; simpl.
  - destruct (String.eqb_spec k' k); congruence.
  - destruct (String.eqb_spec k k0); simpl.
    + subst k0. destruct (String.eqb_spec k' k); congruence.
    + destruct (String.eqb_spec k' k0); auto.
Qed.

Lemma get_set d k k' v :
  Dict.get k' (Dict.set k v d)
  = if String.eqb k' k then Some v else Dict.get k' d.
Proof.
  destruct (String.eqb_spec k' k) as [->|N].
  - apply get_set_same.
  - now apply get_set_other.
Qed.

End DictFacts.

(** ** Coordinate assignment *)

Section Coordinates.
Import Constants Diagram.

Lemma setUpCoordinates_item root parent p :
  item (setUpCoordinates root parent p) = item root.
Proof. destruct root as [i pt co [] cs]; reflexivity. Qed.

Lemma setUpCoordinates_pointing root parent p :
  pointing (setUpCoordinates root parent p) = p.
Proof. destruct root as [i pt co [] cs]; reflexivity. Qed.

Lemma setUpCoordinates_coordinates root parent p :
  coordinates (setUpCoordinates root parent p)
  = advance (coordinates parent) (getCoordToUpdate (pointing parent))
            (delta root parent * getDirectionToUpdate (pointing parent)).
Proof. destruct root as [i pt co [] cs]; reflexivity. Qed.




End Coordinates.

(** ** Break insertion *)

Section Breaks.
Import Constants Diagram Cost.

(** The break of a node that points RIGHT points UP. *)
Lemma break_of_a_horizontal_node_points_up :
  let g := Examples.captured Examples.comb in
  option_map g_pointing (Dict.get "R" g) = Some POINTING_RIGHT
  /\ option_map g_pointing
       (match introduceBreak g "R" (1 # 2) "b7" with
        | Some g' => Dict.get "b7" g'
        | None => None
        end) = Some POINTING_UP
  /\ POINTING_UP <> POINTING_RIGHT.
Proof. vm_compute. repeat split; discriminate. Qed.

(** What [introduceBreak] records under the name of the break. *)
Lemma introduceBreak_break_node g node break_at name n g' :
  Dict.get node g = Some n ->
  introduceBreak g node break_at name = Some g' ->
  exists children,
    Dict.get name g'
    = Some {| g_name := name;
              g_coordinates := break_coordinates n (g_length n * break_at);
              g_pointing := break_pointing n;
              g_length := g_length n - g_length n * break_at;
              g_parent := node;
              g_children := children;
              g_hidden := true;
              g_branch_at := Some (g_length n * break_at) |}.
Proof.
  intros Hn. unfold introduceBreak. rewrite Hn.
  destruct (distances g n (g_children n)) as [arr|]; [|discriminate].
  destruct (Helpers.binarySearch _ arr _) as [i|]; [|discriminate].
  destruct (splice_last _) as [newChildren node_end].
  destruct (reparent _ name newChildren) as [g1|]; [|discriminate].
  intros [= <-]. exists newChildren. apply get_set_same.
Qed.

(** C4, amended.  The break node that [introduceBreaks] creates for a
    node, as it is recorded in the geometry map, points RIGHT when the
    node is of the vertical class (UP or DOWN) and UP when it is of the
    horizontal class (RIGHT or LEFT): a break turns the branch to the
    other axis. *)
Theorem break_node_orientation g node break_at name n g' :
  Dict.get node g = Some n ->
  introduceBreak g node break_at name = Some g' ->
  exists break_node,
    Dict.get name g' = Some break_node
    /\ (g_pointing n = POINTING_UP \/ g_pointing n = POINTING_DOWN ->
        g_pointing break_node = POINTING_RIGHT)
    /\ (g_pointing n = POINTING_RIGHT \/ g_pointing n = POINTING_LEFT ->
        g_pointing break_node = POINTING_UP).
Proof.
  intros Hn Hg'.
  destruct (introduceBreak_break_node _ _ _ _ _ _ Hn Hg') as [cs E].
  eexists. split; [exact E|]. simpl. unfold break_pointing.
  split; intros [-> | ->]; reflexivity.
Qed.

(** *** Lists split where a search lands *)

Lemma at_index_of_nat {T : Type} (arr : list T) (j : nat) :
  Helpers.at_index arr (Z.of_nat j) = nth_error arr j.
Proof.
  unfold Helpers.at_index.
  destruct (Z.ltb_spec (Z.of_nat j) 0); [lia|]. now rewrite Nat2Z.id.
Qed.

Lemma at_most_one {A : Type} (p : A -> bool) (l : list A) :
  (List.length (filter p l) <= 1)%nat ->
  forall i j a b,
    nth_error l i = Some a -> nth_error l j = Some b ->
    p a = true -> p b = true -> i = j.
Proof.
  induction l as [|c l IH]; intros Hlen i j a b Hi Hj Ha Hb.
  - destruct i; discriminate.
  - simpl in Hlen.
    assert (Hnone : p c = true -> forall k d, nth_error l k = Some d -> p d = false).
    { intros Hc k d Hk. rewrite Hc in Hlen. simpl in Hlen.
      destruct (p d) eqn:Hd; auto.
      assert (In d (filter p l))
        by (apply filter_In; split; [eapply nth_error_In; eauto|auto]).
      destruct (filter p l); [contradiction|simpl in Hlen; lia]. }
    destruct i as [|i], j as [|j]; simpl in Hi, Hj; auto.
    + injection Hi as ->. rewrite (Hnone Ha j b Hj) in Hb. discriminate.
    + injection Hj as ->. rewrite (Hnone Hb i a Hi) in Ha. discriminate.
    + f_equal. apply (IH ltac:(destruct (p c); simpl in Hlen; lia) i j a b); auto.
Qed.

(** A list whose elements fail [p] before position [i] and satisfy it
    from there on is cut at [i] into the two filters. *)
Lemma cut_at_partition {A : Type} (p : A -> bool) (l : list A) :
  forall i,
    (forall j a, (j < i)%nat -> nth_error l j = Some a -> p a = false) ->
    (forall j a, (i <= j)%nat -> nth_error l j = Some a -> p a = true) ->
    firstn i l = filter (fun a => negb (p a)) l /\ skipn i l = filter p l.
Proof.
  induction l as [|c l IH]; intros i Hlo Hhi.
  - now rewrite firstn_nil, skipn_nil.
  - destruct i as [|i].
    + simpl. rewrite (Hhi 0%nat c) by (auto; lia). simpl.
      destruct (IH 0%nat) as [E1 E2].
      * intros j a Hj. lia.
      * intros j a _ Hj. apply (Hhi (S j)); [lia|exact Hj].
      * simpl in E1, E2. rewrite <- E1, <- E2. now destruct l.
    + simpl. rewrite (Hlo 0%nat c) by (auto; lia). simpl.
      destruct (IH i) as [E1 E2].
      * intros j a Hj. apply (Hlo (S j)). lia.
      * intros j a Hj. apply (Hhi (S j)). lia.
      * now rewrite E1, E2.
Qed.

Lemma splice_last_app (l : list ref) (e : ref) :
  splice_last (l ++ [e]) = (l, e).
Proof.
  unfold splice_last. destruct (l ++ [e]) eqn:E.
  - now destruct l.
  - rewrite <- E. now rewrite removelast_last, last_last.
Qed.

(** *** The steps of [introduceBreak] *)

Lemma distances_resolved g n cs :
  Forall (fun c => lookup g c <> None) cs ->
  distances g n cs = Some (map (distance_of g n) cs).
Proof.
  induction 1 as [|c cs Hc _ IH]; simpl; [reflexivity|].
  rewrite IH. unfold distance_of.
  destruct (lookup g c); [reflexivity|congruence].
Qed.

Lemma with_parent_idempotent p n :
  with_parent p (with_parent p n) = with_parent p n.
Proof. reflexivity. Qed.

Lemma reparent_spec p cs :
  forall g,
    Forall (fun c => lookup g c <> None) cs ->
    exists g',
      reparent g p cs = Some g'
      /\ forall k,
          Dict.get k g'
          = if is_key_of cs k then option_map (with_parent p) (Dict.get k g)
            else Dict.get k g.
Proof.
  induction cs as [|c cs IH]; intros g H.
  - exists g. split; reflexivity.
  - inversion H as [|? ? Hc Hcs]; subst. simpl.
    unfold lookup in *.
    destruct (Dict.get (key_of c) g) as [child|] eqn:E; [|congruence].
    destruct (IH (Dict.set (key_of c) (with_parent p child) g)) as (g' & -> & Hg').
    + eapply Forall_impl; [|exact Hcs]. simpl. intros c' Hc'.
      rewrite get_set. destruct (String.eqb _ _); congruence.
    + exists g'. split; [reflexivity|]. intros k. rewrite Hg', get_set.
      unfold is_key_of. simpl. fold (is_key_of cs k).
      destruct (String.eqb_spec k (key_of c)) as [->|N]; simpl.
      * rewrite E. simpl. now destruct (is_key_of cs (key_of c)).
      * reflexivity.
Qed.

Lemma is_key_of_In cs k :
  is_key_of cs k = true <-> In k (map key_of cs).
Proof.
  unfold is_key_of. rewrite existsb_exists, in_map_iff. split.
  - intros (c & Hc & E). apply String.eqb_eq in E. eauto.
  - intros (c & E & Hc). exists c. split; [exact Hc|]. now apply String.eqb_eq.
Qed.

Lemma break_coordinates_advance n l :
  (0 <= g_pointing n < 4)%Z ->
  let c := advance (g_coordinates n) (getCoordToUpdate (g_pointing n))
                   (l * getDirectionToUpdate (g_pointing n)) in
  x (break_coordinates n l) == x c /\ y (break_coordinates n l) == y c.
Proof.
  intros Hp. unfold break_coordinates.
  assert (H : (g_pointing n = 0 \/ g_pointing n = 1
               \/ g_pointing n = 2 \/ g_pointing n = 3)%Z) by lia.
  destruct H as [-> | [-> | [-> | ->]]];
    unfold advance, getCoordToUpdate, getDirectionToUpdate,
      POINTING_RIGHT, POINTING_LEFT, POINTING_DOWN; simpl;
    repeat match goal with
           | |- context [Z.rem ?a ?b] =>
               let v := eval vm_compute in (Z.rem a b) in
               change (Z.rem a b) with v
           end;
    unfold inject_Z; split; ring.
Qed.

Lemma NoDup_map_injective {A B : Type} (f : A -> B) (l : list A) :
  NoDup (map f l) ->
  forall a b, In a l -> In b l -> f a = f b -> a = b.
Proof.
  induction l as [|c l IH]; simpl; intros H a b Ha Hb E; [contradiction|].
  inversion H as [|? ? Hc Hl]; subst.
  destruct Ha as [->|Ha], Hb as [->|Hb]; auto.
  - exfalso. apply Hc. rewrite E. now apply in_map.
  - exfalso. apply Hc. rewrite <- E. now apply in_map.
Qed.

(** The search of [introduceBreak] on sorted distances with at most one
    of them equal to [l] lands on the first child at distance [l] or
    more. *)
Lemma search_lands_on_first g n (cs : list ref) (l : Q) :
  cs <> [] ->
  Helpers.sorted_by (fun d => d) (map (distance_of g n) cs) ->
  (List.length (filter (fun c => Qeq_bool (distance_of g n c) l) cs) <= 1)%nat ->
  exists i : nat,
    Helpers.binarySearch (fun d => d) (map (distance_of g n) cs) l
    = Some (Helpers.Idx (Z.of_nat i))
    /\ (i <= List.length cs)%nat
    /\ (forall j c, (j < i)%nat -> nth_error cs j = Some c ->
                    Qle_bool l (distance_of g n c) = false)
    /\ (forall j c, (i <= j)%nat -> nth_error cs j = Some c ->
                    Qle_bool l (distance_of g n c) = true).
Proof.
  intros Hne Hs Hone.
  set (arr := map (distance_of g n) cs) in *.
  assert (Harr : forall j, nth_error arr j
                           = option_map (distance_of g n) (nth_error cs j))
    by (intros j; apply nth_error_map).
  destruct (binarySearch_cases (fun d => d) arr l Hs) as (i & E & Hi & Hcase).
  { unfold arr. destruct cs; [congruence|discriminate]. }
  assert (Hlen : List.length arr = List.length cs) by apply length_map.
  exists (Z.to_nat i). rewrite Z2Nat.id by lia.
  split; [exact E|]. split; [lia|].
  assert (Hfalse : forall d, d < l -> Qle_bool l d = false).
  { intros d Hd. destruct (Qle_bool l d) eqn:B; auto.
    apply Qle_bool_iff in B. exfalso. apply (Qlt_irrefl d).
    now apply Qlt_le_trans with l. }
  destruct Hcase as [(d & Hd & Hdl)|[Hb Ha]].
  - pose proof (at_index_range _ _ _ Hd) as Hr.
    rewrite <- (Z2Nat.id i) in Hd by lia.
    rewrite at_index_of_nat, Harr in Hd.
    destruct (nth_error cs (Z.to_nat i)) as [ci|] eqn:Hci; [|discriminate].
    injection Hd as Hd.
    split; intros j c Hj Hc.
    + assert (Hle : distance_of g n c <= d).
      { apply (sorted_by_index (fun d => d) arr Hs (Z.of_nat j) (Z.of_nat (Z.to_nat i))).
        - lia.
        - now rewrite at_index_of_nat, Harr, Hc.
        - rewrite at_index_of_nat, Harr, Hci. simpl. now rewrite Hd. }
      destruct (Qle_bool l (distance_of g n c)) eqn:B; auto.
      apply Qle_bool_iff in B. exfalso.
      assert (j = Z.to_nat i); [|lia].
      apply (at_most_one _ cs Hone j (Z.to_nat i) c ci Hc Hci).
      * apply Qeq_bool_iff. apply Qle_antisym; [now rewrite <- Hdl|exact B].
      * apply Qeq_bool_iff. now rewrite Hd.
    + apply Qle_bool_iff. rewrite <- Hdl.
      apply (sorted_by_index (fun d => d) arr Hs (Z.of_nat (Z.to_nat i)) (Z.of_nat j)).
      * lia.
      * rewrite at_index_of_nat, Harr, Hci. simpl. now rewrite Hd.
      * now rewrite at_index_of_nat, Harr, Hc.
  - split; intros j c Hj Hc.
    + apply Hfalse. apply (Hb (Z.of_nat j)); [lia|].
      now rewrite at_index_of_nat, Harr, Hc.
    + apply Qle_bool_iff, Qlt_le_weak. apply (Ha (Z.of_nat j)); [lia|].
      now rewrite at_index_of_nat, Harr, Hc.
Qed.

(** Two branches leave the root of [Examples.crossing] at distance 50.
    Breaking the root at half of its length 100 moves only the second of
    them to the break: the first, also at distance 50, stays a child of
    the root. *)
Lemma a_child_at_the_break_distance_stays :
  let g := Examples.captured Examples.crossing in
  option_map g_children (Dict.get "R" g)
  = Some [Name "A"; Name "B"; Name "R_end"]
  /\ option_map (fun n => map (distance_of g n) (g_children n)) (Dict.get "R" g)
     = Some [50; 50; 100]
  /\ option_map g_length (Dict.get "R" g) = Some 100
  /\ match introduceBreak g "R" (1 # 2) "b7" with
     | Some g' =>
         option_map g_children (Dict.get "b7" g') = Some [Name "B"]
         /\ option_map g_parent (Dict.get "A" g') = Some "R"%string
         /\ option_map g_children (Dict.get "R" g')
            = Some [Name "A"; Name "b7"; Name "R_end"]
     | None => False
     end.
Proof. vm_compute. repeat split; reflexivity. Qed.

(** C2, amended.  A bend-map entry (node [n], fraction [f]) with
    [0 < f < 1], where [n] has the length [L > 0], points in one of the
    four directions and has the children [real ++ [e]], all of them in
    the geometry under different names, [e] being the segment end at
    distance [L]; the distances of the children from [n] do not decrease
    along the list and at most one child is at the distance [L * f]
    exactly.  Then the step succeeds; the length of [n] becomes [L * f];
    a break node of length [L * (1 - f)] is added, at the coordinate of
    [n] advanced by [L * f] along the direction [n] points in; the
    children of the break node are exactly the children in [real] at a
    distance of [L * f] or more, and they get the break node as parent;
    the other children and the segment end [e] keep their parent, and
    [n] keeps them, followed by the break node and, last, [e]. *)
Theorem introduceBreak_splits_children
        (g : geometry_map) (node : string) (f : Q) (b : string)
        (n : gnode) (real : list ref) (e : ref) :
  Dict.get node g = Some n ->
  Dict.get b g = None ->
  g_children n = real ++ [e] ->
  0 < f -> f < 1 -> 0 < g_length n ->
  (0 <= g_pointing n < 4)%Z ->
  Forall (fun c => lookup g c <> None) (g_children n) ->
  NoDup (map key_of (g_children n)) ->
  ~ In node (map key_of (g_children n)) ->
  distance_of g n e == g_length n ->
  Helpers.sorted_by (fun d => d) (map (distance_of g n) (g_children n)) ->
  (List.length
     (filter (fun c => Qeq_bool (distance_of g n c) (g_length n * f))
             (g_children n)) <= 1)%nat ->
  let l := g_length n * f in
  let moved := filter (fun c => Qle_bool l (distance_of g n c)) real in
  let kept := filter (fun c => Qltb (distance_of g n c) l) real in
  exists g' n' break_node,
    introduceBreak g node f b = Some g'
    /\ Dict.get node g' = Some n'
    /\ g_length n' = l
    /\ g_children n' = kept ++ [Name b; e]
    /\ Dict.get b g' = Some break_node
    /\ g_length break_node == g_length n * (1 - f)
    /\ g_parent break_node = node
    /\ x (g_coordinates break_node)
       == x (advance (g_coordinates n) (getCoordToUpdate (g_pointing n))
                     (l * getDirectionToUpdate (g_pointing n)))
    /\ y (g_coordinates break_node)
       == y (advance (g_coordinates n) (getCoordToUpdate (g_pointing n))
                     (l * getDirectionToUpdate (g_pointing n)))
    /\ g_children break_node = moved
    /\ (forall c, In c moved ->
                  exists child, lookup g c = Some child
                                /\ lookup g' c = Some (with_parent b child))
    /\ (forall c, In c kept \/ c = e -> lookup g' c = lookup g c).
Proof.
  intros Hn Hb Hcs Hf0 Hf1 HL Hp Hres Hnd Hself Hend Hs Hone l moved kept.
  set (p := fun c => Qle_bool l (distance_of g n c)).
  assert (Hlt : l < g_length n).
  { unfold l. rewrite <- (Qmult_1_r (g_length n)) at 2.
    rewrite (Qmult_comm (g_length n) f), (Qmult_comm (g_length n) 1).
    now apply Qmult_lt_compat_r. }
  assert (Hpe : p e = true).
  { unfold p. apply Qle_bool_iff. rewrite Hend. now apply Qlt_le_weak. }
  destruct (search_lands_on_first g n (g_children n) l) as (i & E & Hi & Hlo & Hhi);
    auto.
  { rewrite Hcs. now destruct real. }
  (* the search lands before the segment end *)
  assert (Hi' : (i <= List.length real)%nat).
  { destruct (Nat.le_gt_cases i (List.length real)) as [?|Hgt]; auto.
    exfalso. assert (p e = false); [|congruence].
    apply (Hlo (List.length real)); [lia|].
    rewrite Hcs, nth_error_app2, Nat.sub_diag by lia. reflexivity. }
  destruct (cut_at_partition p (g_children n) i Hlo Hhi) as [Efirst Eskip].
  rewrite Hcs, !filter_app in Efirst, Eskip. simpl in Efirst, Eskip.
  rewrite Hpe in Efirst, Eskip. simpl in Efirst.
  rewrite app_nil_r in Efirst. fold moved in Eskip.
  change (filter (fun a => negb (p a)) real) with kept in Efirst.
  (* the geometry after the children are moved *)
  set (n' := {| g_name := g_name n; g_coordinates := g_coordinates n;
                g_pointing := g_pointing n; g_length := l;
                g_parent := g_parent n;
                g_children := kept ++ [Name b; e];
                g_hidden := g_hidden n; g_branch_at := g_branch_at n |}).
  assert (Hin_moved : forall c, In c moved -> In c (g_children n)).
  { intros c Hc. apply filter_In in Hc. rewrite Hcs.
    apply in_or_app. now left. }
  assert (Hkey_node : forall c, In c (g_children n) -> key_of c <> node).
  { intros c Hc <-. apply Hself. now apply in_map. }
  assert (Hkey_b : forall c, In c (g_children n) -> key_of c <> b).
  { intros c Hc <-. rewrite Forall_forall in Hres.
    apply (Hres c Hc). exact Hb. }
  destruct (reparent_spec b moved (Dict.set node n' g)) as (g1 & Eg1 & Hg1).
  { apply Forall_forall. intros c Hc. unfold lookup.
    rewrite get_set_other by (apply Hkey_node, Hin_moved, Hc).
    rewrite Forall_forall in Hres. apply Hres, Hin_moved, Hc. }
  assert (Hnode_b : node <> b) by congruence.
  exists (Dict.set b
            {| g_name := b; g_coordinates := break_coordinates n l;
               g_pointing := break_pointing n;
               g_length := g_length n - l; g_parent := node;
               g_children := moved; g_hidden := true;
               g_branch_at := Some l |} g1), n'.
  eexists. split.
  { unfold introduceBreak. rewrite Hn.
    rewrite (distances_resolved g n _ Hres). fold l. rewrite E.
    assert (Hstart : splice_start (Helpers.Idx (Z.of_nat i))
                                  (List.length (g_children n)) = i).
    { unfold splice_start. destruct (Z.ltb_spec (Z.of_nat i) 0); [lia|].
      rewrite Nat2Z.id. lia. }
    rewrite Hstart, Hcs, Efirst, Eskip.
    rewrite splice_last_app. change (filter p real) with moved.
    unfold n' in Eg1. rewrite Eg1. reflexivity. }
  assert (Hnot_moved : forall c, In c kept \/ c = e ->
                                 is_key_of moved (key_of c) = false).
  { intros c Hc. destruct (is_key_of moved (key_of c)) eqn:K; auto.
    exfalso. apply is_key_of_In, in_map_iff in K.
    destruct K as (c' & Ek & Hc').
    assert (Hc'' : In c (g_children n)).
    { rewrite Hcs. apply in_or_app.
      destruct Hc as [Hc| ->]; [left|right; now left].
      now apply filter_In in Hc. }
    assert (c' = c)
      by (apply (NoDup_map_injective key_of _ Hnd); auto).
    subst c'. destruct Hc as [Hc| ->].
    - apply filter_In in Hc. apply filter_In in Hc'.
      destruct Hc as [_ Hc], Hc' as [_ Hc']. unfold Qltb in Hc.
      rewrite Hc' in Hc. discriminate.
    - apply filter_In in Hc'. destruct Hc' as [Hc' _].
      rewrite Hcs, map_app in Hnd. simpl in Hnd.
      apply NoDup_remove_2 in Hnd. apply Hnd.
      rewrite app_nil_r. now apply in_map. }
  split; [|split; [reflexivity|split; [reflexivity|]]].
  { rewrite get_set_other by exact Hnode_b.
    rewrite Hg1.
    destruct (is_key_of moved node) eqn:K.
    + exfalso. apply is_key_of_In, in_map_iff in K.
      destruct K as (c & Ek & Hc). apply (Hkey_node c); auto.
    + apply get_set_same. }
  split; [apply get_set_same|].
  split; [simpl; unfold l; ring|].
  split; [reflexivity|].
  split; [apply (break_coordinates_advance n l Hp)|].
  split; [apply (break_coordinates_advance n l Hp)|].
  split; [reflexivity|].
  split.
  - intros c Hc. rewrite Forall_forall in Hres.
    pose proof (Hres c (Hin_moved c Hc)) as Hr. unfold lookup in *.
    destruct (Dict.get (key_of c) g) as [child|] eqn:Ec; [|congruence].
    exists child. split; [reflexivity|].
    rewrite get_set_other by (apply Hkey_b, Hin_moved, Hc).
    rewrite Hg1.
    assert (K : is_key_of moved (key_of c) = true)
      by (apply is_key_of_In; now apply in_map).
    rewrite K, get_set_other by (apply Hkey_node, Hin_moved, Hc).
    now rewrite Ec.
  - intros c Hc.
    assert (Hc' : In c (g_children n)).
    { rewrite Hcs. apply in_or_app.
      destruct Hc as [Hc| ->]; [left|right; now left].
      now apply filter_In in Hc. }
    unfold lookup.
    rewrite get_set_other by (apply Hkey_b, Hc').
    rewrite Hg1, (Hnot_moved c Hc).
    now rewrite get_set_other by (apply Hkey_node, Hc').
Qed.

End Breaks.

(** ** The topological sort *)

Section SortFacts.
Import Diagram Cost.

Lemma get_In {V : Type} (d : Dict.dict V) (k : string) (v : V) :
  Dict.get k d = Some v -> In v (map snd d).
Proof.
  induction d as [|[k' v'] d IH]; simpl; [discriminate|].
  destruct (String.eqb k k'); [intros [= ->]; now left|auto].
Qed.

Lemma filter_length_lt {A : Type} (p q : A -> bool) (l : list A) (a : A) :
  In a l -> p a = true -> q a = false ->
  (forall b, q b = true -> p b = true) ->
  (List.length (filter q l) < List.length (filter p l))%nat.
Proof.
  intros Ha Hp Hq Hqp.
  assert (Hle : forall l', (List.length (filter q l') <= List.length (filter p l'))%nat).
  { induction l' as [|b l' IH]; simpl; [lia|].
    destruct (q b) eqn:Eq; [rewrite (Hqp b Eq); simpl; lia|].
    destruct (p b); simpl; lia. }
  induction l as [|b l IH]; [contradiction|].
  simpl. destruct Ha as [->|Ha].
  - rewrite Hp, Hq. simpl. pose proof (Hle l). lia.
  - specialize (IH Ha). destruct (q b) eqn:Eq.
    + rewrite (Hqp b Eq). simpl. lia.
    + destruct (p b); simpl; lia.
Qed.

Lemma not_added_decreases g added n :
  In n (map snd g) -> is_added added n = false ->
  (not_added g (g_name n :: added) < not_added g added)%nat.
Proof.
  intros Hn Ha. unfold not_added.
  apply filter_length_lt with (a := g_name n).
  - apply nodup_In. now apply in_map.
  - unfold is_added in Ha. now rewrite Ha.
  - simpl. now rewrite String.eqb_refl.
  - intros b. simpl. destruct (String.eqb b (g_name n)); [discriminate|auto].
Qed.

(** The [while] of the sort ends: it adds a new name at every turn. *)
Lemma climb_returns g fuel :
  forall added parent answer,
    In parent (map snd g) ->
    (not_added g added < fuel)%nat ->
    climb fuel g added parent answer <> None.
Proof.
  induction fuel as [|fuel IH]; intros added parent answer Hp Hfuel; [lia|].
  simpl. destruct (is_added added parent) eqn:Ea; [discriminate|].
  destruct (Dict.get (g_parent parent) g) as [gp|] eqn:Eg; [|discriminate].
  apply IH; [now apply get_In in Eg|].
  pose proof (not_added_decreases g added parent Hp Ea). lia.
Qed.

Lemma not_added_bound g added : (not_added g added <= List.length g)%nat.
Proof.
  unfold not_added.
  eapply Nat.le_trans; [apply filter_length_le|].
  eapply Nat.le_trans; [apply NoDup_incl_length|].
  - apply NoDup_nodup.
  - intros a Ha. apply nodup_In in Ha. exact Ha.
  - now rewrite !length_map.
Qed.

(** The sort of [updateFromGeometry] returns on every geometry. *)
Lemma sort_returns g popped :
  forall added, sort g popped added <> None.
Proof.
  induction popped as [|node rest IH]; intros added; cbn [sort];
    [discriminate|].
  destruct (is_added added node); [apply IH|].
  destruct (Dict.get (g_parent node) g) as [parent|] eqn:Eg.
  - pose proof (climb_returns g (S (List.length g)) added parent []
                              (get_In _ _ _ Eg)) as H.
    destruct (climb (S (List.length g)) g added parent []) as [[answer added']|].
    + specialize (IH (g_name node :: added')).
      destruct (sort g rest (g_name node :: added')); [discriminate|congruence].
    + exfalso. apply H; [|reflexivity].
      pose proof (not_added_bound g added). lia.
  - specialize (IH (g_name node :: added)).
    destruct (sort g rest (g_name node :: added)); [discriminate|congruence].
Qed.

End SortFacts.

(** ** The cost *)

Section CostFacts.
Import Diagram Cost.
Variable Number_toString : Q -> string.

Lemma Math_pow_square (n : nat) : Math_pow (INR n) 2 = (INR n ^ 2)%R.
Proof.
  unfold Math_pow. destruct (Req_dec_T (INR n) 0) as [E|N].
  - rewrite E. destruct (Req_dec_T 2 0); lra.
  - replace 2%R with (INR 2) by (simpl; lra).
    apply Rpower_pow. pose proof (pos_INR n). lra.
Qed.

Lemma Math_pow_exp (t e : R) : Math_pow (exp t) e = Rpower (exp t) e.
Proof.
  unfold Math_pow. destruct (Req_dec_T (exp t) 0) as [E|N]; [|reflexivity].
  pose proof (exp_pos t). lra.
Qed.

Lemma introduceBreaks_num_branches self breaks draws self' draws' :
  introduceBreaks self breaks draws = Some (self', draws') ->
  num_branches self' = List.length (Dict.keys breaks).
Proof.
  unfold introduceBreaks, Random.bind, Random.lift, Random.ret, Random.throw.
  simpl.
  destruct (introduceEach (geometry self) breaks draws) as [[g ds]|];
    [|discriminate].
  destruct (updateFromGeometry g) as [u|]; [|discriminate].
  intros [= <- _]. reflexivity.
Qed.

Lemma count_branches_num_branches self breaks :
  num_branches (count_branches self breaks) = List.length (Dict.keys breaks).
Proof. reflexivity. Qed.

Lemma cost_returns self alpha beta gamma pref inter width height :
  intersections Number_toString self = Some inter ->
  getCanvasWidth (tdiagram self) = Some width ->
  getCanvasHeight (tdiagram self) = Some height ->
  ~ height == 0 ->
  ~ Qmin (width / height) pref == 0 ->
  let ar := width / height in
  let ratio_gap := exp (Q2R (Qmax ar pref / Qmin ar pref - 1)) in
  exists c,
    cost Number_toString self alpha beta gamma pref = Some c
    /\ branches_factor c = (INR (num_branches self) ^ 2)%R
    /\ intersection_factor c = IZR inter
    /\ ar_factor c = (ratio_gap - 1)%R
    /\ total c = (Q2R alpha * branches_factor c
                  + Q2R beta * intersection_factor c
                  + Rpower ratio_gap (Q2R gamma) - 1)%R.
Proof.
  intros Hi Hw Hh Hh0 Hmin ar ratio_gap.
  unfold cost. rewrite Hi, Hw, Hh.
  destruct (Qeq_bool height 0) eqn:E1;
    [apply Qeq_bool_iff in E1; contradiction|].
  destruct (Qeq_bool (Qmin (width / height) pref) 0) eqn:E2;
    [apply Qeq_bool_iff in E2; contradiction|].
  eexists. split; [reflexivity|]. simpl.
  unfold Math_exp. rewrite Math_pow_square, Math_pow_exp.
  repeat split; reflexivity.
Qed.

(** C1.  Whenever the intersections are counted and the aspect ratios
    are finite (the canvas has a height and neither ratio is 0), [cost]
    returns [branches_factor = num_branches ^ 2], [intersection_factor =
    intersections()], [ar_factor = ratio_gap - 1] and [total = alpha *
    branches_factor + beta * intersection_factor + ratio_gap ^ gamma - 1],
    where [ratio_gap = exp (max ar pref / min ar pref - 1)] and [ar] is the
    width of the canvas over its height.  And [introduceBreaks(breaks)]
    first sets [num_branches] to the number of keys of [breaks], which is
    its value when the call returns. *)
Theorem cost_formula_and_branch_count :
  (forall self alpha beta gamma pref inter width height,
      intersections Number_toString self = Some inter ->
      getCanvasWidth (tdiagram self) = Some width ->
      getCanvasHeight (tdiagram self) = Some height ->
      ~ height == 0 ->
      ~ Qmin (width / height) pref == 0 ->
      let ar := width / height in
      let ratio_gap := exp (Q2R (Qmax ar pref / Qmin ar pref - 1)) in
      exists c,
        cost Number_toString self alpha beta gamma pref = Some c
        /\ branches_factor c = (INR (num_branches self) ^ 2)%R
        /\ intersection_factor c = IZR inter
        /\ ar_factor c = (ratio_gap - 1)%R
        /\ total c = (Q2R alpha * branches_factor c
                      + Q2R beta * intersection_factor c
                      + Rpower ratio_gap (Q2R gamma) - 1)%R)
  /\ (forall self breaks,
         num_branches (count_branches self breaks)
         = List.length (Dict.keys breaks))
  /\ (forall self breaks draws self' draws',
         introduceBreaks self breaks draws = Some (self', draws') ->
         num_branches self' = List.length (Dict.keys breaks)).
Proof.
  split; [exact cost_returns|].
  split; [exact count_branches_num_branches|exact introduceBreaks_num_branches].
Qed.

End CostFacts.

(** The weights of the optimizer are meant to be positive.  With a
    negative weight the total of a cost is negative: the comb, which
    counts 11 intersections, with [beta = -1] and the other weights 0. *)
Lemma a_negative_weight_gives_a_negative_total :
  exists c,
    Cost.cost Examples.toString (Examples.engine Examples.comb) 0 (-1) 0 1
    = Some c
    /\ Cost.total c = (-11)%R.
Proof.
  destruct (cost_returns Examples.toString (Examples.engine Examples.comb)
                         0 (-1) 0 1 11%Z 100 100)
    as (c & E & Hb & Hi & _ & Ht).
  - vm_compute. reflexivity.
  - vm_compute. reflexivity.
  - vm_compute. reflexivity.
  - vm_compute. discriminate.
  - vm_compute. discriminate.
  - exists c. split; [exact E|]. rewrite Ht, Hi.
    rewrite RMicromega.Q2R_0, Rpower_O by apply exp_pos.
    replace (Q2R (-1)) with (-1)%R by (unfold Q2R; simpl; lra).
    lra.
Qed.

(** ** Selection *)

Section Selection.
Import Drawer.

Lemma reduce_step_is_max (t v : R) :
  (if Rlt_dec t v then v else t) = Rmax t v.
Proof.
  unfold Rmax. destruct (Rlt_dec t v), (Rle_dec t v); lra.
Qed.

Lemma max_total_is_largest p :
  Forall (fun s => cost s <> None) p ->
  forall t, max_total p t = Some (largest_total t p).
Proof.
  induction 1 as [|s p Hs _ IH]; intros t; simpl; [reflexivity|].
  unfold largest_total. simpl. unfold total_of at 2.
  destruct (cost s) as [c|]; [|congruence].
  rewrite reduce_step_is_max. apply IH.
Qed.

Lemma largest_total_floor p : forall t, (t <= largest_total t p)%R.
Proof.
  induction p as [|s p IH]; intros t; simpl; [lra|].
  unfold largest_total. simpl.
  apply Rle_trans with (Rmax t (total_of s)); [apply Rmax_l|apply IH].
Qed.

Lemma largest_total_bounds p :
  forall t s, In s p -> (total_of s <= largest_total t p)%R.
Proof.
  induction p as [|s0 p IH]; intros t s Hs; [destruct Hs|].
  destruct Hs as [->|Hs]; unfold largest_total; simpl.
  - apply Rle_trans with (Rmax t (total_of s)); [apply Rmax_r|].
    apply largest_total_floor.
  - now apply IH.
Qed.

Lemma largest_total_attained p :
  forall t, largest_total t p = t
            \/ exists s, In s p /\ largest_total t p = total_of s.
Proof.
  induction p as [|s0 p IH]; intros t; [now left|].
  unfold largest_total. simpl.
  destruct (IH (Rmax t (total_of s0))) as [E|(s & Hs & E)].
  - unfold largest_total in E. rewrite E.
    unfold Rmax. destruct (Rle_dec t (total_of s0)); [|now left].
    right. exists s0. split; [now left|reflexivity].
  - right. exists s. split; [now right|exact E].
Qed.

Lemma select_filters max p :
  Forall (fun s => cost s <> None) p ->
  forall draws,
    (List.length p <= List.length draws)%nat ->
    select max p draws
    = Some (map fst (filter (survives max) (combine p draws)),
            skipn (List.length p) draws).
Proof.
  induction 1 as [|s p Hs _ IH]; intros draws Hlen; [reflexivity|].
  destruct draws as [|d draws]; [simpl in Hlen; lia|].
  simpl in Hlen. simpl.
  unfold Random.bind, Random.lift, Random.ret, Random.random.
  destruct (cost s) as [c|] eqn:Ec; [|congruence].
  unfold Random.ret. rewrite IH by lia.
  assert (Es : survives max (s, d)
               = if Rlt_dec (Cost.total c) (Q2R d * max) then true else false)
    by (unfold survives, total_of; simpl; now rewrite Ec).
  rewrite Es.
  destruct (Rlt_dec (Cost.total c) (Q2R d * max)); reflexivity.
Qed.

Lemma performSelection_filters p draws :
  Forall (fun s => cost s <> None) p ->
  (List.length p <= List.length draws)%nat ->
  performSelection p draws
  = Some (map fst (filter (survives (largest_total 0 p)) (combine p draws)),
          skipn (List.length p) draws).
Proof.
  intros Hg Hlen. unfold performSelection, Random.bind, Random.lift.
  rewrite (max_total_is_largest p Hg). unfold Random.ret.
  now apply select_filters.
Qed.

(** C5.  On a graded population, with a draw [d_i] for each specimen,
    [performSelection] keeps, in their order, exactly the specimens whose
    total is strictly below [d_i * maxCost]; [maxCost] is the largest
    total of the population, or 0 when no total is above 0. *)
Theorem performSelection_retains (p : list specimen) (draws : list Q) :
  Forall (fun s => cost s <> None) p ->
  (List.length p <= List.length draws)%nat ->
  let maxCost := largest_total 0 p in
  performSelection p draws
  = Some (map fst
              (filter (fun sd => if Rlt_dec (total_of (fst sd))
                                            (Q2R (snd sd) * maxCost)
                                 then true else false)
                      (combine p draws)),
          skipn (List.length p) draws)
  /\ (0 <= maxCost)%R
  /\ (forall s, In s p -> (total_of s <= maxCost)%R)
  /\ (maxCost = 0%R \/ exists s, In s p /\ maxCost = total_of s).
Proof.
  intros Hg Hlen maxCost. split; [|split; [|split]].
  - now apply performSelection_filters.
  - apply largest_total_floor.
  - intros s. apply largest_total_bounds.
  - apply largest_total_attained.
Qed.

(** Only totals that are negative, which weights that are not negative
    never give, escape the selection: a population of them survives
    whole, the floor 0 being above every total. *)
Lemma negative_totals_survive :
  performSelection [Examples.graded (-1)] [1 # 2]
  = Some ([Examples.graded (-1)], [])
  /\ total_of (Examples.graded (-1)) = (-1)%R.
Proof.
  split; [|reflexivity].
  rewrite performSelection_filters;
    [|repeat constructor; discriminate|simpl; lia].
  unfold largest_total. simpl. unfold survives, total_of. simpl.
  destruct (Rlt_dec (-1) (Q2R (1 # 2) * Rmax 0 (-1))) as [_|N]; [reflexivity|].
  exfalso. apply N. unfold Rmax. destruct (Rle_dec 0 (-1)); lra.
Qed.

(** C9.  The weights of the optimizer are positive scalars, and the
    totals of a population it grades are then never negative
    ([cost_not_negative], [graded_totals_not_negative]).  On a graded
    population whose largest total [t] is not negative, for any draws in
    [0, 1), no survivor of [performSelection] has the total [t]; in
    particular a population whose totals are all equal, all 0 included,
    becomes empty. *)
Theorem performSelection_drops_the_maximum
        (p : list specimen) (draws : list Q) (t : R) :
  Forall (fun s => cost s <> None) p ->
  (List.length p <= List.length draws)%nat ->
  Forall (fun d => 0 <= d /\ d < 1) draws ->
  (exists s, In s p /\ total_of s = t) ->
  (forall s, In s p -> (total_of s <= t)%R) ->
  (0 <= t)%R ->
  exists survivors,
    performSelection p draws = Some (survivors, skipn (List.length p) draws)
    /\ (forall s, In s survivors -> In s p /\ total_of s <> t)
    /\ ((forall s, In s p -> total_of s = t) -> survivors = []).
Proof.
  intros Hg Hlen Hd (s0 & Hs0 & Es0) Hmax Ht.
  assert (Emax : largest_total 0 p = t).
  { destruct (largest_total_attained p 0) as [E|(s & Hs & E)].
    - pose proof (largest_total_bounds p 0 s0 Hs0). lra.
    - apply Rle_antisym.
      + rewrite E. now apply Hmax.
      + rewrite <- Es0. now apply largest_total_bounds. }
  eexists. split; [now apply performSelection_filters|]. rewrite Emax.
  assert (Hbelow : forall s d, In (s, d) (filter (survives t) (combine p draws)) ->
                               In s p /\ (total_of s < t)%R).
  { intros s d H. apply filter_In in H. destruct H as [Hin Hsv].
    split; [now apply in_combine_l in Hin|].
    apply in_combine_r in Hin. rewrite Forall_forall in Hd.
    destruct (Hd d Hin) as [_ Hd1].
    unfold survives in Hsv. simpl in Hsv.
    destruct (Rlt_dec (total_of s) (Q2R d * t)) as [L|]; [|discriminate].
    apply Qlt_Rlt in Hd1. rewrite RMicromega.Q2R_1 in Hd1.
    assert (Q2R d * t <= t)%R by nra. lra. }
  split.
  - intros s Hs. apply in_map_iff in Hs. destruct Hs as ([s' d] & <- & H).
    destruct (Hbelow s' d H) as [Hin Hlt]. simpl. split; [exact Hin|lra].
  - intros Hall.
    destruct (filter (survives t) (combine p draws)) as [|[s d] l] eqn:E;
      [reflexivity|].
    exfalso. destruct (Hbelow s d) as [Hin Hlt]; [now left|].
    rewrite (Hall s Hin) in Hlt. lra.
Qed.

End Selection.

(** ** Breeding *)

Section Breeding.
Import Drawer.

Lemma clamp_is_one_tenth (x : Q) : Qmin (1 # 10) (Qmax (9 # 10) x) = 1 # 10.
Proof.
  unfold Qmin, GenericMinMax.gmin.
  destruct (1 # 10 ?= Qmax (9 # 10) x) eqn:C; try reflexivity.
  exfalso. apply Qgt_alt in C.
  pose proof (Q.le_max_l (9 # 10) x) as H.
  apply (Qlt_irrefl (1 # 10)).
  apply Qlt_le_trans with (9 # 10); [reflexivity|].
  apply Qle_trans with (Qmax (9 # 10) x); [exact H|].
  now apply Qlt_le_weak.
Qed.

Lemma mutate_keeps_or_clamps prob breaks :
  forall draws result draws',
    mutate prob breaks draws = Some (result, draws') ->
    Forall2 (fun old new => fst new = fst old
                            /\ (snd new = snd old \/ snd new = 1 # 10))
            breaks result.
Proof.
  induction breaks as [|[k v] breaks IH]; intros draws result draws'; simpl.
  - intros [= <- _]. constructor.
  - unfold Random.bind, Random.random, Random.ret.
    destruct draws as [|d draws]; [discriminate|].
    destruct (Qltb d prob).
    + destruct draws as [|d' draws]; [discriminate|].
      destruct (mutate prob breaks draws) as [[rest ds]|] eqn:E; [|discriminate].
      intros [= <- _]. constructor; [|eapply IH; eauto].
      simpl. split; [reflexivity|right]. apply clamp_is_one_tenth.
    + destruct (mutate prob breaks draws) as [[rest ds]|] eqn:E; [|discriminate].
      intros [= <- _]. constructor; [|eapply IH; eauto].
      simpl. split; [reflexivity|now left].
Qed.

(** C8.  [Math.min(0.1, Math.max(0.9, x))] is 0.1 for every [x]; so a
    fraction that the mutation loop perturbs (its draw is below
    [mutation_prob]) becomes exactly 0.1, whatever it was and whatever
    the perturbation drawn; the loop leaves the other fractions and the
    keys as they are. *)
Theorem mutation_sets_one_tenth :
  (forall x : Q, Qmin (1 # 10) (Qmax (9 # 10) x) = 1 # 10)
  /\ (forall prob k v rest d d' draws,
         Qltb d prob = true ->
         mutate prob ((k, v) :: rest) (d :: d' :: draws)
         = match mutate prob rest draws with
           | Some (rest', draws') => Some ((k, 1 # 10) :: rest', draws')
           | None => None
           end)
  /\ (forall prob breaks draws result draws',
         mutate prob breaks draws = Some (result, draws') ->
         Forall2 (fun old new => fst new = fst old
                                 /\ (snd new = snd old \/ snd new = 1 # 10))
                 breaks result).
Proof.
  split; [exact clamp_is_one_tenth|]. split; [|exact mutate_keeps_or_clamps].
  intros prob k v rest d d' draws Hd. simpl.
  unfold Random.bind, Random.random, Random.ret. rewrite Hd.
  unfold mutated. rewrite clamp_is_one_tenth.
  destruct (mutate prob rest draws) as [[rest' ds]|]; reflexivity.
Qed.

(** C7, as the code behaves.  The branch-removal event consumes a draw
    and hands the bend map on unchanged, with all of its keys: the
    deletion is applied to the array of keys, not to the map.  So for the
    map with the single key A, when the event fires, the map passed to the
    specimen still has the key A. *)
Theorem branch_removal_keeps_every_key :
  (forall breaks d draws,
      remove_branch breaks (d :: draws) = Some (breaks, draws))
  /\ (forall prob breaks d d' draws,
         Qltb d prob = true ->
         with_probability prob remove_branch breaks (d :: d' :: draws)
         = Some (breaks, draws))
  /\ with_probability (3 # 10) remove_branch [("A"%string, 1 # 2)] [0; 0]
     = Some ([("A"%string, 1 # 2)], []).
Proof.
  split; [reflexivity|]. split; [|reflexivity].
  intros prob breaks d d' draws Hd.
  unfold with_probability, Random.bind, Random.random. now rewrite Hd.
Qed.

End Breeding.

(** ** The empty bend map *)

Section EmptyBendMap.
Import Constants Diagram Cost.

(** The direction [updateFromGeometry] gives a node that points LEFT
    under a parent that points UP (a left turn) is ['right'], and so is
    the direction of a node that points RIGHT under such a parent (a right
    turn): the two turns are no longer told apart. *)
Lemma describe_loses_the_left_turn g n p :
  g_parent n <> ""%string ->
  Dict.get (g_parent n) g = Some p ->
  g_pointing p = POINTING_UP ->
  g_pointing n = POINTING_LEFT \/ g_pointing n = POINTING_RIGHT ->
  option_map direction (describe g n) = Some "right"%string.
Proof.
  intros Hne Hp Hup Hn. unfold describe.
  destruct (String.eqb_spec (g_parent n) ""); [contradiction|].
  rewrite Hp, Hup. simpl. destruct Hn as [-> | ->]; reflexivity.
Qed.

(** C6, as the code behaves.  In [Examples.left_left] the node B turns
    left from a branch that points UP, so it points LEFT.  After
    [introduceBreaks({})] it points RIGHT and the end of its segment has
    moved from x = 80 to x = 120: [updateFromGeometry] takes the direction
    of a node from the sign of the difference of the two orientations,
    which is wrong across the step from UP (0) to LEFT (3). *)
Theorem empty_bend_map_turns_a_branch :
  match Cost.new (Diagram.new Examples.left_left) with
  | Some before =>
      match introduceBreaks before [] [] with
      | Some (after, _) =>
          num_branches after = 0%nat
          /\ option_map g_pointing (Dict.get "A" (geometry before))
             = Some POINTING_UP
          /\ option_map g_pointing (Dict.get "B" (geometry before))
             = Some POINTING_LEFT
          /\ option_map g_pointing (Dict.get "B" (geometry after))
             = Some POINTING_RIGHT
          /\ option_map g_coordinates (Dict.get "B_end" (geometry before))
             = Some {| x := 80; y := -50 |}
          /\ option_map g_coordinates (Dict.get "B_end" (geometry after))
             = Some {| x := 120; y := -50 |}
      | None => False
      end
  | None => False
  end.
Proof. vm_compute. repeat split; reflexivity. Qed.

(** The orientation given to a break node at its creation does not
    always last: in [Examples.right_right] the node B points LEFT, its
    break is created pointing UP, and in the geometry that
    [introduceBreaks] leaves, rebuilt by [updateFromGeometry], the break
    points DOWN. *)
Lemma break_of_a_left_node_ends_down :
  let g := Examples.captured Examples.right_right in
  option_map g_pointing (Dict.get "B" g) = Some POINTING_LEFT
  /\ option_map g_pointing
       (match introduceBreak g "B" (1 # 2) "b33333333333" with
        | Some g' => Dict.get "b33333333333" g'
        | None => None
        end) = Some POINTING_UP
  /\ match introduceBreaks (Examples.engine Examples.right_right)
                           [("B"%string, 1 # 2)] [1 # 3] with
     | Some (after, _) =>
         option_map g_pointing (Dict.get "b33333333333" (geometry after))
         = Some POINTING_DOWN
     | None => False
     end.
Proof. vm_compute. repeat split; reflexivity. Qed.

(** The call with the empty bend map also reverses the order of the
    children of a node: on the diagram of example/example.js the children
    of the root come back as 02, 01, 00. *)
Lemma empty_bend_map_reverses_children :
  match Cost.new (Diagram.new Examples.example_js) with
  | Some before =>
      match introduceBreaks before [] [] with
      | Some (after, _) =>
          option_map g_children (Dict.get "0" (geometry before))
          = Some [Name "00"; Name "01"; Name "02"; Name "0_end"]
          /\ option_map g_children (Dict.get "0" (geometry after))
             = Some [Name "02"; Name "01"; Name "00"; Name "0_end"]
      | None => False
      end
  | None => False
  end.
Proof. vm_compute. repeat split; reflexivity. Qed.

End EmptyBendMap.

(** ** The theorems at sample inputs *)

Section SampleInputs.
Import Constants Diagram Cost Drawer.

Ltac sorted_numbers :=
  repeat (constructor; try (intro; discriminate)).

Lemma binarySearch_smallest_at_least_witness :
  exists i,
    Helpers.binarySearch (fun y => y) [0; 1; 2; 3; 4] (1 # 2)
    = Some (Helpers.Idx i)
    /\ (0 <= i <= 5)%Z
    /\ ((i < 5)%Z
        /\ (exists e, Helpers.at_index [0; 1; 2; 3; 4] i = Some e
                      /\ 1 # 2 <= e
                      /\ forall e', In e' [0; 1; 2; 3; 4] -> 1 # 2 <= e' -> e <= e')
        \/ i = 5%Z /\ forall e', In e' [0; 1; 2; 3; 4] -> e' < 1 # 2).
Proof.
  apply (binarySearch_smallest_at_least (fun y => y) [0; 1; 2; 3; 4] (1 # 2)).
  - discriminate.
  - unfold Helpers.sorted_by. sorted_numbers.
Defined.


Lemma break_node_orientation_witness :
  exists g' break_node,
    introduceBreak (Examples.captured Examples.comb) "R" (1 # 2) "b7" = Some g'
    /\ Dict.get "b7" g' = Some break_node
    /\ g_pointing break_node = POINTING_UP.
Proof.
  destruct (Dict.get "R" (Examples.captured Examples.comb)) as [n|] eqn:Hn;
    [|vm_compute in Hn; discriminate].
  destruct (introduceBreak (Examples.captured Examples.comb) "R" (1 # 2) "b7")
    as [g'|] eqn:E; [|vm_compute in E; discriminate].
  destruct (break_node_orientation _ _ _ _ n g' Hn E) as (bn & Hb & _ & Hh).
  exists g', bn. split; [reflexivity|]. split; [exact Hb|].
  apply Hh. left. vm_compute in Hn. injection Hn as <-. reflexivity.
Defined.

Lemma introduceBreak_splits_children_witness :
  exists g' break_node,
    introduceBreak Examples.comb_geometry "R" (1 # 2) "b7" = Some g'
    /\ Dict.get "b7" g' = Some break_node
    /\ g_children break_node = [Name "B"; Name "C"].
Proof.
  destruct (introduceBreak_splits_children
              Examples.comb_geometry "R" (1 # 2) "b7" Examples.comb_root
              [Name "A"; Name "B"; Name "C"] (Name "R_end"))
    as (g' & n' & bn & E & _ & _ & _ & Hb & _ & _ & _ & _ & Hcs & _).
  - vm_compute. reflexivity.
  - vm_compute. reflexivity.
  - vm_compute. reflexivity.
  - vm_compute. reflexivity.
  - vm_compute. reflexivity.
  - vm_compute. reflexivity.
  - simpl. lia.
  - repeat constructor; vm_compute; discriminate.
  - repeat constructor; vm_compute; intuition discriminate.
  - vm_compute. intuition discriminate.
  - vm_compute. reflexivity.
  - unfold Helpers.sorted_by.
    repeat (constructor; try (vm_compute; discriminate)).
  - vm_compute. repeat constructor.
  - exists g', bn. split; [exact E|]. split; [exact Hb|].
    rewrite Hcs. vm_compute. reflexivity.
Defined.

Lemma cost_formula_and_branch_count_witness :
  (exists c,
      Cost.cost Examples.toString (Examples.engine Examples.comb) 5 1 10 1
      = Some c
      /\ branches_factor c = (INR 0 ^ 2)%R
      /\ intersection_factor c = IZR 11
      /\ total c = (Q2R 5 * branches_factor c + Q2R 1 * intersection_factor c
                    + Rpower (exp (Q2R (Qmax (100 / 100) 1 / Qmin (100 / 100) 1 - 1)))
                             (Q2R 10) - 1)%R)
  /\ (exists after,
         option_map fst
           (introduceBreaks (Examples.engine Examples.comb)
                            [("R"%string, 1 # 2); ("B"%string, 1 # 4)]
                            [1 # 3; 1 # 7]) = Some after
         /\ num_branches after = 2%nat).
Proof.
  destruct (cost_formula_and_branch_count Examples.toString)
    as (Hcost & _ & Hnum).
  split.
  - destruct (Hcost (Examples.engine Examples.comb) 5 1 10 1 11%Z 100 100)
      as (c & E & Hb & Hi & _ & Ht).
    + vm_compute. reflexivity.
    + vm_compute. reflexivity.
    + vm_compute. reflexivity.
    + vm_compute. discriminate.
    + vm_compute. discriminate.
    + exists c. split; [exact E|]. split; [exact Hb|]. split; assumption.
  - destruct (introduceBreaks (Examples.engine Examples.comb)
                [("R"%string, 1 # 2); ("B"%string, 1 # 4)] [1 # 3; 1 # 7])
      as [[after rest]|] eqn:E; [|vm_compute in E; discriminate].
    exists after. split; [reflexivity|].
    apply (Hnum _ _ _ _ _ E).
Defined.

Lemma performSelection_retains_witness :
  performSelection
    [Examples.graded 1; Examples.graded 5; Examples.graded 10]
    [1 # 2; 3 # 5; 9 # 10]
  = Some ([Examples.graded 1; Examples.graded 5], []).
Proof.
  destruct (performSelection_retains
              [Examples.graded 1; Examples.graded 5; Examples.graded 10]
              [1 # 2; 3 # 5; 9 # 10]) as [E _].
  - repeat constructor; discriminate.
  - simpl. lia.
  - rewrite E. unfold largest_total. simpl.
    change (total_of (Examples.graded 1)) with 1%R.
    change (total_of (Examples.graded 5)) with 5%R.
    change (total_of (Examples.graded 10)) with 10%R.
    assert (M : Rmax (Rmax (Rmax 0 1) 5) 10 = 10%R).
    { unfold Rmax. repeat (destruct (Rle_dec _ _)); lra. }
    rewrite M.
    destruct (Rlt_dec 1 (Q2R (1 # 2) * 10)) as [_|N];
      [|exfalso; apply N; unfold Q2R; simpl; lra].
    destruct (Rlt_dec 5 (Q2R (3 # 5) * 10)) as [_|N];
      [|exfalso; apply N; unfold Q2R; simpl; lra].
    destruct (Rlt_dec 10 (Q2R (9 # 10) * 10)) as [L|_];
      [exfalso; unfold Q2R in L; simpl in L; lra|].
    reflexivity.
Defined.

Lemma performSelection_drops_the_maximum_witness :
  performSelection [Examples.graded 3; Examples.graded 3] [1 # 2; 0]
  = Some ([], []).
Proof.
  destruct (performSelection_drops_the_maximum
              [Examples.graded 3; Examples.graded 3] [1 # 2; 0] 3)
    as (survivors & E & _ & Hall).
  - repeat constructor; discriminate.
  - simpl. lia.
  - repeat constructor; discriminate.
  - exists (Examples.graded 3). split; [now left|reflexivity].
  - intros s [<-|[<-|[]]]; unfold total_of; simpl; lra.
  - lra.
  - rewrite E, Hall; [reflexivity|].
    intros s [<-|[<-|[]]]; reflexivity.
Defined.

Lemma mutation_sets_one_tenth_witness :
  mutate (1 # 2) [("A"%string, 3 # 10)] [0; 7 # 10]
  = Some ([("A"%string, 1 # 10)], []).
Proof.
  destruct mutation_sets_one_tenth as (_ & H & _).
  rewrite H by reflexivity. reflexivity.
Defined.

End SampleInputs.

(** * Further properties *)

(** ** helpers.js *)

Section ExtendObjs.
Context {V : Type}.
Implicit Types (d acc : Dict.dict V) (k : string) (v : V).

Lemma set_new d k v :
  ~ In k (Dict.keys d) -> Dict.set k v d = d ++ [(k, v)].
Proof.
  induction d as [|[k' v'] d IH]; simpl; intros H; [reflexivity|].
  destruct (String.eqb_spec k k') as [->|N]; [tauto|].
  rewrite IH by tauto. reflexivity.
Qed.

Lemma keys_set_present d k v :
  In k (Dict.keys d) -> Dict.keys (Dict.set k v d) = Dict.keys d.
Proof.
  induction d as [|[k' v'] d IH]; simpl; intros H; [contradiction|].
  destruct (String.eqb_spec k k') as [->|N]; [reflexivity|].
  simpl. f_equal. apply IH. destruct H; congruence.
Qed.

Lemma get_None_iff d k : Dict.get k d = None <-> ~ In k (Dict.keys d).
Proof.
  induction d as [|[k' v'] d IH]; simpl; [tauto|].
  destruct (String.eqb_spec k k') as [->|N].
  - split; [discriminate|tauto].
  - rewrite IH. split; [intros H [E|H']; congruence|tauto].
Qed.

(** Copying the keys of an object one by one into an empty object gives
    the object back. *)
Lemma copy_keys d acc :
  NoDup (Dict.keys (acc ++ d)) ->
  fold_left (fun obj kv => Dict.set (fst kv) (snd kv) obj) d acc = acc ++ d.
Proof.
  revert acc. induction d as [|[k v] d IH]; intros acc H; simpl.
  - now rewrite app_nil_r.
  - rewrite set_new.
    + rewrite IH; rewrite <- app_assoc; [reflexivity|exact H].
    + unfold Dict.keys in *. rewrite map_app in H. simpl in H.
      apply NoDup_remove_2 in H. intros Hin. apply H.
      apply in_or_app. now left.
Qed.

Lemma get_fold_set d :
  NoDup (Dict.keys d) ->
  forall acc k,
    Dict.get k (fold_left (fun obj kv => Dict.set (fst kv) (snd kv) obj) d acc)
    = match Dict.get k d with
      | Some v => Some v
      | None => Dict.get k acc
      end.
Proof.
  induction d as [|[k0 v0] d IH]; intros H acc k; simpl; [reflexivity|].
  inversion H as [|? ? Hk0 Hd]; subst.
  rewrite IH by exact Hd.
  destruct (String.eqb_spec k k0) as [->|N].
  - assert (E : Dict.get k0 d = None) by now apply get_None_iff.
    rewrite E. apply get_set_same.
  - destruct (Dict.get k d); [reflexivity|]. now apply get_set_other.
Qed.

Lemma keys_fold_set d :
  NoDup (Dict.keys d) ->
  forall acc,
    Dict.keys (fold_left (fun obj kv => Dict.set (fst kv) (snd kv) obj) d acc)
    = Dict.keys acc
      ++ filter (fun k => negb (Dict.has k acc)) (Dict.keys d).
Proof.
  induction d as [|[k0 v0] d IH]; intros H acc; simpl.
  - now rewrite app_nil_r.
  - inversion H as [|? ? Hk0 Hd]; subst. rewrite IH by exact Hd.
    assert (Hhas : Dict.has k0 acc
                   = match Dict.get k0 acc with Some _ => true | None => false end)
      by reflexivity.
    rewrite Hhas. clear Hhas. destruct (Dict.get k0 acc) eqn:E; simpl.
    + rewrite keys_set_present
        by (destruct (in_dec string_dec k0 (Dict.keys acc)) as [?|N];
            [assumption|apply get_None_iff in N; congruence]).
      f_equal. apply filter_ext_in. intros k Hk. unfold Dict.has.
      rewrite get_set.
      destruct (String.eqb_spec k k0) as [->|?]; [now rewrite E|reflexivity].
    + apply get_None_iff in E. rewrite set_new by exact E.
      unfold Dict.keys at 1. rewrite map_app, <- app_assoc. simpl.
      f_equal. f_equal. apply filter_ext_in. intros k Hk. unfold Dict.has.
      assert (k <> k0) by (intros ->; contradiction).
      rewrite <- set_new by exact E. now rewrite get_set_other.
Qed.

Lemma has_In_keys d k : Dict.has k d = true <-> In k (Dict.keys d).
Proof.
  unfold Dict.has. pose proof (get_None_iff d k) as H.
  destruct (Dict.get k d).
  - split; [intros _|reflexivity].
    destruct (in_dec string_dec k (Dict.keys d)) as [?|N]; [assumption|].
    apply H in N. discriminate.
  - split; [discriminate|]. intros Hin. exfalso. now apply H.
Qed.

Lemma get_extendObjs (obj1 obj2 : Dict.dict V) k :
  NoDup (Dict.keys obj1) -> NoDup (Dict.keys obj2) ->
  Dict.get k (Dict.extendObjs obj1 obj2)
  = match Dict.get k obj2 with
    | Some v => Some v
    | None => Dict.get k obj1
    end.
Proof.
  intros H1 H2. unfold Dict.extendObjs.
  rewrite (copy_keys obj1 []) by exact H1. simpl. now apply get_fold_set.
Qed.

Lemma keys_extendObjs (obj1 obj2 : Dict.dict V) :
  NoDup (Dict.keys obj1) -> NoDup (Dict.keys obj2) ->
  Dict.keys (Dict.extendObjs obj1 obj2)
  = Dict.keys obj1 ++ filter (fun k => negb (Dict.has k obj1)) (Dict.keys obj2).
Proof.
  intros H1 H2. unfold Dict.extendObjs.
  rewrite (copy_keys obj1 []) by exact H1. simpl. now apply keys_fold_set.
Qed.

Lemma set_NoDup d k v :
  NoDup (Dict.keys d) -> NoDup (Dict.keys (Dict.set k v d)).
Proof.
  intros H. destruct (in_dec string_dec k (Dict.keys d)) as [Hin|N].
  - now rewrite keys_set_present.
  - rewrite set_new by exact N. unfold Dict.keys. rewrite map_app. simpl.
    apply NoDup_app; [exact H|repeat constructor; intros []|].
    intros a Ha [<-|[]]. now apply N.
Qed.

Lemma fold_set_NoDup d :
  forall acc,
    NoDup (Dict.keys acc) ->
    NoDup (Dict.keys
             (fold_left (fun obj kv => Dict.set (fst kv) (snd kv) obj) d acc)).
Proof.
  induction d as [|[k v] d IH]; intros acc H; simpl; [exact H|].
  apply IH. now apply set_NoDup.
Qed.

(** The keys of an object that [extendObjs] returns are all different. *)
Lemma extendObjs_NoDup (obj1 obj2 : Dict.dict V) :
  NoDup (Dict.keys (Dict.extendObjs obj1 obj2)).
Proof.
  unfold Dict.extendObjs. apply fold_set_NoDup, fold_set_NoDup. constructor.
Qed.

Lemma In_keys_extendObjs (obj1 obj2 : Dict.dict V) k :
  NoDup (Dict.keys obj1) -> NoDup (Dict.keys obj2) ->
  In k (Dict.keys (Dict.extendObjs obj1 obj2))
  <-> In k (Dict.keys obj1) \/ In k (Dict.keys obj2).
Proof.
  intros H1 H2. rewrite <- !has_In_keys. unfold Dict.has.
  rewrite get_extendObjs by assumption.
  destruct (Dict.get k obj2), (Dict.get k obj1); intuition discriminate.
Qed.

(** X1.  [extendObjs(obj1, obj2)] is the object its documentation
    describes: a key of [obj2] has the value [obj2] gives it, any other key
    of [obj1] keeps its value, and there are no other keys. *)
Theorem extendObjs_lookup (obj1 obj2 : Dict.dict V) :
  NoDup (Dict.keys obj1) -> NoDup (Dict.keys obj2) ->
  (forall k,
      Dict.get k (Dict.extendObjs obj1 obj2)
      = match Dict.get k obj2 with
        | Some v => Some v
        | None => Dict.get k obj1
        end)
  /\ (forall k,
         In k (Dict.keys (Dict.extendObjs obj1 obj2))
         <-> In k (Dict.keys obj1) \/ In k (Dict.keys obj2)).
Proof.
  intros H1 H2. split.
  - intros k. now apply get_extendObjs.
  - intros k. now apply In_keys_extendObjs.
Qed.

End ExtendObjs.

Lemma extendObjs_lookup_witness :
  Dict.get "b" (Dict.extendObjs [("a"%string, 1%Z); ("b"%string, 2%Z)]
                                [("b"%string, 3%Z); ("c"%string, 4%Z)])
  = Some 3%Z
  /\ Dict.get "a" (Dict.extendObjs [("a"%string, 1%Z); ("b"%string, 2%Z)]
                                   [("b"%string, 3%Z); ("c"%string, 4%Z)])
     = Some 1%Z
  /\ ~ In "d"%string
          (Dict.keys (Dict.extendObjs [("a"%string, 1%Z); ("b"%string, 2%Z)]
                                      [("b"%string, 3%Z); ("c"%string, 4%Z)])).
Proof.
  destruct (extendObjs_lookup [("a"%string, 1%Z); ("b"%string, 2%Z)]
                              [("b"%string, 3%Z); ("c"%string, 4%Z)])
    as [Hget Hkeys].
  - repeat constructor; simpl; intuition discriminate.
  - repeat constructor; simpl; intuition discriminate.
  - split; [rewrite Hget; reflexivity|].
    split; [rewrite Hget; reflexivity|].
    rewrite Hkeys. simpl. intuition discriminate.
Defined.

Section MoreBinarySearch.
Import Helpers.
Context {T : Type}.
Variable trans : T -> Q.

(** However the elements are ordered, the loop of the search leaves with
    an index of the array. *)
Lemma search_loop_in_range (arr : list T) (x : Q) (fuel : nat) :
  forall m M mid r,
    (0 <= m)%Z -> (M < Z.of_nat (List.length arr))%Z ->
    ((m <= M)%Z
     \/ exists k, mid = Some k /\ (0 <= k < Z.of_nat (List.length arr))%Z) ->
    search_loop trans fuel arr x m M mid = Some r ->
    exists k,
      (r = Return k \/ r = Fallthrough (Some k))
      /\ (0 <= k < Z.of_nat (List.length arr))%Z.
Proof.
  induction fuel as [|fuel IH]; intros m M mid r Hm HM Hmid; simpl.
  - destruct (Z.leb_spec m M); [discriminate|]. intros [= <-].
    destruct Hmid as [?|(k & -> & Hk)]; [lia|]. exists k. auto.
  - destruct (Z.leb_spec m M) as [Hle|Hgt].
    + rewrite Math_round_half.
      set (mid' := (m + (M - m + 1) / 2)%Z).
      assert (Hmid' : (m <= mid' <= M)%Z).
      { unfold mid'. split.
        - assert (0 <= (M - m + 1) / 2)%Z by (apply Z.div_pos; lia). lia.
        - assert ((M - m + 1) / 2 < M - m + 1)%Z; [|lia].
          apply Z.div_lt_upper_bound; lia. }
      assert (Hnext : exists k, Some mid' = Some k
                                /\ (0 <= k < Z.of_nat (List.length arr))%Z)
        by (exists mid'; split; [reflexivity|lia]).
      destruct (diff_sign trans arr mid' x).
      * intros [= <-]. exists mid'. split; [now left|lia].
      * apply IH; try lia; now right.
      * apply IH; try lia; now right.
      * apply IH; try lia; now right.
    + intros [= <-]. destruct Hmid as [?|(k & -> & Hk)]; [lia|]. exists k. auto.
Qed.

Lemma binarySearch_is_an_index (arr : list T) (x : Q) :
  arr <> [] ->
  exists i,
    binarySearch trans arr x = Some (Idx i)
    /\ (0 <= i <= Z.of_nat (List.length arr))%Z.
Proof.
  intros Hne.
  assert (Hlen : (0 < Z.of_nat (List.length arr))%Z)
    by (destruct arr; [congruence|simpl; lia]).
  pose proof (binarySearch_returns trans arr x) as Hret.
  unfold binarySearch, binarySearch_fuel in *.
  destruct (search_loop trans (List.length arr) arr x 0
                        (Z.of_nat (List.length arr) - 1) None)
    as [r|] eqn:E; [|congruence].
  apply search_loop_in_range in E; try lia.
  destruct E as (k & [-> | ->] & Hk).
  - exists k. split; [reflexivity|lia].
  - unfold after_loop.
    destruct (is_positive _); [eexists; split; [reflexivity|lia]|].
    destruct (is_positive _); eexists; (split; [reflexivity|lia]).
Qed.

(** X2.  On every array that is not empty, sorted or not, the search
    ends and returns a number between 0 and the length of the array, so
    that a caller can cut the array there. *)
Theorem binarySearch_bounds (arr : list T) (x : Q) :
  arr <> [] ->
  exists i,
    binarySearch trans arr x = Some (Idx i)
    /\ (0 <= i <= Z.of_nat (List.length arr))%Z.
Proof.
  apply binarySearch_is_an_index.
Qed.

(** X3.  When the sorted array holds an element whose transform is [x],
    the search returns the index of such an element. *)
Theorem binarySearch_finds (arr : list T) (x : Q) (e : T) :
  sorted_by trans arr ->
  In e arr -> trans e == x ->
  exists i e',
    binarySearch trans arr x = Some (Idx i)
    /\ at_index arr i = Some e'
    /\ trans e' == x.
Proof.
  intros Hs Hin Hx.
  destruct (binarySearch_cases trans arr x Hs) as (i & E & Hi & Hcase).
  { intros ->. contradiction. }
  destruct Hcase as [(e' & He' & Hx')|[Hb Ha]].
  - exists i, e'. auto.
  - exfalso. destruct (In_at_index _ _ Hin) as [j Hj].
    destruct (Z_lt_le_dec j i) as [Hji|Hij].
    + pose proof (Hb j e Hji Hj) as H. rewrite Hx in H.
      exact (Qlt_irrefl _ H).
    + pose proof (Ha j e ltac:(lia) Hj) as H. rewrite Hx in H.
      exact (Qlt_irrefl _ H).
Qed.

End MoreBinarySearch.

Lemma binarySearch_bounds_witness :
  exists i,
    Helpers.binarySearch (fun y => y) [3; 1; 2] 2 = Some (Helpers.Idx i)
    /\ (0 <= i <= 3)%Z.
Proof.
  apply (binarySearch_bounds (fun y => y) [3; 1; 2] 2). discriminate.
Defined.

Lemma binarySearch_finds_witness :
  exists i e',
    Helpers.binarySearch (fun y => y) [0; 1; 2; 3; 4] 3 = Some (Helpers.Idx i)
    /\ Helpers.at_index [0; 1; 2; 3; 4] i = Some e'
    /\ e' == 3.
Proof.
  apply (binarySearch_finds (fun y => y) [0; 1; 2; 3; 4] 3 3).
  - unfold Helpers.sorted_by. repeat (constructor; try (intro; discriminate)).
  - simpl. tauto.
  - reflexivity.
Defined.

(** ** The geometry map *)

Section GeometryFacts.
Import Diagram Shape.

Lemma tree_induction (P : tree -> Prop) :
  (forall i pt co ea cs, Forall P cs -> P (Tree i pt co ea cs)) ->
  forall t, P t.
Proof.
  intros H. fix IH 1. intros [i pt co ea cs]. apply H.
  induction cs as [|c cs IHcs]; constructor; [apply IH|exact IHcs].
Qed.

Local Abbreviation merge :=
  (fold_left (fun total child : geometry_map => Dict.extendObjs total child)).

Lemma merge_NoDup (gs : list geometry_map) :
  forall acc, NoDup (Dict.keys acc) -> NoDup (Dict.keys (merge gs acc)).
Proof.
  induction gs as [|g gs IH]; intros acc H; simpl; [exact H|].
  apply IH, extendObjs_NoDup.
Qed.

Lemma merge_get (gs : list geometry_map) :
  Forall (fun g => NoDup (Dict.keys g)) gs ->
  forall acc k n,
    NoDup (Dict.keys acc) ->
    Dict.get k (merge gs acc) = Some n ->
    Dict.get k acc = Some n \/ exists g, In g gs /\ Dict.get k g = Some n.
Proof.
  induction 1 as [|g gs Hg _ IH]; intros acc k n Hacc; simpl; [auto|].
  intros E. apply IH in E; [|apply extendObjs_NoDup].
  destruct E as [E|(g' & Hin & E)]; [|right; eauto].
  rewrite get_extendObjs in E by assumption.
  destruct (Dict.get k g) eqn:Eg; [right; exists g; split; [now left|congruence]|].
  now left.
Qed.

Lemma merge_has (gs : list geometry_map) :
  Forall (fun g => NoDup (Dict.keys g)) gs ->
  forall acc k,
    NoDup (Dict.keys acc) ->
    Dict.has k acc = true \/ (exists g, In g gs /\ Dict.has k g = true) ->
    Dict.has k (merge gs acc) = true.
Proof.
  induction 1 as [|g gs Hg _ IH]; intros acc k Hacc; simpl.
  - intros [E|(g & [] & _)]. exact E.
  - intros E. apply IH; [apply extendObjs_NoDup|].
    destruct E as [E|(g' & [<-|Hin] & E)]; [left|left|right; eauto];
      unfold Dict.has in *; rewrite get_extendObjs by assumption.
    + destruct (Dict.get k g); [reflexivity|exact E].
    + destruct (Dict.get k g); [reflexivity|discriminate].
Qed.

Lemma geometry_from_entry i pt co ea cs :
  geometry_from (Tree i pt co ea cs)
  = Dict.extendObjs [(name i, entry_of (Tree i pt co ea cs))]
                    (merge (map geometry_from cs) []).
Proof. reflexivity. Qed.

(** What the recursion of [getGeometry] returns for a tree. *)
Lemma geometry_from_spec :
  forall t,
    NoDup (Dict.keys (geometry_from t))
    /\ hd_error (Dict.keys (geometry_from t)) = Some (name (item t))
    /\ closed (geometry_from t)
    /\ forall k n,
        Dict.get k (geometry_from t) = Some n ->
        exists t', In t' (nodes t) /\ n = entry_of t'.
Proof.
  apply tree_induction. intros i pt co ea cs IH.
  rewrite geometry_from_entry.
  set (t := Tree i pt co ea cs).
  set (G := merge (map geometry_from cs) []).
  assert (Hgs : Forall (fun g => NoDup (Dict.keys g)) (map geometry_from cs)).
  { apply Forall_map. eapply Forall_impl; [|exact IH]. simpl. tauto. }
  assert (HG : NoDup (Dict.keys G)) by (apply merge_NoDup; constructor).
  assert (Hobj : NoDup (Dict.keys [(name i, entry_of t)]))
    by (repeat constructor; intros []).
  assert (Hget : forall k,
             Dict.get k (Dict.extendObjs [(name i, entry_of t)] G)
             = match Dict.get k G with
               | Some v => Some v
               | None => if String.eqb k (name i) then Some (entry_of t)
                         else None
               end)
    by (intros k; now rewrite get_extendObjs).
  assert (Hfrom : forall k n,
             Dict.get k G = Some n ->
             exists c, In c cs /\ Dict.get k (geometry_from c) = Some n).
  { intros k n E. apply merge_get in E; [|exact Hgs|constructor].
    destruct E as [E|(g & Hin & E)]; [discriminate|].
    apply in_map_iff in Hin. destruct Hin as (c & <- & Hc). eauto. }
  assert (Hinto : forall k c,
             In c cs -> Dict.has k (geometry_from c) = true ->
             Dict.has k (Dict.extendObjs [(name i, entry_of t)] G) = true).
  { intros k c Hc E.
    assert (EG : Dict.has k G = true).
    { apply merge_has; [exact Hgs|constructor|].
      right. exists (geometry_from c). split; [now apply in_map|exact E]. }
    unfold Dict.has in *. rewrite Hget.
    destruct (Dict.get k G); [reflexivity|discriminate]. }
  rewrite Forall_forall in IH.
  split; [apply extendObjs_NoDup|]. split; [|split].
  - rewrite keys_extendObjs by assumption. reflexivity.
  - intros k n E. rewrite Hget in E.
    destruct (Dict.get k G) as [v|] eqn:EG.
    + injection E as ->. destruct (Hfrom k n EG) as (c & Hc & Ec).
      destruct (IH c Hc) as (_ & _ & Hclosed & _).
      destruct (Hclosed k n Ec) as [Hname Hch]. split; [exact Hname|].
      intros r Hr. destruct (Hch r Hr) as (s & -> & Hs).
      exists s. split; [reflexivity|]. now apply (Hinto s c).
    + destruct (String.eqb_spec k (name i)) as [->|?]; [|discriminate].
      injection E as <-. split; [reflexivity|].
      intros r Hr. simpl in Hr. apply in_map_iff in Hr.
      destruct Hr as (c & <- & Hc). exists (name (item c)).
      split; [reflexivity|]. apply (Hinto _ c Hc).
      destruct (IH c Hc) as (_ & Hhd & _).
      apply has_In_keys.
      destruct (Dict.keys (geometry_from c)); [discriminate|].
      injection Hhd as ->. now left.
  - intros k n E. rewrite Hget in E.
    destruct (Dict.get k G) as [v|] eqn:EG.
    + injection E as ->. destruct (Hfrom k n EG) as (c & Hc & Ec).
      destruct (IH c Hc) as (_ & _ & _ & Hnodes).
      destruct (Hnodes k n Ec) as (t' & Ht' & ->).
      exists t'. split; [|reflexivity]. right.
      apply in_flat_map. eauto.
    + destruct (String.eqb_spec k (name i)) as [->|?]; [|discriminate].
      injection E as <-. exists t. split; [now left|reflexivity].
Qed.

(** X4.  Whenever [getGeometry] returns, the keys of the map are all
    different, the name of the root is one of them, every entry is stored
    under its own name and describes a node of the tree, and every child
    listed by an entry is the name of an entry of the map: looking up a
    child never fails. *)
Theorem getGeometry_closed (td td' : TDiagram) (g : geometry_map) :
  getGeometry td = Some (g, td') ->
  NoDup (Dict.keys g)
  /\ closed g
  /\ exists root,
      getRoot td' = Some root
      /\ Dict.has (name (item root)) g = true
      /\ forall k n,
          Dict.get k g = Some n ->
          exists t, In t (nodes root) /\ n = entry_of t.
Proof.
  unfold getGeometry.
  destruct (requiresCoordinates td) as [td1|]; [|discriminate].
  destruct (getRoot td1) as [root|] eqn:Er; [|discriminate].
  intros [= <- <-].
  destruct (geometry_from_spec root) as (H1 & H2 & H3 & H4).
  split; [exact H1|]. split; [exact H3|]. exists root.
  split; [exact Er|]. split; [|exact H4].
  apply has_In_keys. destruct (Dict.keys (geometry_from root));
    [discriminate|]. injection H2 as ->. now left.
Qed.

End GeometryFacts.

Lemma getGeometry_closed_witness :
  Shape.closed Examples.comb_geometry.
Proof.
  eapply (getGeometry_closed (Diagram.new Examples.comb)).
  vm_compute. reflexivity.
Defined.

(** ** Every node of a placed tree *)

Section Placement.
Import Constants Diagram Shape.






(** X6.  [computeCoord] fails on a diagram without nodes.  Otherwise it
    places the root so that it points RIGHT, whatever its [direction] and
    its [seq]: at the origin, or, when the root has a [branch_at], that far
    above the origin.  The margins are not touched. *)
Theorem computeCoord_root (td : TDiagram) :
  (tree_of td = [] -> computeCoord td = None)
  /\ forall root,
      getRoot td = Some root ->
      exists td' r,
        computeCoord td = Some td'
        /\ getRoot td' = Some r
        /\ coord_computed td' = true
        /\ margins_top td' = margins_top td
        /\ margins_left td' = margins_left td
        /\ item r = item root
        /\ pointing r = POINTING_RIGHT
        /\ x (coordinates r) == 0
        /\ y (coordinates r)
           == match branch_at (item root) with
              | Some b => - b
              | None => 0
              end.
Proof.
  unfold getRoot, computeCoord. split; [now intros ->|].
  intros root. destruct (tree_of td) as [|[k r] rest]; [discriminate|].
  intros [= ->]. do 2 eexists. split; [reflexivity|]. cbn [tree_of].
  split; [reflexivity|]. split; [reflexivity|]. split; [reflexivity|].
  split; [reflexivity|]. split; [apply setUpCoordinates_item|].
  split; [apply setUpCoordinates_pointing|].
  rewrite setUpCoordinates_coordinates. unfold delta, dummy_parent.
  cbn [coordinates pointing children item length List.length].
  unfold POINTING_UP, getCoordToUpdate, getDirectionToUpdate, advance, origin.
  simpl. split; [reflexivity|].
  destruct (branch_at (item root)); [ring|].
  unfold Qdiv. ring.
Qed.

End Placement.


Lemma computeCoord_root_witness :
  exists td' r,
    Diagram.computeCoord (Diagram.new Examples.comb) = Some td'
    /\ Diagram.getRoot td' = Some r
    /\ Diagram.pointing r = Constants.POINTING_RIGHT
    /\ Diagram.x (Diagram.coordinates r) == 0
    /\ Diagram.y (Diagram.coordinates r) == 0.
Proof.
  destruct (computeCoord_root (Diagram.new Examples.comb)) as [_ H].
  destruct (H (match Diagram.getRoot (Diagram.new Examples.comb) with
               | Some r => r
               | None => Diagram.fresh (Examples.entry "" "" "" 0 0 None)
               end))
    as (td' & r & E & Hr & _ & _ & _ & _ & Hp & Hx & Hy).
  - vm_compute. reflexivity.
  - exists td', r. auto.
Defined.

(** ** The tree the constructor builds *)

Section Build.
Import Diagram Shape.

Lemma get_delete_other {V : Type} (d : Dict.dict V) (k k' : string) :
  k' <> k -> Dict.get k' (Dict.delete k d) = Dict.get k' d.
Proof.
  intros N. induction d as [|[k0 v0] d IH]; simpl; [reflexivity|].
  destruct (String.eqb_spec k k0) as [->|N0]; simpl.
  - destruct (String.eqb_spec k' k0); [contradiction|reflexivity].
  - now rewrite IH.
Qed.

Lemma keys_delete_last {V : Type} (d : Dict.dict V) (k : string) :
  forall ks,
    Dict.keys d = ks ++ [k] -> ~ In k ks -> Dict.keys (Dict.delete k d) = ks.
Proof.
  induction d as [|[k0 v0] d IH]; intros ks E N; simpl in *.
  - now destruct ks.
  - destruct ks as [|k1 ks]; simpl in E; injection E as -> E.
    + rewrite String.eqb_refl. exact E.
    + destruct (String.eqb_spec k k1) as [->|N1]; [simpl in N; tauto|].
      simpl. f_equal. apply IH; [exact E|]. simpl in N. tauto.
Qed.

Local Abbreviation keyed :=
  (map (fun i : node => (name i, fresh i))).

Local Abbreviation attach :=
  (fun (i : node) (t : Dict.dict tree) =>
     match Dict.get (parent i) t with
     | Some p =>
         let self := match Dict.get (name i) t with
                     | Some s => s
                     | None => fresh i
                     end in
         Dict.delete (name i) (Dict.set (parent i) (add_first_child self p) t)
     | None => t
     end).

Local Abbreviation child_names :=
  (fun v : tree => map (fun c => name (item c)) (children v)).

Lemma keyed_fold (diagram : list node) :
  forall acc : Dict.dict tree,
    NoDup (Dict.keys acc ++ map name diagram) ->
    fold_left (fun t i => Dict.set (name i) (fresh i) t) diagram acc
    = acc ++ keyed diagram.
Proof.
  induction diagram as [|i diagram IH]; intros acc H; simpl.
  - now rewrite app_nil_r.
  - rewrite set_new by (apply NoDup_remove_2 in H; intros Hin; apply H;
                        apply in_or_app; now left).
    rewrite IH.
    + now rewrite <- app_assoc.
    + unfold Dict.keys. rewrite map_app, <- app_assoc. exact H.
Qed.

Lemma build_unfold (diagram : list node) :
  NoDup (map name diagram) ->
  build diagram = fold_right attach (keyed diagram) diagram.
Proof.
  intros Hnd. unfold build.
  rewrite (keyed_fold diagram []) by exact Hnd. rewrite app_nil_l.
  pose proof (fold_left_rev_right attach (List.rev diagram) (keyed diagram))
    as H.
  rewrite rev_involutive in H. symmetry. exact H.
Qed.

Lemma get_keyed (diagram : list node) (j : node) :
  NoDup (map name diagram) -> In j diagram ->
  Dict.get (name j) (keyed diagram) = Some (fresh j).
Proof.
  induction diagram as [|i diagram IH]; simpl; intros Hnd Hj; [contradiction|].
  inversion Hnd as [|? ? Hi Hd]; subst.
  destruct (String.eqb_spec (name j) (name i)) as [E|N].
  - destruct Hj as [->|Hj]; [reflexivity|].
    exfalso. apply Hi. rewrite <- E. now apply in_map.
  - destruct Hj as [->|Hj]; [congruence|]. now apply IH.
Qed.

Lemma parents_first_split (items : list node) :
  forall seen pre i post,
    parents_first seen items ->
    items = pre ++ i :: post ->
    In (parent i) (seen ++ map name pre).
Proof.
  induction items as [|a items IH]; intros seen pre i post H E.
  - now destruct pre.
  - destruct H as [Ha H]. destruct pre as [|b pre]; simpl in E; injection E as -> E.
    + simpl. now rewrite app_nil_r.
    + specialize (IH _ _ _ _ H E). rewrite <- app_assoc in IH. exact IH.
Qed.

Lemma unplaced_fresh i : unplaced (fresh i).
Proof. repeat constructor. Qed.

Lemma unplaced_add_first_child s p :
  unplaced s -> unplaced p -> unplaced (add_first_child s p).
Proof.
  destruct p as [i pt co ea cs]. unfold unplaced. simpl.
  intros Hs Hp. inversion Hp as [|? ? Hea Hcs]; subst.
  constructor; [exact Hea|]. apply Forall_app. split; assumption.
Qed.

(** The tree while the items are attached, from the last one backwards:
    once the items [post] are done, the keys left are those of the items
    before them, and each of these has the children found so far. *)
Lemma build_steps (first : node) (rest : list node) :
  NoDup (map name (first :: rest)) ->
  parents_first [name first] rest ->
  forall post pre,
    first :: rest = (first :: pre) ++ post ->
    let t := fold_right attach (keyed (first :: rest)) post in
    Dict.keys t = map name (first :: pre)
    /\ forall j,
        In j (first :: pre) ->
        exists v,
          Dict.get (name j) t = Some v
          /\ item v = j
          /\ unplaced v
          /\ child_names v
             = map name (filter (fun i => String.eqb (parent i) (name j)) post).
Proof.
  intros Hnd Hbfs. induction post as [|i post IH]; intros pre E.
  - rewrite app_nil_r in E. cbn [fold_right]. cbv zeta. rewrite E. split.
    + unfold Dict.keys. now rewrite map_map.
    + intros j Hj. exists (fresh j). rewrite <- E in *.
      split; [now apply get_keyed|].
      split; [reflexivity|]. split; [apply unplaced_fresh|reflexivity].
  - assert (E' : first :: rest = (first :: pre ++ [i]) ++ post)
      by (rewrite E; simpl; now rewrite <- app_assoc).
    specialize (IH (pre ++ [i]) E'). cbv zeta in IH.
    cbn [fold_right]. cbv zeta.
    set (t := fold_right attach (keyed (first :: rest)) post) in *.
    destruct IH as [Hkeys Hall].
    assert (Hnames : NoDup (map name (first :: pre) ++ [name i])).
    { rewrite E' in Hnd. rewrite map_app in Hnd.
      apply NoDup_app_remove_r in Hnd.
      change (first :: pre ++ [i]) with ((first :: pre) ++ [i]) in Hnd.
      now rewrite map_app in Hnd. }
    assert (Hi : ~ In (name i) (map name (first :: pre))).
    { intros Hin. apply NoDup_remove_2 in Hnames.
      apply Hnames. now rewrite app_nil_r. }
    assert (Hinj : forall a b,
               In a (first :: pre ++ [i]) -> In b (first :: pre ++ [i]) ->
               name a = name b -> a = b).
    { apply NoDup_map_injective.
      change (first :: pre ++ [i]) with ((first :: pre) ++ [i]).
      now rewrite map_app. }
    assert (Hparent : In (parent i) (map name (first :: pre))).
    { assert (Er : rest = pre ++ i :: post) by (simpl in E; now injection E).
      exact (parents_first_split rest [name first] pre i post Hbfs Er). }
    apply in_map_iff in Hparent. destruct Hparent as (j0 & Ej0 & Hj0).
    assert (Hj0' : In j0 (first :: pre ++ [i])).
    { change (first :: pre ++ [i]) with ((first :: pre) ++ [i]).
      apply in_or_app. now left. }
    assert (Hi' : In i (first :: pre ++ [i])).
    { change (first :: pre ++ [i]) with ((first :: pre) ++ [i]).
      apply in_or_app. right. now left. }
    destruct (Hall j0 Hj0') as (p & Ep & Hp & Hup & Hcp).
    destruct (Hall i Hi') as (s & Es & Hs & Hus & Hcs).
    rewrite <- Ej0, Ep, Es. rewrite Ej0.
    assert (Hkeys' : Dict.keys t = map name (first :: pre) ++ [name i]).
    { rewrite Hkeys.
      change (first :: pre ++ [i]) with ((first :: pre) ++ [i]).
      now rewrite map_app. }
    split.
    + apply keys_delete_last; [|exact Hi].
      rewrite keys_set_present; [exact Hkeys'|].
      rewrite Hkeys', <- Ej0. apply in_or_app. left. now apply in_map.
    + intros j Hj.
      assert (Hj' : In j (first :: pre ++ [i])).
      { change (first :: pre ++ [i]) with ((first :: pre) ++ [i]).
        apply in_or_app. now left. }
      assert (Hji : name j <> name i).
      { intros Eji. apply Hi. rewrite <- Eji. now apply in_map. }
      rewrite get_delete_other by exact Hji.
      rewrite get_set. cbn [filter].
      destruct (String.eqb_spec (name j) (parent i)) as [Ejp|Njp].
      * assert (j = j0) by (apply Hinj; auto; congruence). subst j0.
        rewrite <- Ejp, String.eqb_refl.
        exists (add_first_child s p). split; [reflexivity|].
        split; [now destruct p|].
        split; [now apply unplaced_add_first_child|].
        destruct p as [ip ptp cop eap csp]. simpl in *.
        now rewrite Hs, Hcp, H.
      * destruct (String.eqb_spec (parent i) (name j)); [congruence|].
        exact (Hall j Hj').
Qed.

(** X7.  Given a list in the order the constructor asks for (names all
    different, the parent of every item after the first named earlier in
    the list, the first item not its own parent), the constructor leaves
    one entry in the tree: the first item, which [getRoot] returns, with
    the items that name it as parent as its children, in the order of the
    list, and with no segment end added yet anywhere in the tree. *)
Theorem build_single_root (first : node) (rest : list node) :
  NoDup (map name (first :: rest)) ->
  parents_first [name first] rest ->
  parent first <> name first ->
  exists root,
    build (first :: rest) = [(name first, root)]
    /\ getRoot (Diagram.new (first :: rest)) = Some root
    /\ item root = first
    /\ unplaced root
    /\ map (fun c => name (item c)) (children root)
       = map name (filter (fun i => String.eqb (parent i) (name first)) rest).
Proof.
  intros Hnd Hbfs Hself.
  destruct (build_steps first rest Hnd Hbfs rest [] eq_refl) as [Hkeys Hall].
  destruct (Hall first (or_introl eq_refl)) as (v & Ev & Hv & Hun & Hcv).
  set (t := fold_right attach (keyed (first :: rest)) rest) in *.
  assert (Et : t = [(name first, v)]).
  { destruct t as [|[k0 v0] [|? ?]]; try discriminate.
    simpl in Hkeys. injection Hkeys as ->. simpl in Ev.
    rewrite String.eqb_refl in Ev. now injection Ev as ->. }
  assert (Eb : build (first :: rest) = [(name first, v)]).
  { rewrite build_unfold by exact Hnd. cbn [fold_right]. fold t.
    rewrite Et. simpl.
    destruct (String.eqb_spec (parent first) (name first)); [contradiction|].
    reflexivity. }
  exists v. split; [exact Eb|].
  split; [unfold getRoot, Diagram.new; simpl tree_of; now rewrite Eb|].
  auto.
Qed.

End Build.

Lemma build_single_root_witness :
  exists root,
    Diagram.build Examples.comb = [("R"%string, root)]
    /\ map (fun c => Diagram.name (Diagram.item c)) (Diagram.children root)
       = ["A"; "B"; "C"]%string.
Proof.
  destruct (build_single_root (Examples.entry "R" "" "right" 100 0 None)
              [ Examples.entry "A" "R" "left" 50 0 None;
                Examples.entry "B" "R" "right" 50 1 None;
                Examples.entry "C" "R" "left" 50 2 None ])
    as (root & Eb & _ & _ & _ & Hc).
  - repeat constructor; simpl; intuition discriminate.
  - simpl. tauto.
  - discriminate.
  - exists root. split; [exact Eb|exact Hc].
Defined.

(** ** The bounds and the canvas *)

Section Bounds.
Import Diagram Shape.

Lemma min_r_fold (c : coords -> Q) (arr : list gnode) :
  forall m,
    exists m',
      fold_left (min_r c) arr (Some m) = Some m'
      /\ m' <= m
      /\ forall n, In n arr -> m' <= c (g_coordinates n).
Proof.
  induction arr as [|a arr IH]; intros m; simpl.
  - exists m. split; [reflexivity|]. split; [apply Qle_refl|intros n []].
  - destruct (IH (Qmin (c (g_coordinates a)) m)) as (m' & E & Hm & Hall).
    exists m'. split; [exact E|]. split.
    + eapply Qle_trans; [exact Hm|apply Q.le_min_r].
    + intros n [<-|Hn]; [|now apply Hall].
      eapply Qle_trans; [exact Hm|apply Q.le_min_l].
Qed.

Lemma max_r_fold (c : coords -> Q) (arr : list gnode) :
  forall m,
    exists m',
      fold_left (max_r c) arr (Some m) = Some m'
      /\ m <= m'
      /\ forall n, In n arr -> c (g_coordinates n) <= m'.
Proof.
  induction arr as [|a arr IH]; intros m; simpl.
  - exists m. split; [reflexivity|]. split; [apply Qle_refl|intros n []].
  - destruct (IH (Qmax (c (g_coordinates a)) m)) as (m' & E & Hm & Hall).
    exists m'. split; [exact E|]. split.
    + eapply Qle_trans; [apply Q.le_max_r|exact Hm].
    + intros n [<-|Hn]; [|now apply Hall].
      eapply Qle_trans; [apply Q.le_max_l|exact Hm].
Qed.

(** The two reductions of [getBounds] along one coordinate, on an array
    that is not empty. *)
Lemma extent (c : coords -> Q) (a : gnode) (arr : list gnode) :
  exists lo hi,
    fold_left (min_r c) (a :: arr) None = Some lo
    /\ fold_left (max_r c) (a :: arr) None = Some hi
    /\ forall n, In n (a :: arr) ->
                 lo <= c (g_coordinates n) /\ c (g_coordinates n) <= hi.
Proof.
  simpl.
  destruct (min_r_fold c arr (c (g_coordinates a))) as (lo & E1 & H1 & A1).
  destruct (max_r_fold c arr (c (g_coordinates a))) as (hi & E2 & H2 & A2).
  exists lo, hi. split; [exact E1|]. split; [exact E2|].
  intros n [<-|Hn]; auto.
Qed.

Lemma getBounds_returns (td td' : TDiagram) (g : geometry_map) :
  getGeometry td = Some (g, td') ->
  exists b,
    getBounds td = Some b
    /\ forall k n,
        Dict.get k g = Some n ->
        (left b <= x (g_coordinates n) /\ x (g_coordinates n) <= right b)
        /\ (top b <= y (g_coordinates n) /\ y (g_coordinates n) <= bottom b).
Proof.
  intros E. unfold getBounds. rewrite E.
  assert (Hne : map snd g <> []).
  { unfold getGeometry in E.
    destruct (requiresCoordinates td); [|discriminate].
    destruct (getRoot t) as [root|]; [|discriminate].
    injection E as <- _.
    destruct (geometry_from_spec root) as (_ & Hhd & _).
    destruct (geometry_from root); [discriminate|discriminate]. }
  destruct (map snd g) as [|a arr] eqn:Earr; [congruence|].
  destruct (extent x a arr) as (l & r & -> & -> & Hx).
  destruct (extent y a arr) as (t & b & -> & -> & Hy).
  eexists. split; [reflexivity|]. simpl.
  intros k n Hn. apply get_In in Hn. rewrite Earr in Hn. auto.
Qed.

(** X8.  Whenever the geometry can be computed, [getBounds] returns a
    box that holds every node: no node lies left of [left], right of
    [right], above [top] or below [bottom]; so the box is not inverted. *)
Theorem getBounds_box (td td' : TDiagram) (g : geometry_map) :
  getGeometry td = Some (g, td') ->
  exists b,
    getBounds td = Some b
    /\ (forall k n,
           Dict.get k g = Some n ->
           (left b <= x (g_coordinates n) /\ x (g_coordinates n) <= right b)
           /\ (top b <= y (g_coordinates n) /\ y (g_coordinates n) <= bottom b))
    /\ left b <= right b
    /\ top b <= bottom b.
Proof.
  intros E. destruct (getBounds_returns td td' g E) as (b & Eb & Hall).
  exists b. split; [exact Eb|]. split; [exact Hall|].
  assert (Hn : exists k n, Dict.get k g = Some n).
  { unfold getGeometry in E.
    destruct (requiresCoordinates td); [|discriminate].
    destruct (getRoot t) as [root|]; [|discriminate].
    injection E as <- _.
    destruct (geometry_from_spec root) as (_ & Hhd & _).
    destruct (geometry_from root) as [|[k n] rest]; [discriminate|].
    exists k, n. simpl. now rewrite String.eqb_refl. }
  destruct Hn as (k & n & Hn). destruct (Hall k n Hn) as [[? ?] [? ?]].
  split; eapply Qle_trans; eauto.
Qed.

Lemma canvas_sizes (td td' : TDiagram) (g : geometry_map) :
  getGeometry td = Some (g, td') ->
  exists w h,
    getCanvasWidth td = Some w
    /\ getCanvasHeight td = Some h
    /\ 2 * margins_left td <= w
    /\ 2 * margins_top td <= h.
Proof.
  intros E. destruct (getBounds_returns td td' g E) as (b & Eb & Hall).
  assert (Hn : exists k n, Dict.get k g = Some n).
  { unfold getGeometry in E.
    destruct (requiresCoordinates td); [|discriminate].
    destruct (getRoot t) as [root|]; [|discriminate].
    injection E as <- _.
    destruct (geometry_from_spec root) as (_ & Hhd & _).
    destruct (geometry_from root) as [|[k n] rest]; [discriminate|].
    exists k, n. simpl. now rewrite String.eqb_refl. }
  destruct Hn as (k & n & Hn). destruct (Hall k n Hn) as [[? ?] [? ?]].
  unfold getCanvasWidth, getCanvasHeight. rewrite Eb.
  do 2 eexists. split; [reflexivity|]. split; [reflexivity|].
  assert (left b <= right b) by (eapply Qle_trans; eauto).
  assert (top b <= bottom b) by (eapply Qle_trans; eauto).
  split.
  - rewrite <- (Qplus_0_l (2 * margins_left td)) at 1.
    apply Qplus_le_compat; [|apply Qle_refl].
    now apply -> Qle_minus_iff.
  - rewrite <- (Qplus_0_l (2 * margins_top td)) at 1.
    apply Qplus_le_compat; [|apply Qle_refl].
    now apply -> Qle_minus_iff.
Qed.

(** X9.  Whenever the geometry can be computed, the width and the height
    of the canvas are computed too, and they are at least twice the left
    margin and twice the top margin: the drawing itself never has a
    negative extent. *)
Theorem canvas_holds_the_margins (td td' : TDiagram) (g : geometry_map) :
  getGeometry td = Some (g, td') ->
  exists w h,
    getCanvasWidth td = Some w
    /\ getCanvasHeight td = Some h
    /\ 2 * margins_left td <= w
    /\ 2 * margins_top td <= h.
Proof. exact (canvas_sizes td td' g). Qed.

End Bounds.

Lemma getBounds_box_witness :
  exists b,
    Diagram.getBounds (Diagram.new Examples.comb) = Some b
    /\ Diagram.left b <= Diagram.right b
    /\ Diagram.top b <= Diagram.bottom b.
Proof.
  destruct (getBounds_box
              (Diagram.new Examples.comb)
              (match Diagram.computeCoord (Diagram.new Examples.comb) with
               | Some td' => td'
               | None => Diagram.new []
               end)
              Examples.comb_geometry)
    as (b & Eb & _ & Hx & Hy).
  - vm_compute. reflexivity.
  - exists b. auto.
Defined.

Lemma canvas_holds_the_margins_witness :
  exists w h,
    Diagram.getCanvasWidth (Diagram.setMarginLeft 5 (Diagram.new Examples.comb))
    = Some w
    /\ Diagram.getCanvasHeight (Diagram.setMarginLeft 5 (Diagram.new Examples.comb))
       = Some h
    /\ 2 * 5 <= w
    /\ 2 * 0 <= h.
Proof.
  destruct (canvas_holds_the_margins
              (Diagram.setMarginLeft 5 (Diagram.new Examples.comb))
              (match Diagram.computeCoord
                       (Diagram.setMarginLeft 5 (Diagram.new Examples.comb)) with
               | Some td' => td'
               | None => Diagram.new []
               end)
              Examples.comb_geometry)
    as (w & h & Ew & Eh & Hw & Hh).
  - vm_compute. reflexivity.
  - exists w, h. auto.
Defined.

(** ** Breaks on a closed geometry *)

Section MoreBreaks.
Import Diagram Cost Shape.

(** X10.  The name chosen for a break is not a key of the geometry: the
    draws are used up to the first one whose name is free, and every draw
    before it gave a name that was taken. *)
Theorem fresh_break_name_is_fresh (g : geometry_map) (draws : list Q)
        (b : string) (rest : list Q) :
  fresh_break_name g draws = Some (b, rest) ->
  Dict.has b g = false
  /\ exists used d,
      draws = used ++ d :: rest
      /\ b = break_name (Math_round (d * 100000000000))
      /\ Forall (fun d' =>
                   Dict.has (break_name (Math_round (d' * 100000000000))) g
                   = true) used.
Proof.
  induction draws as [|d draws IH]; simpl; [discriminate|].
  destruct (Dict.has (break_name (Math_round (d * 100000000000))) g) eqn:E.
  - intros H. destruct (IH H) as (Hb & used & d' & -> & -> & Hused).
    split; [exact Hb|]. exists (d :: used), d'.
    split; [reflexivity|]. split; [reflexivity|]. now constructor.
  - intros [= <- <-]. split; [exact E|]. exists [], d.
    split; [reflexivity|]. split; [reflexivity|constructor].
Qed.

Lemma keys_reparent p cs :
  forall g g', reparent g p cs = Some g' -> Dict.keys g' = Dict.keys g.
Proof.
  induction cs as [|c cs IH]; intros g g'; simpl.
  - now intros [= <-].
  - unfold lookup. destruct (Dict.get (key_of c) g) as [child|] eqn:E;
      [|discriminate].
    intros H. rewrite (IH _ _ H). apply keys_set_present.
    destruct (in_dec string_dec (key_of c) (Dict.keys g)) as [?|N];
      [assumption|].
    apply get_None_iff in N. congruence.
Qed.

Lemma In_removelast {A : Type} (l : list A) (a : A) :
  In a (removelast l) -> In a l.
Proof.
  induction l as [|b l IH]; simpl; [tauto|].
  destruct l; [intros []|]. intros [->|H]; [now left|right; now apply IH].
Qed.

Lemma In_skipn {A : Type} (k : nat) (l : list A) (a : A) :
  In a (skipn k l) -> In a l.
Proof.
  revert l. induction k as [|k IH]; intros l; simpl; [tauto|].
  destruct l; [tauto|]. intros H. right. now apply IH.
Qed.

Lemma splice_last_In (l : list ref) (c : ref) :
  In c (fst (splice_last l)) -> In c l.
Proof.
  unfold splice_last. destruct l as [|r l]; [intros []|].
  cbn [fst]. apply In_removelast.
Qed.

Lemma closed_lookup g n k c :
  closed g -> Dict.get k g = Some n -> In c (g_children n) ->
  lookup g c <> None.
Proof.
  intros Hc Hn Hin. destruct (Hc k n Hn) as [_ H].
  destruct (H c Hin) as (s & -> & Hs). unfold lookup, Dict.has in *. simpl.
  destruct (Dict.get s g); [discriminate|discriminate].
Qed.

(** What a break does on a closed geometry, whatever the fraction. *)
Lemma introduceBreak_on_closed g node f b n :
  closed g ->
  Dict.get node g = Some n ->
  Dict.get b g = None ->
  exists g' n' br,
    introduceBreak g node f b = Some g'
    /\ Dict.keys g' = Dict.keys g ++ [b]
    /\ Dict.get node g' = Some n'
    /\ Dict.get b g' = Some br
    /\ g_length n' = g_length n * f
    /\ g_length n' + g_length br == g_length n
    /\ (forall c, In c (g_children br) -> In c (g_children n))
    /\ (forall k, k <> node -> k <> b ->
                  ~ In k (map key_of (g_children br)) ->
                  Dict.get k g' = Dict.get k g).
Proof.
  intros Hc Hn Hb.
  assert (Hres : Forall (fun c => lookup g c <> None) (g_children n)).
  { apply Forall_forall. intros c. now apply (closed_lookup g n node). }
  assert (Hnb : node <> b) by congruence.
  unfold introduceBreak. rewrite Hn.
  rewrite (distances_resolved g n _ Hres).
  set (l := g_length n * f).
  destruct (Helpers.binarySearch (fun d => d)
              (map (distance_of g n) (g_children n)) l) as [i|] eqn:Ei;
    [|now apply binarySearch_returns in Ei].
  set (start := splice_start i (List.length (g_children n))).
  pose proof (splice_last_In (skipn start (g_children n))) as Hnew.
  destruct (splice_last (skipn start (g_children n))) as [newChildren node_end].
  simpl fst in Hnew.
  set (n' := {| g_name := g_name n; g_coordinates := g_coordinates n;
                g_pointing := g_pointing n; g_length := l;
                g_parent := g_parent n;
                g_children := firstn start (g_children n)
                              ++ [Name b; node_end];
                g_hidden := g_hidden n; g_branch_at := g_branch_at n |}).
  assert (Hin : forall c, In c newChildren -> In c (g_children n)).
  { intros c H. apply Hnew in H. now apply In_skipn in H. }
  destruct (reparent_spec b newChildren (Dict.set node n' g)) as (g1 & Eg1 & Hg1).
  { apply Forall_forall. intros c H. unfold lookup. rewrite get_set.
    destruct (String.eqb _ _); [discriminate|].
    rewrite Forall_forall in Hres. apply Hres. now apply Hin. }
  rewrite Eg1.
  assert (Hkeys1 : Dict.keys g1 = Dict.keys g).
  { rewrite (keys_reparent _ _ _ _ Eg1). apply keys_set_present.
    destruct (in_dec string_dec node (Dict.keys g)) as [?|N]; [assumption|].
    apply get_None_iff in N. congruence. }
  assert (Hnode1 : exists n1, Dict.get node g1 = Some n1 /\ g_length n1 = l).
  { rewrite Hg1, get_set_same.
    destruct (is_key_of newChildren node); eexists; split; reflexivity. }
  destruct Hnode1 as (n1 & En1 & Hl1).
  do 3 eexists. split; [reflexivity|].
  split.
  { rewrite set_new; [unfold Dict.keys; rewrite map_app; simpl;
                      fold (Dict.keys g1); now rewrite Hkeys1|].
    rewrite Hkeys1. now apply get_None_iff. }
  split; [rewrite get_set_other by exact Hnb; exact En1|].
  split; [apply get_set_same|].
  split; [exact Hl1|].
  split; [rewrite Hl1; simpl; ring|].
  split; [exact Hin|].
  intros k Hk1 Hk2 Hk3. simpl in Hk3.
  rewrite get_set_other by exact Hk2. rewrite Hg1.
  destruct (is_key_of newChildren k) eqn:K;
    [apply is_key_of_In in K; contradiction|].
  now apply get_set_other.
Qed.

(** X11.  On a closed geometry a break can be introduced at every key
    and for every fraction, under every name that is not taken: the
    search ends, every child is found, and no statement throws.  The new
    geometry has the old keys followed by the name of the break; the node
    and the break share the old length of the node between them; the
    children of the break were children of the node; and every entry other
    than the node, the break and these children is left as it was. *)
Theorem introduceBreak_returns (g : geometry_map) (node : string) (f : Q)
        (b : string) (n : gnode) :
  closed g ->
  Dict.get node g = Some n ->
  Dict.get b g = None ->
  exists g' n' br,
    introduceBreak g node f b = Some g'
    /\ Dict.keys g' = Dict.keys g ++ [b]
    /\ Dict.get node g' = Some n'
    /\ Dict.get b g' = Some br
    /\ g_length n' = g_length n * f
    /\ g_length n' + g_length br == g_length n
    /\ (forall c, In c (g_children br) -> In c (g_children n))
    /\ (forall k, k <> node -> k <> b ->
                  ~ In k (map key_of (g_children br)) ->
                  Dict.get k g' = Dict.get k g).
Proof. exact (introduceBreak_on_closed g node f b n). Qed.

End MoreBreaks.

Lemma fresh_break_name_is_fresh_witness :
  Dict.has "b20000000000" Examples.comb_geometry = false.
Proof.
  apply (fresh_break_name_is_fresh Examples.comb_geometry [1 # 5; 1 # 2]
                                   "b20000000000" [1 # 2]).
  vm_compute. reflexivity.
Defined.

Lemma introduceBreak_returns_witness :
  exists g',
    Cost.introduceBreak Examples.comb_geometry "R" (3 # 2) "b7" = Some g'
    /\ Dict.keys g' = Dict.keys Examples.comb_geometry ++ ["b7"%string].
Proof.
  destruct (introduceBreak_returns Examples.comb_geometry "R" (3 # 2) "b7"
                                   Examples.comb_root)
    as (g' & n' & br & E & Hk & _).
  - exact (proj1 (proj2 (proj2 (geometry_from_spec
       (match Diagram.getRoot
                (match Diagram.computeCoord (Diagram.new Examples.comb) with
                 | Some td' => td'
                 | None => Diagram.new []
                 end) with
        | Some r => r
        | None => Diagram.fresh (Examples.entry "" "" "" 0 0 None)
        end))))).
  - vm_compute. reflexivity.
  - vm_compute. reflexivity.
  - exists g'. split; [exact E|exact Hk].
Defined.

(** ** The order of the topological sort *)

Section SortOrder.
Import Diagram Cost Shape.

Variable g : geometry_map.
Variable depth : string -> nat.
Hypothesis names_are_keys :
  forall k n, Dict.get k g = Some n -> g_name n = k.
Hypothesis parents_are_higher :
  forall k n,
    Dict.get k g = Some n -> Dict.has (g_parent n) g = true ->
    (depth (g_parent n) < depth k)%nat.

Lemma is_added_In added n : is_added added n = true <-> In (g_name n) added.
Proof.
  unfold is_added. rewrite existsb_exists. split.
  - intros (k & Hk & E). apply String.eqb_eq in E. now subst.
  - intros H. exists (g_name n). split; [exact H|apply String.eqb_refl].
Qed.

Lemma parents_before_ext seen seen' l :
  (forall k, In k seen -> In k seen') ->
  parents_before g seen l -> parents_before g seen' l.
Proof.
  revert seen seen'. induction l as [|n l IH]; intros seen seen' Hincl; simpl;
    [tauto|].
  intros [H1 H2]. split; [auto|].
  apply (IH (g_name n :: seen)); [|exact H2].
  intros k [->|Hk]; [now left|right; auto].
Qed.

Lemma parents_before_app seen l1 l2 :
  parents_before g seen l1 ->
  parents_before g (List.rev (map g_name l1) ++ seen) l2 ->
  parents_before g seen (l1 ++ l2).
Proof.
  revert seen. induction l1 as [|n l1 IH]; intros seen; simpl; [tauto|].
  intros [H1 H2] H3. split; [exact H1|]. apply IH; [exact H2|].
  now rewrite <- app_assoc in H3.
Qed.

Lemma parents_before_drop k seen l :
  (forall n, In n l -> Dict.has (g_parent n) g = true -> g_parent n <> k) ->
  parents_before g (k :: seen) l -> parents_before g seen l.
Proof.
  revert seen. induction l as [|n l IH]; intros seen Hne; simpl; [tauto|].
  intros [H1 H2]. split.
  - intros Hp. destruct (H1 Hp) as [E|?]; [|assumption].
    exfalso. apply (Hne n); auto. now left.
  - apply IH; [intros n' Hn'; apply Hne; now right|].
    eapply parents_before_ext; [|exact H2].
    intros k' [<-|[<-|?]]; simpl; auto.
Qed.

(** The ancestors that the [while] of the sort collects. *)
Lemma climb_spec fuel :
  forall added parent answer ans added1,
    Dict.get (g_name parent) g = Some parent ->
    climb fuel g added parent answer = Some (ans, added1) ->
    exists chain,
      ans = answer ++ chain
      /\ added1 = List.rev (map g_name chain) ++ added
      /\ (forall c, In c chain ->
                    (depth (g_name c) <= depth (g_name parent))%nat
                    /\ ~ In (g_name c) added
                    /\ Dict.get (g_name c) g = Some c)
      /\ NoDup (map g_name chain)
      /\ parents_before g added (List.rev chain)
      /\ (In (g_name parent) added
          \/ In (g_name parent) (map g_name chain)).
Proof.
  induction fuel as [|fuel IH]; intros added parent answer ans added1 Hp; simpl.
  - destruct (is_added added parent) eqn:Ea; [|discriminate].
    intros [= <- <-]. exists []. rewrite app_nil_r. simpl.
    apply is_added_In in Ea.
    split; [reflexivity|]. split; [reflexivity|]. split; [intros c []|].
    split; [constructor|]. split; [exact I|]. now left.
  - destruct (is_added added parent) eqn:Ea.
    { intros [= <- <-]. exists []. rewrite app_nil_r. simpl.
      apply is_added_In in Ea.
      split; [reflexivity|]. split; [reflexivity|]. split; [intros c []|].
      split; [constructor|]. split; [exact I|]. now left. }
    assert (Hnew : ~ In (g_name parent) added).
    { intros H. apply is_added_In in H. congruence. }
    destruct (Dict.get (g_parent parent) g) as [gp|] eqn:Eg.
    + intros E.
      assert (Hgp : g_name gp = g_parent parent)
        by (apply names_are_keys in Eg; exact Eg).
      assert (Hlt : (depth (g_name gp) < depth (g_name parent))%nat).
      { rewrite Hgp. apply (parents_are_higher _ _ Hp).
        unfold Dict.has. now rewrite Eg. }
      apply IH in E; [|now rewrite Hgp].
      destruct E as (chain & -> & -> & Hall & Hnd & Hord & Hhd).
      exists (parent :: chain). rewrite <- app_assoc. simpl.
      rewrite <- app_assoc. simpl.
      split; [reflexivity|]. split; [reflexivity|].
      assert (Hchain : forall c, In c chain ->
                 (depth (g_name c) < depth (g_name parent))%nat).
      { intros c Hc. destruct (Hall c Hc) as [Hd _]. lia. }
      split; [|split; [|split]].
      * intros c [<-|Hc]; [repeat split; auto|].
        destruct (Hall c Hc) as (Hd & Hn & He).
        split; [lia|]. split; [|exact He]. intros H. apply Hn. now right.
      * constructor; [|exact Hnd]. intros H. apply in_map_iff in H.
        destruct H as (c & Ec & Hc). specialize (Hchain c Hc). rewrite Ec in Hchain. lia.
      * apply parents_before_app.
        -- apply (parents_before_drop (g_name parent)); [|exact Hord].
           intros c Hc Hpar Ecp. apply in_rev in Hc.
           destruct (Hall c Hc) as (_ & _ & He).
           pose proof (parents_are_higher _ _ He Hpar) as H1.
           specialize (Hchain c Hc). rewrite Ecp in H1. lia.
        -- simpl. split; [|exact I]. intros _. rewrite <- Hgp.
           apply in_or_app. rewrite map_rev, rev_involutive.
           destruct Hhd as [[E|H]|H]; [rewrite E in Hlt; lia|now right|now left].
      * right. now left.
    + intros [= <- <-]. exists [parent]. simpl.
      split; [reflexivity|]. split; [reflexivity|]. split; [|split; [|split]].
      * intros c [<-|[]]. repeat split; auto.
      * repeat constructor. intros [].
      * split; [|exact I]. unfold Dict.has. rewrite Eg. discriminate.
      * right. now left.
Qed.

(** The list that the sort returns. *)
Lemma sort_spec popped :
  forall added sorted,
    (forall n, In n popped -> Dict.get (g_name n) g = Some n) ->
    sort g popped added = Some sorted ->
    parents_before g added sorted
    /\ NoDup (map g_name sorted)
    /\ (forall n, In n sorted ->
                  ~ In (g_name n) added /\ Dict.get (g_name n) g = Some n)
    /\ (forall n, In n popped ->
                  In (g_name n) added \/ In (g_name n) (map g_name sorted)).
Proof.
  induction popped as [|node rest IH]; intros added sorted Hpop; cbn [sort].
  - intros [= <-]. simpl. split; [exact I|]. split; [constructor|].
    split; intros n [].
  - assert (Hrest : forall n, In n rest -> Dict.get (g_name n) g = Some n)
      by (intros n Hn; apply Hpop; now right).
    assert (Hnode : Dict.get (g_name node) g = Some node)
      by (apply Hpop; now left).
    destruct (is_added added node) eqn:Ea.
    { intros E. destruct (IH added sorted Hrest E) as (H1 & H2 & H3 & H4).
      split; [exact H1|]. split; [exact H2|]. split; [exact H3|].
      intros n [<-|Hn]; [left; now apply is_added_In|now apply H4]. }
    assert (Hnew : ~ In (g_name node) added).
    { intros H. apply is_added_In in H. congruence. }
    (* the ancestors collected for [node] *)
    assert (Hclimb :
              forall answer added',
                match Dict.get (g_parent node) g with
                | Some parent => climb (S (List.length g)) g added parent []
                | None => Some ([], added)
                end = Some (answer, added') ->
                added' = List.rev (map g_name answer) ++ added
                /\ (forall c, In c answer ->
                              (depth (g_name c) < depth (g_name node))%nat
                              /\ ~ In (g_name c) added
                              /\ Dict.get (g_name c) g = Some c)
                /\ NoDup (map g_name answer)
                /\ parents_before g added (List.rev answer)
                /\ (Dict.has (g_parent node) g = true ->
                    In (g_parent node) added
                    \/ In (g_parent node) (map g_name answer))).
    { intros answer added'.
      destruct (Dict.get (g_parent node) g) as [parent|] eqn:Eg.
      - assert (Hpn : g_name parent = g_parent node)
          by (apply names_are_keys in Eg; exact Eg).
        assert (Hlt : (depth (g_name parent) < depth (g_name node))%nat).
        { rewrite Hpn. apply (parents_are_higher _ _ Hnode).
          unfold Dict.has. now rewrite Eg. }
        intros E. apply climb_spec in E; [|now rewrite Hpn].
        destruct E as (chain & -> & -> & Hall & Hnd & Hord & Hhd).
        simpl. split; [reflexivity|]. split; [|split; [|split]]; auto.
        + intros c Hc. destruct (Hall c Hc) as (Hd & Hn & He).
          split; [lia|auto].
        + intros _. now rewrite <- Hpn.
      - intros [= <- <-]. simpl. split; [reflexivity|].
        split; [intros c []|]. split; [constructor|]. split; [exact I|].
        unfold Dict.has. rewrite Eg. discriminate. }
    destruct (match Dict.get (g_parent node) g with
              | Some parent => climb (S (List.length g)) g added parent []
              | None => Some ([], added)
              end) as [[answer added']|]; [|discriminate].
    destruct (Hclimb answer added' eq_refl) as (-> & Hall & Hnd & Hord & Hpar).
    destruct (sort g rest (g_name node :: List.rev (map g_name answer) ++ added))
      as [sorted'|] eqn:Es; [|discriminate].
    intros [= <-].
    destruct (IH _ _ Hrest Es) as (H1 & H2 & H3 & H4).
    cbn [List.rev].
    assert (Hfront : forall k,
               In k (map g_name (List.rev answer ++ [node]))
               <-> k = g_name node \/ In k (map g_name answer)).
    { intros k. rewrite map_app, in_app_iff, map_rev, <- in_rev. simpl.
      intuition auto. }
    split; [|split; [|split]].
    + apply parents_before_app.
      * apply parents_before_app; [exact Hord|].
        simpl. split; [|exact I]. intros Hp.
        apply in_or_app. rewrite map_rev, rev_involutive.
        destruct (Hpar Hp); [now right|now left].
      * eapply parents_before_ext; [|exact H1].
        intros k Hk. apply in_or_app. rewrite <- in_rev.
        rewrite Hfront. simpl in Hk. rewrite in_app_iff, <- in_rev in Hk.
        intuition auto.
    + rewrite map_app. apply NoDup_app.
      * rewrite map_app, map_rev. simpl. apply NoDup_app.
        -- apply NoDup_rev. exact Hnd.
        -- repeat constructor. intros [].
        -- intros k Hk [<-|[]]. apply in_rev, in_map_iff in Hk.
           destruct Hk as (c & Ec & Hc). destruct (Hall c Hc) as [Hd _].
           rewrite Ec in Hd. lia.
      * exact H2.
      * intros k Hk Hk'. apply in_map_iff in Hk'.
        destruct Hk' as (n & <- & Hn). destruct (H3 n Hn) as [Hno _].
        apply Hno. apply Hfront in Hk. simpl. rewrite in_app_iff, <- in_rev.
        intuition auto.
    + intros n Hn. apply in_app_or in Hn. destruct Hn as [Hn|Hn].
      * apply in_app_or in Hn. destruct Hn as [Hn|[<-|[]]]; [|auto].
        apply in_rev in Hn. destruct (Hall n Hn) as (_ & ? & ?). auto.
      * destruct (H3 n Hn) as [Hno He]. split; [|exact He].
        intros H. apply Hno. right. apply in_or_app. now right.
    + intros n [<-|Hn].
      * right. rewrite map_app. apply in_or_app. left.
        apply Hfront. now left.
      * destruct (H4 n Hn) as [H|H].
        -- simpl in H. rewrite in_app_iff, <- in_rev in H.
           destruct H as [H|[H|H]]; [| |now left];
             right; rewrite map_app; apply in_or_app; left; apply Hfront; auto.
        -- right. rewrite map_app. apply in_or_app. now right.
Qed.

(** X12.  The topological sort of [updateFromGeometry], on a geometry
    whose entries are stored under their names and in which no node is
    its own ancestor ([depth] falls from a node to its parent), given
    entries of the geometry: it returns a list in which every name occurs
    once, every node given is listed, every node listed is an entry, and
    the parent of a node, when the geometry has it, comes before the
    node, which is the order the constructor of [TDiagram] asks for. *)
Theorem sort_lists_parents_first (popped : list gnode) :
  (forall n, In n popped -> Dict.get (g_name n) g = Some n) ->
  exists sorted,
    sort g popped [] = Some sorted
    /\ parents_before g [] sorted
    /\ NoDup (map g_name sorted)
    /\ (forall n, In n popped -> In (g_name n) (map g_name sorted))
    /\ (forall n, In n sorted -> Dict.get (g_name n) g = Some n).
Proof.
  intros Hpop.
  destruct (sort g popped []) as [sorted|] eqn:E;
    [|now apply sort_returns in E].
  destruct (sort_spec popped [] sorted Hpop E) as (H1 & H2 & H3 & H4).
  exists sorted. split; [reflexivity|]. split; [exact H1|]. split; [exact H2|].
  split.
  - intros n Hn. destruct (H4 n Hn) as [[]|H]. exact H.
  - intros n Hn. now apply H3.
Qed.

End SortOrder.

Lemma get_Forall {V : Type} (P : string -> V -> Prop) (d : Dict.dict V) :
  Forall (fun kv => P (fst kv) (snd kv)) d ->
  forall k v, Dict.get k d = Some v -> P k v.
Proof.
  induction 1 as [|[k0 v0] d H0 _ IH]; intros k v; simpl; [discriminate|].
  destruct (String.eqb_spec k k0) as [->|?]; [intros [= <-]; exact H0|apply IH].
Qed.

Lemma sort_lists_parents_first_witness :
  exists sorted,
    Cost.sort Examples.comb_geometry
              (List.rev (map snd (filter (fun kv => negb (Cost.endsWith_end (fst kv)))
                                         Examples.comb_geometry))) []
    = Some sorted
    /\ Shape.parents_before Examples.comb_geometry [] sorted.
Proof.
  destruct (sort_lists_parents_first
              Examples.comb_geometry Examples.comb_depth
              (get_Forall (fun k n => Diagram.g_name n = k)
                 Examples.comb_geometry ltac:(repeat constructor))
              (get_Forall
                 (fun k n =>
                    Dict.has (Diagram.g_parent n) Examples.comb_geometry = true ->
                    (Examples.comb_depth (Diagram.g_parent n)
                     < Examples.comb_depth k)%nat)
                 Examples.comb_geometry
                 ltac:(repeat (apply Forall_cons || apply Forall_nil);
                       vm_compute; intros; try discriminate;
                       repeat constructor))
              (List.rev (map snd (filter (fun kv => negb (Cost.endsWith_end (fst kv)))
                                         Examples.comb_geometry))))
    as (sorted & E & H & _).
  - intros n Hn. vm_compute in Hn.
    repeat (destruct Hn as [<-|Hn]; [reflexivity|]). contradiction.
  - exists sorted. split; [exact E|exact H].
Defined.

(** ** The intersections and the sign of the cost *)

Section Counting.
Import Diagram Cost Shape.
Variable Number_toString : Q -> string.

Local Abbreviation by_start :=
  (StronglySorted (fun a b : Q * Q => fst a <= fst b)).

Lemma insert_sorted_In (a c : Q * Q) (l : list (Q * Q)) :
  In c (insert_sorted fst a l) -> c = a \/ In c l.
Proof.
  induction l as [|b l IH]; simpl.
  - intros [<-|[]]. now left.
  - destruct (Qle_bool (fst b) (fst a)).
    + intros [<-|H]; [right; now left|].
      destruct (IH H); [now left|right; now right].
    + intros [<-|H]; [now left|now right].
Qed.

Lemma insert_sorted_sorted (a : Q * Q) (l : list (Q * Q)) :
  by_start l -> by_start (insert_sorted fst a l).
Proof.
  induction 1 as [|b l Hs IH Hb]; simpl.
  - repeat constructor.
  - destruct (Qle_bool (fst b) (fst a)) eqn:E.
    + constructor; [exact IH|]. apply Forall_forall. intros c Hc.
      apply insert_sorted_In in Hc. destruct Hc as [->|Hc].
      * now apply Qle_bool_iff.
      * rewrite Forall_forall in Hb. now apply Hb.
    + assert (Hab : fst a <= fst b).
      { destruct (Qlt_le_dec (fst a) (fst b)) as [H|H];
          [now apply Qlt_le_weak|].
        apply Qle_bool_iff in H. congruence. }
      constructor; [now constructor|].
      constructor; [exact Hab|].
      eapply Forall_impl; [|exact Hb]. simpl. intros c Hc.
      now apply Qle_trans with (fst b).
Qed.

(** The comparison sort leaves its array in the order of the starts. *)
Lemma sort_by_sorted (l : list (Q * Q)) : by_start (sort_by fst l).
Proof.
  unfold sort_by.
  assert (H : forall acc, by_start acc ->
                          by_start (fold_left (fun sorted a =>
                                                 insert_sorted fst a sorted) l acc)).
  { induction l as [|a l IH]; intros acc Hacc; simpl; [exact Hacc|].
    apply IH. now apply insert_sorted_sorted. }
  apply H. constructor.
Qed.

Lemma overlaps_ahead_counts (segments : list (Q * Q)) (index : Z) (s : Q * Q) :
  by_start segments ->
  (0 <= index < Z.of_nat (List.length segments))%Z ->
  exists c, overlaps_ahead segments index s = Some c /\ (0 <= c)%Z.
Proof.
  intros Hs Hi.
  destruct (binarySearch_cases fst segments (snd s) Hs) as (i & E & Hr & Hcase).
  { intros ->. simpl in Hi. lia. }
  unfold overlaps_ahead. rewrite E.
  destruct (Z.leb_spec i index); [exists 0%Z; split; [reflexivity|lia]|].
  set (len := Z.of_nat (List.length segments)) in *.
  destruct (Z.leb_spec len i) as [Hlen|Hlen].
  - assert (i = len) by lia. subst i.
    destruct (at_index_Some segments (len - 1)) as [seg Eseg]; [lia|].
    rewrite Eseg.
    destruct Hcase as [(e & He & _)|[Hb _]].
    + apply at_index_range in He. fold len in He. lia.
    + assert (Hlt : fst seg < snd s)
        by (apply (Hb (len - 1)%Z); [lia|exact Eseg]).
      unfold Qltb.
      assert (Hle : Qle_bool (fst seg) (snd s) = true)
        by (apply Qle_bool_iff; now apply Qlt_le_weak).
      rewrite Hle. simpl. eexists; split; [reflexivity|lia].
  - destruct (at_index_Some segments i) as [seg Eseg]; [fold len; lia|].
    rewrite Eseg.
    destruct (Qltb (snd s) (fst seg)); eexists; (split; [reflexivity|lia]).
Qed.

Lemma count_group_counts (segments : list (Q * Q)) :
  by_start segments ->
  forall rest index,
    (0 <= index)%Z ->
    (index + Z.of_nat (List.length rest) <= Z.of_nat (List.length segments))%Z ->
    exists c, count_group segments rest index = Some c /\ (0 <= c)%Z.
Proof.
  intros Hs. induction rest as [|s rest IH]; intros index H0 Hlen; simpl.
  - exists 0%Z. split; [reflexivity|lia].
  - simpl List.length in Hlen.
    destruct (overlaps_ahead_counts segments index s Hs) as (c & -> & Hc);
      [lia|].
    destruct (IH (index + 1)%Z) as (t & -> & Ht); [lia|lia|].
    eexists; split; [reflexivity|lia].
Qed.

(** The count along one direction is a number, and not a negative one. *)
Lemma uni_dir_intersections_counts (ps : list projection) :
  exists c,
    uni_dir_intersections Number_toString ps = Some c /\ (0 <= c)%Z.
Proof.
  unfold uni_dir_intersections.
  induction (map snd (group_by_other Number_toString ps)) as [|group groups IH];
    simpl.
  - exists 0%Z. split; [reflexivity|lia].
  - destruct IH as (t & -> & Ht).
    destruct (List.length group =? 1)%nat; [eauto|].
    set (sorted := sort_by fst (map (default_sort Number_toString) group)).
    destruct (count_group_counts sorted (sort_by_sorted _) sorted 0%Z)
      as (c & -> & Hc); [lia|lia|].
    eexists; split; [reflexivity|lia].
Qed.

Lemma getIntersection_counts (set : Dict.dict segment) (s : segment) :
  (0 <= getIntersection set s)%Z.
Proof.
  unfold getIntersection.
  assert (H : forall c, (0 <= c)%Z ->
              (0 <= fold_left
                      (fun count (kv : string * segment) =>
                         let hor := snd kv in
                         if Qle_bool (snd (fst s)) (snd (fst hor))
                            && Qle_bool (snd (fst hor)) (snd (snd s))
                         then (count + 1)%Z else count) set c)%Z).
  { induction set as [|kv set IH]; intros c Hc; simpl; [exact Hc|].
    apply IH. destruct (_ && _); lia. }
  apply H. lia.
Qed.

Lemma perp_intersections_counts (segments : list segment) :
  (0 <= perp_intersections Number_toString segments)%Z.
Proof.
  unfold perp_intersections.
  generalize (sort_by (fun s : segment => fst (fst s))
                      (segments ++ map inverse segments)).
  intros sorted.
  assert (H : forall st : Dict.dict segment * Z,
              (0 <= snd st)%Z ->
              (0 <= snd (fold_left
                           (fun (st : Dict.dict segment * Z) s =>
                              let (set, count) := st in
                              if is_vertical s
                              then (set, (count + getIntersection set s)%Z)
                              else
                                let key := stringify Number_toString (inverse s) in
                                if Dict.has key set
                                then (Dict.delete key set, count)
                                else (Dict.set (stringify Number_toString s) s set,
                                      count))
                           sorted st))%Z).
  { induction sorted as [|s sorted IH]; intros [set count] Hc; simpl;
      [exact Hc|].
    apply IH. simpl in Hc. destruct (is_vertical s); simpl.
    - pose proof (getIntersection_counts set s). lia.
    - destruct (Dict.has _ set); exact Hc. }
  apply H. simpl. lia.
Qed.

Lemma intersections_sign (self : TDiagramCost) (z : Z) :
  intersections Number_toString self = Some z -> (0 <= z)%Z.
Proof.
  unfold intersections.
  destruct (all_segments _ _) as [segments|]; [|discriminate].
  destruct (uni_dir_intersections_counts
              (map (project X) (filter is_horizontal segments)))
    as (h & -> & Hh).
  destruct (uni_dir_intersections_counts
              (map (project Y) (filter is_vertical segments)))
    as (v & -> & Hv).
  intros [= <-]. pose proof (perp_intersections_counts segments). lia.
Qed.

Lemma In_get {V : Type} (d : Dict.dict V) (k : string) (v : V) :
  NoDup (Dict.keys d) -> In (k, v) d -> Dict.get k d = Some v.
Proof.
  induction d as [|[k0 v0] d IH]; simpl; intros Hnd Hin; [contradiction|].
  inversion Hnd as [|? ? Hk Hd]; subst.
  destruct Hin as [[= -> ->]|Hin]; [now rewrite String.eqb_refl|].
  destruct (String.eqb_spec k k0) as [->|?]; [|now apply IH].
  exfalso. apply Hk. change k0 with (fst (k0, v)). now apply in_map.
Qed.

Lemma segments_of_resolved g n cs :
  Forall (fun c => lookup g c <> None) cs -> segments_of g n cs <> None.
Proof.
  induction 1 as [|c cs Hc _ IH]; simpl; [discriminate|].
  destruct (lookup g c); [|congruence].
  destruct (segments_of g n cs); [discriminate|congruence].
Qed.

Lemma all_segments_resolved g ns :
  Forall (fun n => Forall (fun c => lookup g c <> None) (g_children n)) ns ->
  all_segments g ns <> None.
Proof.
  induction 1 as [|n ns Hn _ IH]; simpl; [discriminate|].
  pose proof (segments_of_resolved g n _ Hn).
  destruct (segments_of g n (g_children n)); [|congruence].
  destruct (all_segments g ns); [discriminate|congruence].
Qed.

Lemma intersections_on_closed (self : TDiagramCost) :
  closed (geometry self) -> NoDup (Dict.keys (geometry self)) ->
  exists z, intersections Number_toString self = Some z.
Proof.
  intros Hc Hnd. unfold intersections.
  assert (H : all_segments (geometry self) (map snd (geometry self)) <> None).
  { apply all_segments_resolved. apply Forall_forall. intros n Hn.
    apply in_map_iff in Hn. destruct Hn as ([k n'] & <- & Hin).
    apply Forall_forall. intros c.
    apply (closed_lookup (geometry self) n' k); [exact Hc|].
    now apply In_get. }
  destruct (all_segments _ _) as [segments|]; [|congruence].
  destruct (uni_dir_intersections_counts
              (map (project X) (filter is_horizontal segments)))
    as (h & -> & Hh).
  destruct (uni_dir_intersections_counts
              (map (project Y) (filter is_vertical segments)))
    as (v & -> & Hv).
  eauto.
Qed.

(** X13.  The number of intersections is never negative, as its
    documentation says; and on a closed geometry with different keys, such
    as every captured one, it is computed: no segment has a missing end
    and the searches inside the count stay inside their arrays. *)
Theorem intersections_never_negative (self : TDiagramCost) :
  (forall z, intersections Number_toString self = Some z -> (0 <= z)%Z)
  /\ (closed (geometry self) -> NoDup (Dict.keys (geometry self)) ->
      exists z, intersections Number_toString self = Some z).
Proof.
  split; [apply intersections_sign|apply intersections_on_closed].
Qed.

Lemma canvas_extent (td : TDiagram) :
  (forall w, getCanvasWidth td = Some w -> 2 * margins_left td <= w)
  /\ (forall h, getCanvasHeight td = Some h -> 2 * margins_top td <= h).
Proof.
  unfold getCanvasWidth, getCanvasHeight.
  destruct (getBounds td) as [b|] eqn:Eb; [|split; discriminate].
  assert (Hg : exists g td', getGeometry td = Some (g, td')).
  { unfold getBounds in Eb.
    destruct (getGeometry td) as [[g td']|]; [eauto|discriminate]. }
  destruct Hg as (g & td' & Eg).
  destruct (canvas_sizes td td' g Eg) as (w & h & Ew & Eh & Hw & Hh).
  unfold getCanvasWidth, getCanvasHeight in Ew, Eh. rewrite Eb in Ew, Eh.
  split; [intros w' E; rewrite E in Ew|intros h' E; rewrite E in Eh];
    congruence.
Qed.

Lemma cost_not_negative
      (self : TDiagramCost) (alpha beta gamma pref : Q) (c : cost_record) :
  0 <= alpha -> 0 <= beta -> 0 <= gamma -> 0 < pref ->
  0 <= margins_left (tdiagram self) -> 0 <= margins_top (tdiagram self) ->
  cost Number_toString self alpha beta gamma pref = Some c ->
  (0 <= branches_factor c)%R
  /\ (0 <= intersection_factor c)%R
  /\ (0 <= ar_factor c)%R
  /\ (0 <= total c)%R.
Proof.
  intros Ha Hb Hg Hp Hml Hmt. unfold cost.
  destruct (intersections Number_toString self) as [z|] eqn:Ez;
    [|discriminate].
  destruct (getCanvasWidth (tdiagram self)) as [w|] eqn:Ew; [|discriminate].
  destruct (getCanvasHeight (tdiagram self)) as [h|] eqn:Eh; [|discriminate].
  destruct (Qeq_bool h 0) eqn:Eh0; [discriminate|].
  destruct (Qeq_bool (Qmin (w / h) pref) 0) eqn:Em0; [discriminate|].
  intros [= <-]. simpl.
  apply intersections_sign in Ez.
  destruct (canvas_extent (tdiagram self)) as [Hw Hh].
  specialize (Hw w Ew). specialize (Hh h Eh).
  assert (Hw0 : 0 <= w).
  { eapply Qle_trans; [|exact Hw].
    apply Qmult_le_0_compat; [discriminate|exact Hml]. }
  assert (Hh0 : 0 < h).
  { assert (0 <= h).
    { eapply Qle_trans; [|exact Hh].
      apply Qmult_le_0_compat; [discriminate|exact Hmt]. }
    apply Qle_lteq in H. destruct H as [H|H]; [exact H|].
    apply Qeq_bool_neq in Eh0. exfalso. apply Eh0. now symmetry. }
  assert (Har : 0 <= w / h) by (apply Qle_shift_div_l; [exact Hh0|now rewrite Qmult_0_l]).
  set (ar := w / h) in *.
  assert (Hmin : 0 < Qmin ar pref).
  { assert (H : 0 <= Qmin ar pref)
      by (apply Q.min_glb; [exact Har|now apply Qlt_le_weak]).
    apply Qle_lteq in H. destruct H as [H|H]; [exact H|].
    apply Qeq_bool_neq in Em0. exfalso. apply Em0. now symmetry. }
  assert (Hgap : 0 <= Qmax ar pref / Qmin ar pref - 1).
  { apply -> Qle_minus_iff. apply Qle_shift_div_l; [exact Hmin|].
    rewrite Qmult_1_l.
    apply Qle_trans with ar; [apply Q.le_min_l|apply Q.le_max_l]. }
  set (q := Qmax ar pref / Qmin ar pref - 1) in *.
  assert (Hq : (0 <= Q2R q)%R)
    by (rewrite <- RMicromega.Q2R_0; now apply Qle_Rle).
  assert (Hexp : (1 <= Math_exp q)%R).
  { unfold Math_exp. pose proof (exp_ineq1_le (Q2R q)). lra. }
  assert (Hpow : (1 <= Math_pow (Math_exp q) (Q2R gamma))%R).
  { unfold Math_exp. rewrite Math_pow_exp. unfold Rpower. rewrite ln_exp.
    assert (0 <= Q2R gamma)%R
      by (rewrite <- RMicromega.Q2R_0; now apply Qle_Rle).
    pose proof (exp_ineq1_le (Q2R gamma * Q2R q)).
    assert (0 <= Q2R gamma * Q2R q)%R by now apply Rmult_le_pos.
    lra. }
  assert (Hbr : (0 <= Math_pow (INR (num_branches self)) 2)%R).
  { rewrite Math_pow_square. apply pow2_ge_0. }
  assert (Hz : (0 <= IZR z)%R) by now apply IZR_le.
  assert (Hal : (0 <= Q2R alpha)%R)
    by (rewrite <- RMicromega.Q2R_0; now apply Qle_Rle).
  assert (Hbe : (0 <= Q2R beta)%R)
    by (rewrite <- RMicromega.Q2R_0; now apply Qle_Rle).
  split; [exact Hbr|]. split; [exact Hz|]. split; [lra|].
  assert (0 <= Q2R alpha * Math_pow (INR (num_branches self)) 2)%R
    by now apply Rmult_le_pos.
  assert (0 <= Q2R beta * IZR z)%R by now apply Rmult_le_pos.
  lra.
Qed.

(** X14.  With weights that are not negative, a preferred aspect ratio
    above 0 and margins that are not negative, no part of a cost that is
    computed is negative: neither the three factors nor the total. *)
Theorem cost_is_never_negative
        (self : TDiagramCost) (alpha beta gamma pref : Q) (c : cost_record) :
  0 <= alpha -> 0 <= beta -> 0 <= gamma -> 0 < pref ->
  0 <= margins_left (tdiagram self) -> 0 <= margins_top (tdiagram self) ->
  cost Number_toString self alpha beta gamma pref = Some c ->
  (0 <= branches_factor c)%R
  /\ (0 <= intersection_factor c)%R
  /\ (0 <= ar_factor c)%R
  /\ (0 <= total c)%R.
Proof.
  apply cost_not_negative.
Qed.

End Counting.

Lemma intersections_never_negative_witness :
  exists z,
    Cost.intersections Examples.toString (Examples.engine Examples.comb)
    = Some z
    /\ (0 <= z)%Z.
Proof.
  destruct (intersections_never_negative
              Examples.toString (Examples.engine Examples.comb)) as [Hsign Hret].
  destruct Hret as [z Ez].
  - exact (proj1 (proj2 (proj2 (geometry_from_spec
       (match Diagram.getRoot
                (match Diagram.computeCoord (Diagram.new Examples.comb) with
                 | Some td' => td'
                 | None => Diagram.new []
                 end) with
        | Some r => r
        | None => Diagram.fresh (Examples.entry "" "" "" 0 0 None)
        end))))).
  - vm_compute. repeat constructor; simpl; intuition discriminate.
  - exists z. split; [exact Ez|exact (Hsign z Ez)].
Defined.

Lemma cost_is_never_negative_witness :
  exists c,
    Cost.cost Examples.toString (Examples.engine Examples.comb) 1 2 3 (1 # 2)
    = Some c
    /\ (0 <= Cost.total c)%R.
Proof.
  destruct (cost_returns Examples.toString (Examples.engine Examples.comb)
                         1 2 3 (1 # 2) 11%Z 100 100)
    as (c & E & _).
  - vm_compute. reflexivity.
  - vm_compute. reflexivity.
  - vm_compute. reflexivity.
  - vm_compute. discriminate.
  - vm_compute. discriminate.
  - exists c. split; [exact E|].
    apply (cost_is_never_negative
             Examples.toString (Examples.engine Examples.comb) 1 2 3 (1 # 2) c).
    + vm_compute. discriminate.
    + vm_compute. discriminate.
    + vm_compute. discriminate.
    + vm_compute. reflexivity.
    + vm_compute. discriminate.
    + vm_compute. discriminate.
    + exact E.
Defined.

(** ** The parents of a child *)

Section Parents.
Import Diagram Cost Drawer Shape.

Lemma random_index_range (d : Q) (n : nat) :
  unit_draw d -> (0 < n)%nat ->
  (0 <= random_index d n < Z.of_nat n)%Z.
Proof.
  intros [H0 H1] Hn. unfold random_index.
  set (m := inject_Z (Z.of_nat n)).
  assert (Hm : 0 < m)
    by (unfold m; change 0 with (inject_Z 0); rewrite <- Zlt_Qlt; lia).
  split.
  - change 0%Z with (Qfloor (inject_Z 0)). apply Qfloor_resp_le.
    change (inject_Z 0) with 0. apply Qmult_le_0_compat; [exact H0|].
    now apply Qlt_le_weak.
  - rewrite Zlt_Qlt. fold m.
    apply Qle_lt_trans with (d * m); [apply Qfloor_le|].
    rewrite <- (Qmult_1_l m) at 2. now apply Qmult_lt_compat_r.
Qed.

Lemma random_index_zero (d : Q) (n : nat) :
  unit_draw d -> (n <= 1)%nat -> random_index d n = 0%Z.
Proof.
  intros Hd Hn. destruct n as [|[|n]]; [| |lia].
  - unfold random_index. change (Z.of_nat 0) with 0%Z.
    rewrite (Qfloor_comp (d * inject_Z 0) (inject_Z 0)); [apply Qfloor_Z|].
    unfold inject_Z. ring.
  - pose proof (random_index_range d 1 Hd). lia.
Qed.

Lemma second_parent_differs (p1 : Z) (n : nat) (draws : list Q) :
  forall p2 rest,
    second_parent p1 n draws = Some (p2, rest) ->
    p2 <> p1
    /\ exists used d, draws = used ++ d :: rest /\ p2 = random_index d n.
Proof.
  induction draws as [|d draws IH]; intros p2 rest; simpl; [discriminate|].
  destruct (Z.eqb_spec (random_index d n) p1) as [E|N].
  - intros H. destruct (IH _ _ H) as (Hne & used & d' & -> & ->).
    split; [exact Hne|]. exists (d :: used), d'. split; reflexivity.
  - intros [= <- <-]. split; [exact N|]. exists [], d. split; reflexivity.
Qed.

(** With one parent or none, the choice of a second parent goes on as
    long as there are draws. *)
Lemma second_parent_stuck (n : nat) (draws : list Q) :
  (n <= 1)%nat -> Forall unit_draw draws -> second_parent 0 n draws = None.
Proof.
  intros Hn. induction 1 as [|d draws Hd _ IH]; simpl; [reflexivity|].
  now rewrite (random_index_zero d n Hd Hn).
Qed.

Lemma inherit_spec (from : Dict.dict Q) :
  forall acc draws result rest,
    inherit from acc draws = Some (result, rest) ->
    (forall k v, Dict.get k result = Some v ->
                 In (k, v) from \/ Dict.get k acc = Some v)
    /\ exists used, draws = used ++ rest.
Proof.
  induction from as [|[k0 v0] from IH]; intros acc draws result rest; simpl.
  - intros [= <- <-]. split; [auto|]. now exists [].
  - unfold Random.bind, Random.random.
    destruct draws as [|d draws]; [discriminate|].
    intros H. destruct (IH _ _ _ _ H) as (Hget & used & ->).
    split; [|now exists (d :: used)].
    intros k v Hk. destruct (Hget k v Hk) as [Hin|Hacc]; [left; now right|].
    destruct (Qltb (1 # 2) d); [|now right].
    rewrite get_set in Hacc.
    destruct (String.eqb_spec k k0) as [->|?]; [|now right].
    injection Hacc as <-. left. now left.
Qed.

Lemma mutate_spec prob (breaks : Dict.dict Q) :
  forall draws result rest,
    mutate prob breaks draws = Some (result, rest) ->
    forall k v,
      Dict.get k result = Some v ->
      exists v0, Dict.get k breaks = Some v0 /\ (v = v0 \/ v = 1 # 10).
Proof.
  intros draws result rest H. apply mutate_keeps_or_clamps in H.
  induction H as [|[k0 v0] [k1 v1] breaks result [Hk Hv] _ IH]; intros k v;
    simpl; [discriminate|].
  simpl in Hk, Hv. subst k1.
  destruct (String.eqb k k0); [|apply IH].
  intros [= <-]. exists v0. split; [reflexivity|].
  destruct Hv; auto.
Qed.

Lemma get_In_pair {V : Type} (d : Dict.dict V) (k : string) (v : V) :
  Dict.get k d = Some v -> In (k, v) d.
Proof.
  induction d as [|[k0 v0] d IH]; simpl; [discriminate|].
  destruct (String.eqb_spec k k0) as [->|?];
    [intros [= ->]; now left|right; auto].
Qed.

Lemma crossover_spec (self : TDiagramDrawer) (parents : list specimen)
      (draws : list Q) (child : Dict.dict Q) (rest : list Q) :
  crossover_and_mutation self parents draws = Some (child, rest) ->
  exists i j p1 p2,
    i <> j
    /\ Helpers.at_index parents i = Some p1
    /\ Helpers.at_index parents j = Some p2
    /\ forall k v,
        Dict.get k child = Some v ->
        (In k (Dict.keys (breaks p1)) \/ In k (Dict.keys (breaks p2)))
        /\ (v = 1 # 10 \/ In (k, v) (breaks p1) \/ In (k, v) (breaks p2)).
Proof.
  unfold crossover_and_mutation, Random.bind, Random.random, Random.lift.
  destruct draws as [|d draws]; [discriminate|].
  set (i := random_index d (List.length parents)).
  destruct (second_parent i (List.length parents) draws) as [[j ds]|] eqn:Ej;
    [|discriminate].
  apply second_parent_differs in Ej. destruct Ej as [Hne _].
  destruct (Helpers.at_index parents i) as [p1|] eqn:E1; [|discriminate].
  destruct (Helpers.at_index parents j) as [p2|] eqn:E2; [|discriminate].
  unfold Random.ret.
  destruct (inherit (breaks p1) [] ds) as [[from1 ds1]|] eqn:I1; [|discriminate].
  destruct (inherit (breaks p2) from1 ds1) as [[from2 ds2]|] eqn:I2;
    [|discriminate].
  intros Hm. exists i, j, p1, p2.
  split; [congruence|]. split; [exact E1|]. split; [exact E2|].
  apply inherit_spec in I1, I2. destruct I1 as [H1 _], I2 as [H2 _].
  intros k v Hk.
  destruct (mutate_spec _ _ _ _ _ Hm k v Hk) as (v0 & Hv0 & Hv).
  assert (Hfrom : In (k, v0) (breaks p1) \/ In (k, v0) (breaks p2)).
  { destruct (H2 k v0 Hv0) as [?|Hf]; [now right|].
    destruct (H1 k v0 Hf) as [?|Hn]; [now left|discriminate]. }
  split.
  - destruct Hfrom as [H|H]; [left|right];
      apply in_map_iff; exists (k, v0); auto.
  - destruct Hv as [->| ->]; auto.
Qed.

(** X15.  The bend map of a child comes from two parents at different
    positions among the survivors: each of its keys is a key of one of
    the two, with the value that parent has for it or, after a mutation,
    0.1. *)
Theorem a_child_has_two_parents
        (self : TDiagramDrawer) (parents : list specimen)
        (draws : list Q) (child : Dict.dict Q) (rest : list Q) :
  crossover_and_mutation self parents draws = Some (child, rest) ->
  exists i j p1 p2,
    i <> j
    /\ Helpers.at_index parents i = Some p1
    /\ Helpers.at_index parents j = Some p2
    /\ forall k v,
        Dict.get k child = Some v ->
        (In k (Dict.keys (breaks p1)) \/ In k (Dict.keys (breaks p2)))
        /\ (v = 1 # 10 \/ In (k, v) (breaks p1) \/ In (k, v) (breaks p2)).
Proof. exact (crossover_spec self parents draws child rest). Qed.

Lemma crossover_stuck (self : TDiagramDrawer) (parents : list specimen)
      (draws : list Q) :
  (List.length parents <= 1)%nat -> Forall unit_draw draws ->
  crossover_and_mutation self parents draws = None.
Proof.
  intros Hn Hd. unfold crossover_and_mutation, Random.bind, Random.random.
  destruct Hd as [|d draws Hd Hds]; [reflexivity|].
  rewrite (random_index_zero d _ Hd Hn).
  now rewrite (second_parent_stuck _ draws Hn Hds).
Qed.

Lemma breed_stuck (n : nat) (self : TDiagramDrawer) (parents : list specimen)
      (draws : list Q) :
  (List.length parents <= 1)%nat -> Forall unit_draw draws ->
  breed (S n) self parents draws = None.
Proof.
  intros Hn Hd. simpl. unfold child_breaks, Random.bind.
  now rewrite crossover_stuck.
Qed.

End Parents.

Section StuckStep.
Import Diagram Cost Drawer Shape.
Variable Number_toString : Q -> string.

(** X16.  A step needs two survivors.  When the selection leaves one
    specimen or none and the population is to have at least one specimen,
    the choice of the second parent never ends: with draws in [0, 1) the
    step does not return, however many draws there are. *)
Theorem step_needs_two_survivors
        (self graded : TDiagramDrawer) (draws rest : list Q)
        (parents : list specimen) :
  gradePopulation Number_toString self = Some graded ->
  performSelection (population graded) draws = Some (parents, rest) ->
  (List.length parents <= 1)%nat ->
  (0 < population_size self)%nat ->
  Forall unit_draw rest ->
  step Number_toString self draws = None.
Proof.
  intros Hg Hs Hn Hsize Hd. unfold step, Random.bind, Random.lift.
  rewrite Hg. unfold Random.ret. rewrite Hs.
  assert (Esize : population_size graded = population_size self).
  { unfold gradePopulation in Hg.
    destruct (grade Number_toString self (population self)); [|discriminate].
    now injection Hg as <-. }
  rewrite Esize. destruct (population_size self) as [|n]; [lia|].
  now rewrite breed_stuck.
Qed.

End StuckStep.

Lemma a_child_has_two_parents_witness :
  exists i j p1 p2,
    i <> j
    /\ Helpers.at_index
         [Examples.bent [("A"%string, 1 # 2)]; Examples.bent [("B"%string, 1 # 3)]] i
       = Some p1
    /\ Helpers.at_index
         [Examples.bent [("A"%string, 1 # 2)]; Examples.bent [("B"%string, 1 # 3)]] j
       = Some p2
    /\ forall k v,
        Dict.get k [("A"%string, 1 # 2); ("B"%string, 1 # 3)] = Some v ->
        (In k (Dict.keys (Drawer.breaks p1)) \/ In k (Dict.keys (Drawer.breaks p2)))
        /\ (v = 1 # 10 \/ In (k, v) (Drawer.breaks p1)
            \/ In (k, v) (Drawer.breaks p2)).
Proof.
  apply (a_child_has_two_parents
           (Examples.drawer [])
           [Examples.bent [("A"%string, 1 # 2)]; Examples.bent [("B"%string, 1 # 3)]]
           [0; 3 # 4; 3 # 4; 3 # 4; 1 # 2; 1 # 2]
           [("A"%string, 1 # 2); ("B"%string, 1 # 3)] []).
  vm_compute. reflexivity.
Defined.

Lemma step_needs_two_survivors_witness :
  Drawer.step Examples.toString (Examples.drawer [Examples.graded 5])
              [1 # 2; 1 # 3; 1 # 4]
  = None.
Proof.
  apply (step_needs_two_survivors
           Examples.toString
           (Examples.drawer [Examples.graded 5])
           (Examples.drawer [Examples.graded 5])
           [1 # 2; 1 # 3; 1 # 4] [1 # 3; 1 # 4] []).
  - reflexivity.
  - cbn [Drawer.population Examples.drawer].
    rewrite performSelection_filters;
      [|repeat constructor; discriminate|simpl; lia].
    unfold Drawer.largest_total. simpl. unfold Drawer.survives, Drawer.total_of.
    simpl.
    destruct (Rlt_dec 5 (Q2R (1 # 2) * Rmax 0 5)) as [H|_]; [|reflexivity].
    exfalso. unfold Rmax in H. destruct (Rle_dec 0 5); [|lra].
    replace (Q2R (1 # 2)) with (/ 2)%R in H by (unfold Q2R; simpl; lra). lra.
  - simpl. lia.
  - simpl. lia.
  - repeat constructor; unfold Qle, Qlt; simpl; lia.
Defined.

(** ** Random bend maps *)

Section RandomBreaks.
Import Diagram Cost Drawer Shape.

Lemma random_fraction_range (d : Q) :
  unit_draw d -> fresh_fraction (random_fraction d).
Proof.
  unfold unit_draw, fresh_fraction, random_fraction.
  intros [H0 H1]. split; Lqa.lra.
Qed.

Lemma sample_nodes_spec prob (g : geometry_map) :
  forall draws nodes rest,
    sample_nodes prob g draws = Some (nodes, rest) ->
    (forall k, In k nodes -> exists n, In (k, n) g /\ g_hidden n = false)
    /\ exists used, draws = used ++ rest.
Proof.
  induction g as [|[k0 n0] g IH]; intros draws nodes rest; simpl.
  - intros [= <- <-]. split; [intros k []|now exists []].
  - unfold Random.bind, Random.random, Random.ret.
    destruct draws as [|d draws]; [discriminate|].
    destruct (sample_nodes prob g draws) as [[ns ds]|] eqn:E; [|discriminate].
    destruct (IH _ _ _ E) as (Hns & used & ->).
    intros [= <- <-]. split; [|now exists (d :: used)].
    intros k Hk.
    assert (Hcase : (k = k0 /\ g_hidden n0 = false) \/ In k ns).
    { destruct (Qltb d prob); simpl in Hk; [|now right].
      destruct (g_hidden n0); simpl in Hk; [now right|].
      destruct Hk as [<-|Hk]; [left; auto|now right]. }
    destruct Hcase as [[-> Hh]|Hin].
    + exists n0. split; [now left|exact Hh].
    + destruct (Hns k Hin) as (n & Hn & Hh). exists n. split; [now right|exact Hh].
Qed.

Lemma random_fractions_spec (nodes : list string) :
  forall total draws result rest,
    Forall unit_draw draws ->
    random_fractions nodes total draws = Some (result, rest) ->
    forall k v,
      Dict.get k result = Some v ->
      (In k nodes /\ fresh_fraction v) \/ Dict.get k total = Some v.
Proof.
  induction nodes as [|node nodes IH]; intros total draws result rest Hd; simpl.
  - intros [= <- <-]. auto.
  - unfold Random.bind, Random.random.
    destruct Hd as [|d draws Hd Hds]; [discriminate|].
    intros H k v Hk.
    destruct (IH _ _ _ _ Hds H k v Hk) as [[Hin Hv]|Ht];
      [left; split; [now right|exact Hv]|].
    rewrite get_set in Ht.
    destruct (String.eqb_spec k node) as [->|?]; [|now right].
    injection Ht as <-. left. split; [now left|].
    now apply random_fraction_range.
Qed.

Lemma Forall_suffix {A : Type} (P : A -> Prop) (used rest : list A) :
  Forall P (used ++ rest) -> Forall P rest.
Proof. intros H. apply Forall_app in H. tauto. Qed.

(** What [createRandomSpecimenFromBreaks] returns. *)
Lemma create_spec (self : TDiagramDrawer) (given : option (Dict.dict Q))
      (draws : list Q) (s : specimen) (self' : TDiagramDrawer) (rest : list Q) :
  createRandomSpecimenFromBreaks self given draws = Some ((s, self'), rest) ->
  self' = with_counter self (next (counter self))
  /\ id s = counter self
  /\ cost s = None
  /\ num_branches (diagram s) = List.length (Dict.keys (breaks s))
  /\ match given with
     | Some b => breaks s = b
     | None =>
         exists nodes ds ds',
           sample_nodes (probability_of_adding_branch self)
                        (Drawer.geometry self) draws = Some (nodes, ds)
           /\ random_fractions nodes [] ds = Some (breaks s, ds')
     end.
Proof.
  unfold createRandomSpecimenFromBreaks, Random.bind, Random.lift.
  destruct (Cost.new (base self)) as [tb|]; [|discriminate].
  unfold Random.ret at 1.
  destruct given as [b|].
  - unfold Random.ret at 1.
    destruct (introduceBreaks tb b draws) as [[broken ds]|] eqn:E;
      [|discriminate].
    intros [= <- <- <-]. simpl.
    apply introduceBreaks_num_branches in E. auto.
  - destruct (sample_nodes _ _ draws) as [[nodes ds]|] eqn:E1; [|discriminate].
    destruct (random_fractions nodes [] ds) as [[b ds']|] eqn:E2;
      [|discriminate].
    destruct (introduceBreaks tb b ds') as [[broken ds'']|] eqn:E;
      [|discriminate].
    intros [= <- <- <-]. simpl.
    apply introduceBreaks_num_branches in E.
    split; [reflexivity|]. split; [reflexivity|]. split; [reflexivity|].
    split; [exact E|]. exists nodes, ds, ds'. auto.
Qed.

(** X17.  A specimen created without a bend map, with draws in [0, 1):
    every key of its bend map is the key of a node of the geometry that
    is not hidden, and every fraction lies from 0.1 up to, but not
    including, 0.9.  The specimen has no cost yet, it takes the counter as
    its id, the counter moves on, and [num_branches] of its diagram is the
    number of keys of the bend map. *)
Theorem random_specimen_breaks
        (self : TDiagramDrawer) (draws : list Q)
        (s : specimen) (self' : TDiagramDrawer) (rest : list Q) :
  Forall unit_draw draws ->
  createRandomSpecimenFromBreaks self None draws = Some ((s, self'), rest) ->
  (forall k v,
      Dict.get k (breaks s) = Some v ->
      fresh_fraction v
      /\ exists n, In (k, n) (Drawer.geometry self) /\ g_hidden n = false)
  /\ cost s = None
  /\ id s = counter self
  /\ counter self' = next (counter self)
  /\ num_branches (diagram s) = List.length (Dict.keys (breaks s)).
Proof.
  intros Hd H. apply create_spec in H.
  destruct H as (-> & Hid & Hcost & Hnum & nodes & ds & ds' & E1 & E2).
  split; [|auto].
  apply sample_nodes_spec in E1. destruct E1 as (Hnodes & used & ->).
  apply Forall_suffix in Hd.
  intros k v Hk.
  destruct (random_fractions_spec _ _ _ _ _ Hd E2 k v Hk) as [[Hin Hv]|Hn];
    [|discriminate].
  split; [exact Hv|]. now apply Hnodes.
Qed.

(** The node that the branch-adding event picks. *)
Lemma pick_new_node_spec (possible : list string) (breaks : Dict.dict Q) :
  possible <> [] ->
  forall draws node rest,
    Forall unit_draw draws ->
    pick_new_node possible breaks draws = Some (node, rest) ->
    Dict.has node breaks = false
    /\ In node possible
    /\ Forall unit_draw rest.
Proof.
  intros Hne. induction draws as [|d draws IH]; intros node rest Hd; simpl;
    [discriminate|].
  inversion Hd as [|? ? Hd0 Hds]; subst.
  assert (Hlen : (0 < List.length possible)%nat)
    by (destruct possible; [congruence|simpl; lia]).
  pose proof (random_index_range d _ Hd0 Hlen) as Hr.
  destruct (at_index_Some possible _ Hr) as [k Ek]. rewrite Ek.
  destruct (Dict.has k breaks) eqn:Eh; [now apply IH|].
  intros [= <- <-]. split; [exact Eh|]. split; [|exact Hds].
  now apply at_index_In in Ek.
Qed.

Lemma add_branch_spec (self : TDiagramDrawer) (breaks : Dict.dict Q)
      (draws : list Q) (result : Dict.dict Q) (rest : list Q) :
  Forall unit_draw draws ->
  add_branch self breaks draws = Some (result, rest) ->
  result = breaks
  \/ exists k v n,
      Dict.get k breaks = None
      /\ Dict.get k result = Some v
      /\ (forall k', k' <> k -> Dict.get k' result = Dict.get k' breaks)
      /\ List.length (Dict.keys result) = S (List.length (Dict.keys breaks))
      /\ fresh_fraction v
      /\ In (k, n) (Drawer.geometry self)
      /\ g_hidden n = false.
Proof.
  intros Hd. unfold add_branch.
  set (possible := Dict.keys (filter (fun kv => negb (g_hidden (snd kv)))
                                     (Drawer.geometry self))).
  destruct (Nat.ltb_spec (List.length (Dict.keys breaks)) (List.length possible))
    as [Hlt|_]; [|intros [= <- <-]; now left].
  unfold Random.bind, Random.random, Random.ret.
  destruct (pick_new_node possible breaks draws) as [[node ds]|] eqn:E;
    [|discriminate].
  apply pick_new_node_spec in E; [|destruct possible; [simpl in Hlt; lia|discriminate]|exact Hd].
  destruct E as (Hhas & Hin & Hds).
  destruct Hds as [|d ds Hd0 _]; [discriminate|].
  intros [= <- <-]. right.
  unfold possible in Hin. apply in_map_iff in Hin.
  destruct Hin as ([k n] & <- & Hin). apply filter_In in Hin.
  destruct Hin as [Hin Hh]. simpl in Hh, Hhas.
  assert (Hnone : Dict.get k breaks = None).
  { unfold Dict.has in Hhas. destruct (Dict.get k breaks); [discriminate|auto]. }
  exists k, (random_fraction d), n. simpl fst.
  split; [exact Hnone|]. split; [apply get_set_same|].
  split; [intros k' Hk'; now apply get_set_other|].
  split.
  { rewrite set_new by now apply get_None_iff.
    unfold Dict.keys. rewrite !length_map, length_app. simpl. lia. }
  split; [now apply random_fraction_range|].
  split; [exact Hin|]. now destruct (g_hidden n).
Qed.

(** X18.  The branch-adding event, with draws in [0, 1), leaves the
    bend map as it is or gives it one more key: a key that the map did
    not have, of a node of the geometry that is not hidden, with a
    fraction from 0.1 up to, but not including, 0.9; every other key keeps
    its fraction.  It adds nothing when every node that is not hidden has
    a bend already. *)
Theorem add_branch_adds_one
        (self : TDiagramDrawer) (breaks : Dict.dict Q)
        (draws : list Q) (result : Dict.dict Q) (rest : list Q) :
  Forall unit_draw draws ->
  add_branch self breaks draws = Some (result, rest) ->
  (result = breaks
   \/ exists k v n,
       Dict.get k breaks = None
       /\ Dict.get k result = Some v
       /\ (forall k', k' <> k -> Dict.get k' result = Dict.get k' breaks)
       /\ List.length (Dict.keys result) = S (List.length (Dict.keys breaks))
       /\ fresh_fraction v
       /\ In (k, n) (Drawer.geometry self)
       /\ g_hidden n = false)
  /\ ((List.length
         (filter (fun kv => negb (g_hidden (snd kv))) (Drawer.geometry self))
       <= List.length breaks)%nat ->
      result = breaks /\ rest = draws).
Proof.
  intros Hd H. split; [now apply (add_branch_spec self breaks draws result rest)|].
  intros Hfull. unfold add_branch, Dict.keys in H. rewrite !length_map in H.
  destruct (Nat.ltb_spec (List.length breaks)
              (List.length (filter (fun kv => negb (g_hidden (snd kv)))
                                   (Drawer.geometry self)))) as [Hlt|_];
    [lia|].
  now injection H as <- <-.
Qed.

End RandomBreaks.

Lemma random_specimen_breaks_witness :
  exists s self' rest,
    Drawer.createRandomSpecimenFromBreaks
      (Examples.drawer []) None
      [1 # 2; 1 # 20; 1 # 2; 1 # 2; 1 # 2; 1 # 2; 1 # 2; 1 # 2; 3 # 4; 1 # 3]
    = Some ((s, self'), rest)
    /\ Drawer.cost s = None
    /\ Drawer.id s = Some 0%Z
    /\ Dict.keys (Drawer.breaks s) = ["A"%string].
Proof.
  destruct (Drawer.createRandomSpecimenFromBreaks
              (Examples.drawer []) None
              [1 # 2; 1 # 20; 1 # 2; 1 # 2; 1 # 2; 1 # 2; 1 # 2; 1 # 2; 3 # 4; 1 # 3])
    as [[[s self'] rest]|] eqn:E; [|vm_compute in E; discriminate].
  destruct (random_specimen_breaks
              (Examples.drawer [])
              [1 # 2; 1 # 20; 1 # 2; 1 # 2; 1 # 2; 1 # 2; 1 # 2; 1 # 2; 3 # 4; 1 # 3]
              s self' rest)
    as (_ & Hcost & Hid & _).
  - repeat constructor; unfold Qle, Qlt; simpl; lia.
  - exact E.
  - exists s, self', rest. split; [reflexivity|]. split; [exact Hcost|].
    split; [exact Hid|].
    vm_compute in E. injection E as <- _ _. reflexivity.
Defined.

Lemma add_branch_adds_one_witness :
  exists result rest,
    Drawer.add_branch (Examples.drawer []) [("A"%string, 1 # 2)]
                      [1 # 4; 1 # 2; 1 # 2]
    = Some (result, rest)
    /\ (result = [("A"%string, 1 # 2)]
        \/ exists k v n,
            Dict.get k [("A"%string, 1 # 2)] = None
            /\ Dict.get k result = Some v
            /\ (forall k', k' <> k ->
                           Dict.get k' result
                           = Dict.get k' [("A"%string, 1 # 2)])
            /\ List.length (Dict.keys result) = 2%nat
            /\ Shape.fresh_fraction v
            /\ In (k, n) Examples.comb_geometry
            /\ Diagram.g_hidden n = false).
Proof.
  destruct (Drawer.add_branch (Examples.drawer []) [("A"%string, 1 # 2)]
                              [1 # 4; 1 # 2; 1 # 2])
    as [[result rest]|] eqn:E; [|vm_compute in E; discriminate].
  exists result, rest. split; [reflexivity|].
  apply (add_branch_adds_one
           (Examples.drawer []) [("A"%string, 1 # 2)]
           [1 # 4; 1 # 2; 1 # 2] result rest).
  - repeat constructor; unfold Qle, Qlt; simpl; lia.
  - exact E.
Defined.

(** ** Grading, breeding and the first population *)

Section Grades.
Import Diagram Cost Drawer Shape.
Variable Number_toString : Q -> string.

Lemma grade_spec (self : TDiagramDrawer) (p : list specimen) :
  forall graded,
    grade Number_toString self p = Some graded ->
    Forall2 (fun s s' =>
               diagram s' = diagram s /\ breaks s' = breaks s /\ id s' = id s
               /\ cost s' = match cost s with
                            | Some c => Some c
                            | None => cost_of Number_toString self s
                            end
               /\ cost s' <> None)
            p graded.
Proof.
  induction p as [|s p IH]; intros graded; simpl.
  - intros [= <-]. constructor.
  - destruct (match cost s with
              | Some c => Some c
              | None => cost_of Number_toString self s
              end) as [c|] eqn:Ec; [|discriminate].
    destruct (grade Number_toString self p) as [g|]; [|discriminate].
    intros [= <-]. constructor; [|now apply IH].
    simpl. rewrite Ec.
    split; [reflexivity|]. split; [reflexivity|]. split; [reflexivity|].
    split; [reflexivity|discriminate].
Qed.

(** A population that has its costs is graded as it is, whatever the
    weights. *)
Lemma grade_cached (self : TDiagramDrawer) (p : list specimen) :
  Forall (fun s => cost s <> None) p ->
  grade Number_toString self p = Some p.
Proof.
  induction 1 as [|s p Hs _ IH]; simpl; [reflexivity|].
  rewrite IH. destruct s as [d b i [c|]]; [reflexivity|simpl in Hs; congruence].
Qed.

Lemma gradePopulation_spec (self graded : TDiagramDrawer) :
  gradePopulation Number_toString self = Some graded ->
  graded = with_population self (population graded)
  /\ Forall2 (fun s s' =>
                diagram s' = diagram s /\ breaks s' = breaks s /\ id s' = id s
                /\ cost s' = match cost s with
                             | Some c => Some c
                             | None => cost_of Number_toString self s
                             end
                /\ cost s' <> None)
             (population self) (population graded).
Proof.
  unfold gradePopulation.
  destruct (grade Number_toString self (population self)) as [p|] eqn:E;
    [|discriminate].
  intros [= <-]. split; [reflexivity|]. now apply grade_spec.
Qed.

Lemma graded_all (self graded : TDiagramDrawer) :
  gradePopulation Number_toString self = Some graded ->
  Forall (fun s => cost s <> None) (population graded).
Proof.
  intros H. apply gradePopulation_spec in H. destruct H as [_ H].
  induction H as [|s s' p p' Hs _ IH]; constructor; [tauto|exact IH].
Qed.

(** The totals of a graded population are not negative when the weights
    of the optimizer are not negative, its preferred aspect ratio is
    above 0 and the margins of the diagrams are not negative (they are 0
    on every diagram the optimizer builds): a total that was there was
    computed in the same way, and a new one is a cost of [cost]. *)
Lemma graded_totals_not_negative (self graded : TDiagramDrawer) :
  0 <= alpha (params self) -> 0 <= beta (params self) ->
  0 <= gamma (params self) -> 0 < prefered_aspect_ratio (params self) ->
  Forall (fun s =>
            0 <= margins_left (tdiagram (diagram s))
            /\ 0 <= margins_top (tdiagram (diagram s))
            /\ (0 <= total_of s)%R)
         (population self) ->
  gradePopulation Number_toString self = Some graded ->
  Forall (fun s => (0 <= total_of s)%R) (population graded).
Proof.
  intros Ha Hb Hg Hp Hpop H.
  apply gradePopulation_spec in H. destruct H as [_ H].
  induction H as [|s s' p p' Hs _ IH]; [constructor|].
  inversion Hpop as [|? ? (Hml & Hmt & Ht) Hrest]; subst.
  constructor; [|now apply IH].
  destruct Hs as (Ed & _ & _ & Ec & Hc).
  unfold total_of in *. rewrite Ec in *.
  destruct (cost s) as [c|]; [exact Ht|].
  destruct (cost_of Number_toString self s) as [c|] eqn:E; [|congruence].
  unfold cost_of in E.
  now apply (cost_not_negative Number_toString _ _ _ _ _ c Ha Hb Hg Hp Hml Hmt E).
Qed.

(** X19.  [gradePopulation] gives every specimen a cost and changes
    nothing else: a specimen that has a cost keeps it, one that has none
    gets the cost of its diagram.  Grading again changes nothing; and on
    the graded population [performSelection], given a draw for each
    specimen, does not throw. *)
Theorem grading_enables_selection (self graded : TDiagramDrawer) :
  gradePopulation Number_toString self = Some graded ->
  Forall2 (fun s s' =>
             diagram s' = diagram s /\ breaks s' = breaks s /\ id s' = id s
             /\ cost s' = match cost s with
                          | Some c => Some c
                          | None => cost_of Number_toString self s
                          end
             /\ cost s' <> None)
          (population self) (population graded)
  /\ graded = with_population self (population graded)
  /\ gradePopulation Number_toString graded = Some graded
  /\ forall draws,
      (List.length (population graded) <= List.length draws)%nat ->
      performSelection (population graded) draws <> None.
Proof.
  intros H. pose proof (graded_all _ _ H) as Hall.
  destruct (gradePopulation_spec _ _ H) as [E HF].
  split; [exact HF|]. split; [exact E|]. split.
  - unfold gradePopulation. rewrite (grade_cached graded _ Hall).
    now destruct graded.
  - intros draws Hlen. now rewrite performSelection_filters.
Qed.

End Grades.

Section Ungraded.
Import Diagram Cost Drawer Shape.

Lemma max_total_throws (p : list specimen) :
  (exists s, In s p /\ cost s = None) ->
  forall t, max_total p t = None.
Proof.
  induction p as [|s0 p IH]; intros (s & Hs & Hc) t; [destruct Hs|].
  simpl. destruct Hs as [->|Hs]; [now rewrite Hc|].
  destruct (cost s0); [|reflexivity]. apply IH. eauto.
Qed.

(** X20.  [performSelection] requires a graded population: when a
    specimen has no cost, reading its total throws, whatever the draws. *)
Theorem performSelection_needs_costs (p : list specimen) (draws : list Q) :
  (exists s, In s p /\ cost s = None) ->
  performSelection p draws = None.
Proof.
  intros H. unfold performSelection, Random.bind, Random.lift.
  now rewrite (max_total_throws p H).
Qed.

Lemma iter_next (j : nat) (c : option Z) :
  Nat.iter j next c = option_map (fun z => (z + Z.of_nat j)%Z) c.
Proof.
  induction j as [|j IH]; [destruct c; simpl; [f_equal; lia|reflexivity]|].
  rewrite Nat.iter_succ, IH. destruct c; simpl; [f_equal; lia|reflexivity].
Qed.

(** The specimens made one after the other, by [breed] or by
    [createPopulation]. *)
Lemma made_in_a_row
      (make : TDiagramDrawer -> Random.rand (specimen * TDiagramDrawer))
      (P : specimen -> Prop) :
  (forall self draws s self' rest,
      make self draws = Some ((s, self'), rest) ->
      self' = with_counter self (next (counter self))
      /\ id s = counter self /\ P s) ->
  forall n self draws specs self' rest,
    (fix loop (n : nat) (self : TDiagramDrawer)
       : Random.rand (list specimen * TDiagramDrawer) :=
       match n with
       | O => Random.ret ([], self)
       | S n' =>
           (made <- make self ;;
            rest <- loop n' (snd made) ;;
            Random.ret (fst made :: fst rest, snd rest))%rand
       end) n self draws = Some ((specs, self'), rest) ->
    List.length specs = n
    /\ self' = with_counter self (Nat.iter n next (counter self))
    /\ map id specs = map (fun j => Nat.iter j next (counter self)) (List.seq 0 n)
    /\ Forall P specs.
Proof.
  intros Hmake. induction n as [|n IH]; intros self draws specs self' rest.
  - intros [= <- <- <-]. simpl.
    split; [reflexivity|]. split; [now destruct self|].
    split; [reflexivity|constructor].
  - unfold Random.bind at 1.
    destruct (make self draws) as [[[s self1] ds]|] eqn:E; [|discriminate].
    destruct (Hmake _ _ _ _ _ E) as (-> & Hid & Hs). simpl snd. simpl fst.
    unfold Random.bind at 1.
    match goal with
    | |- match ?r with _ => _ end = _ -> _ =>
        destruct r as [[[specs' self2] ds']|] eqn:E'; [|discriminate]
    end.
    apply IH in E'. destruct E' as (Hlen & -> & Hids & Hall).
    intros [= <- <- <-]. simpl fst. simpl snd. simpl List.length.
    split; [now rewrite Hlen|]. split; [|split].
    + simpl counter. rewrite Nat.iter_succ_r. reflexivity.
    + simpl map. rewrite Hid. f_equal. rewrite Hids. simpl counter.
      rewrite <- seq_shift, map_map. apply map_ext. intros j.
      now rewrite Nat.iter_succ_r.
    + now constructor.
Qed.

Lemma breed_spec (parents : list specimen) :
  forall n self draws specs self' rest,
    breed n self parents draws = Some ((specs, self'), rest) ->
    List.length specs = n
    /\ self' = with_counter self (Nat.iter n next (counter self))
    /\ map id specs = map (fun j => Nat.iter j next (counter self)) (List.seq 0 n)
    /\ Forall (fun s => cost s = None
                        /\ num_branches (diagram s)
                           = List.length (Dict.keys (breaks s)))
              specs.
Proof.
  induction n as [|n IH]; intros self draws specs self' rest.
  - intros [= <- <- <-]. simpl.
    split; [reflexivity|]. split; [now destruct self|].
    split; [reflexivity|constructor].
  - cbn [breed]. unfold Random.bind at 1.
    destruct (child_breaks self parents draws) as [[b ds]|]; [|discriminate].
    unfold Random.bind at 1.
    destruct (createRandomSpecimenFromBreaks self (Some b) ds)
      as [[[s self1] ds1]|] eqn:E; [|discriminate].
    apply create_spec in E. destruct E as (-> & Hid & Hc & Hn & _).
    simpl snd. simpl fst. unfold Random.bind at 1.
    destruct (breed n (with_counter self (next (counter self))) parents ds1)
      as [[[specs' self2] ds']|] eqn:E'; [|discriminate].
    apply IH in E'. destruct E' as (Hlen & -> & Hids & Hall).
    intros [= <- <- <-]. simpl fst. simpl snd. simpl List.length.
    split; [now rewrite Hlen|]. split; [|split].
    + simpl counter. rewrite Nat.iter_succ_r. reflexivity.
    + simpl map. rewrite Hid. f_equal. rewrite Hids. simpl counter.
      rewrite <- seq_shift, map_map. apply map_ext. intros j.
      now rewrite Nat.iter_succ_r.
    + constructor; [auto|exact Hall].
Qed.

(** X21.  The breeding of [step], whenever it returns for [n] children:
    it makes [n] specimens; their ids are the counter and the numbers
    after it, in order, and the counter ends [n] higher; none of them has
    a cost yet; [num_branches] of each is the number of keys of its bend
    map; and the drawer is otherwise untouched. *)
Theorem breed_numbers_the_children
        (n : nat) (self : TDiagramDrawer) (parents : list specimen)
        (draws : list Q) (specs : list specimen) (self' : TDiagramDrawer)
        (rest : list Q) :
  breed n self parents draws = Some ((specs, self'), rest) ->
  List.length specs = n
  /\ map id specs
     = map (fun j => option_map (fun c => (c + Z.of_nat j)%Z) (counter self))
           (List.seq 0 n)
  /\ self' = with_counter self
                          (option_map (fun c => (c + Z.of_nat n)%Z) (counter self))
  /\ Forall (fun s => cost s = None
                      /\ num_branches (diagram s)
                         = List.length (Dict.keys (breaks s)))
            specs.
Proof.
  intros H. apply breed_spec in H. destruct H as (Hlen & -> & Hids & Hall).
  split; [exact Hlen|]. split; [|split; [|exact Hall]].
  - rewrite Hids. apply map_ext. intros j. apply iter_next.
  - now rewrite iter_next.
Qed.

Lemma createPopulation_spec :
  forall n self draws specs self' rest,
    createPopulation n self draws = Some ((specs, self'), rest) ->
    List.length specs = n
    /\ self' = with_counter self (Nat.iter n next (counter self))
    /\ map id specs = map (fun j => Nat.iter j next (counter self)) (List.seq 0 n)
    /\ Forall (fun s => cost s = None
                        /\ num_branches (diagram s)
                           = List.length (Dict.keys (breaks s)))
              specs.
Proof.
  apply (made_in_a_row (fun self => createRandomSpecimenFromBreaks self None)).
  intros self draws s self' rest H. apply create_spec in H. tauto.
Qed.

(** X22.  The constructor of [TDiagramDrawer], whenever it returns:
    the population has [population_size] specimens, none with a cost;
    the id of every one of them is [NaN], because the population is
    created before the counter is set to 0; the counter is 0 afterwards;
    and the probability of adding a branch is the mutation
    probability. *)
Theorem new_population_has_no_ids
        (cost_params0 : cost_params) (population_size0 : nat)
        (mutation_prob0 : Q) (diagram0 : TDiagram)
        (draws : list Q) (self : TDiagramDrawer) (rest : list Q) :
  Drawer.new cost_params0 population_size0 mutation_prob0 diagram0 draws
  = Some (self, rest) ->
  List.length (population self) = population_size0
  /\ Forall (fun s => id s = None /\ cost s = None) (population self)
  /\ counter self = Some 0%Z
  /\ population_size self = population_size0
  /\ params self = cost_params0
  /\ mutation_prob self = mutation_prob0
  /\ probability_of_adding_branch self = mutation_prob0
  /\ exists td, getGeometry diagram0 = Some (Drawer.geometry self, td)
                /\ base self = td.
Proof.
  unfold Drawer.new, Random.bind, Random.lift.
  destruct (getGeometry diagram0) as [[g td]|]; [|discriminate].
  unfold Random.ret at 1.
  match goal with
  | |- match ?r with _ => _ end = _ -> _ =>
      destruct r as [[[specs self1] ds]|] eqn:E; [|discriminate]
  end.
  apply createPopulation_spec in E. destruct E as (Hlen & -> & Hids & Hall).
  intros [= <- <-]. simpl.
  split; [exact Hlen|]. split; [|repeat split; eauto].
  simpl in Hids.
  assert (Hnone : forall j, Nat.iter j next None = None)
    by (intros j; now rewrite iter_next).
  apply Forall_forall. intros s Hs. rewrite Forall_forall in Hall.
  split; [|now apply Hall].
  assert (Hin : In (id s) (map id specs)) by now apply in_map.
  rewrite Hids in Hin. apply in_map_iff in Hin.
  destruct Hin as (j & <- & _). apply Hnone.
Qed.

End Ungraded.

Lemma grading_enables_selection_witness :
  exists graded,
    Drawer.gradePopulation Examples.toString
      (Examples.drawer [Examples.bent []; Examples.graded 5])
    = Some graded
    /\ Drawer.gradePopulation Examples.toString graded = Some graded.
Proof.
  destruct (cost_returns Examples.toString (Examples.engine Examples.comb)
                         1 1 1 1 11%Z 100 100)
    as (c & E & _).
  - vm_compute. reflexivity.
  - vm_compute. reflexivity.
  - vm_compute. reflexivity.
  - vm_compute. discriminate.
  - vm_compute. discriminate.
  - assert (G : Drawer.gradePopulation Examples.toString
                  (Examples.drawer [Examples.bent []; Examples.graded 5])
                = Some (Examples.drawer
                          [ {| Drawer.diagram := Examples.engine Examples.comb;
                               Drawer.breaks := [];
                               Drawer.id := None;
                               Drawer.cost := Some c |};
                            Examples.graded 5 ])).
    { unfold Drawer.gradePopulation.
      cbn [Drawer.population Examples.drawer Drawer.grade Drawer.cost
           Examples.bent Examples.graded Drawer.cost_of Drawer.diagram
           Drawer.params Drawer.alpha Drawer.beta Drawer.gamma
           Drawer.prefered_aspect_ratio Drawer.breaks Drawer.id].
      change (Drawer.cost_of Examples.toString
                (Examples.drawer [Examples.bent []; Examples.graded 5])
                (Examples.bent []))
        with (Cost.cost Examples.toString (Examples.engine Examples.comb)
                        1 1 1 1).
      rewrite E. reflexivity. }
    eexists. split; [exact G|].
    destruct (grading_enables_selection Examples.toString _ _ G)
      as (_ & _ & Hagain & _).
    exact Hagain.
Defined.

Lemma performSelection_needs_costs_witness :
  Drawer.performSelection [Examples.graded 5; Examples.bent []] [1 # 2; 1 # 2]
  = None.
Proof.
  apply performSelection_needs_costs.
  exists (Examples.bent []). split; [right; now left|reflexivity].
Defined.

Lemma breed_numbers_the_children_witness :
  exists specs self' rest,
    Drawer.breed 2 (Examples.drawer [])
      [Examples.bent [("A"%string, 1 # 2)]; Examples.bent [("B"%string, 1 # 3)]]
      [0; 3 # 4; 3 # 4; 3 # 4; 1 # 2; 1 # 2; 1 # 2; 1 # 2; 1 # 3; 2 # 3;
       0; 3 # 4; 3 # 4; 1 # 4; 1 # 2; 1 # 2; 1 # 2; 1 # 3]
    = Some ((specs, self'), rest)
    /\ List.length specs = 2%nat
    /\ map Drawer.id specs = [Some 0%Z; Some 1%Z]
    /\ Drawer.counter self' = Some 2%Z.
Proof.
  destruct (Drawer.breed 2 (Examples.drawer [])
              [Examples.bent [("A"%string, 1 # 2)]; Examples.bent [("B"%string, 1 # 3)]]
              [0; 3 # 4; 3 # 4; 3 # 4; 1 # 2; 1 # 2; 1 # 2; 1 # 2; 1 # 3; 2 # 3;
               0; 3 # 4; 3 # 4; 1 # 4; 1 # 2; 1 # 2; 1 # 2; 1 # 3])
    as [[[specs self'] rest]|] eqn:E; [|vm_compute in E; discriminate].
  destruct (breed_numbers_the_children _ _ _ _ _ _ _ E)
    as (Hlen & Hids & Hself & _).
  exists specs, self', rest. split; [reflexivity|]. split; [exact Hlen|].
  split; [exact Hids|]. rewrite Hself. reflexivity.
Defined.

Lemma new_population_has_no_ids_witness :
  exists self rest,
    Drawer.new {| Drawer.alpha := 1; Drawer.beta := 1; Drawer.gamma := 1;
                  Drawer.prefered_aspect_ratio := 1 |}
               2 (1 # 10) (Diagram.new Examples.comb)
               [1 # 2; 1 # 20; 1 # 2; 1 # 2; 1 # 2; 1 # 2; 1 # 2; 1 # 2; 3 # 4; 1 # 3;
                1 # 2; 1 # 2; 1 # 2; 1 # 2; 1 # 2; 1 # 2; 1 # 2; 1 # 2]
    = Some (self, rest)
    /\ List.length (Drawer.population self) = 2%nat
    /\ Forall (fun s => Drawer.id s = None /\ Drawer.cost s = None)
              (Drawer.population self)
    /\ Drawer.counter self = Some 0%Z.
Proof.
  destruct (Drawer.new {| Drawer.alpha := 1; Drawer.beta := 1; Drawer.gamma := 1;
                          Drawer.prefered_aspect_ratio := 1 |}
                       2 (1 # 10) (Diagram.new Examples.comb)
                       [1 # 2; 1 # 20; 1 # 2; 1 # 2; 1 # 2; 1 # 2; 1 # 2; 1 # 2; 3 # 4; 1 # 3;
                        1 # 2; 1 # 2; 1 # 2; 1 # 2; 1 # 2; 1 # 2; 1 # 2; 1 # 2])
    as [[self rest]|] eqn:E; [|vm_compute in E; discriminate].
  destruct (new_population_has_no_ids _ _ _ _ _ _ _ E)
    as (Hlen & Hall & Hc & _).
  exists self, rest. auto.
Defined.

(** ** A whole step *)

Section WholeStep.
Import Diagram Cost Drawer Shape.
Variable Number_toString : Q -> string.

Lemma step_spec (self self' : TDiagramDrawer) (draws rest : list Q) :
  step Number_toString self draws = Some (self', rest) ->
  List.length (population self') = population_size self
  /\ Forall (fun s => cost s <> None) (population self')
  /\ map id (population self')
     = map (fun j => option_map (fun c => (c + Z.of_nat j)%Z) (counter self))
           (List.seq 0 (population_size self))
  /\ self'
     = with_counter
         (with_population self (population self'))
         (option_map (fun c => (c + Z.of_nat (population_size self))%Z)
                     (counter self)).
Proof.
  unfold step, Random.bind, Random.lift.
  destruct (gradePopulation Number_toString self) as [g|] eqn:Eg;
    [|discriminate].
  apply gradePopulation_spec in Eg. destruct Eg as [Eg _].
  unfold Random.ret at 1.
  destruct (performSelection (population g) draws) as [[parents r1]|];
    [|discriminate].
  destruct (breed (population_size g) (with_population g parents) parents r1)
    as [[[specs self2] r2]|] eqn:Eb; [|discriminate].
  apply breed_spec in Eb. destruct Eb as (Hlen & -> & Hids & _).
  simpl fst. simpl snd.
  destruct (gradePopulation Number_toString _) as [final|] eqn:Ef;
    [|discriminate].
  unfold Random.ret. intros [= <- <-].
  pose proof (graded_all _ _ _ Ef) as Hall.
  apply gradePopulation_spec in Ef. destruct Ef as [Efinal HF].
  simpl population in HF.
  assert (Hsame : List.length (population final) = List.length specs
                  /\ map id (population final) = map id specs).
  { clear - HF. induction HF as [|s s' p p' Hs _ IH]; [split; reflexivity|].
    destruct IH as [IH1 IH2]. simpl. destruct Hs as (_ & _ & Hi & _).
    split; [now rewrite IH1|now rewrite Hi, IH2]. }
  destruct Hsame as [Hl Hi].
  assert (Hsize : population_size g = population_size self)
    by (rewrite Eg; reflexivity).
  assert (Hcount : counter g = counter self) by (rewrite Eg; reflexivity).
  rewrite Hsize in *. simpl counter in Hids. rewrite Hcount in Hids.
  split; [now rewrite Hl|]. split; [exact Hall|]. split.
  - rewrite Hi, Hids. apply map_ext. intros j. apply iter_next.
  - rewrite Efinal at 1. rewrite Eg. simpl. unfold with_population, with_counter.
    simpl. now rewrite iter_next.
Qed.

(** X23.  Whenever a step returns, the population is renewed:
    it has [population_size] specimens, every one with a cost; their
    ids are the counter before the step and the numbers after it, in
    order; the counter has moved on by [population_size]; and nothing
    else of the drawer has changed. *)
Theorem step_renews_the_population
        (self self' : TDiagramDrawer) (draws rest : list Q) :
  step Number_toString self draws = Some (self', rest) ->
  List.length (population self') = population_size self
  /\ Forall (fun s => cost s <> None) (population self')
  /\ map id (population self')
     = map (fun j => option_map (fun c => (c + Z.of_nat j)%Z) (counter self))
           (List.seq 0 (population_size self))
  /\ self'
     = with_counter
         (with_population self (population self'))
         (option_map (fun c => (c + Z.of_nat (population_size self))%Z)
                     (counter self)).
Proof. exact (step_spec self self' draws rest). Qed.

End WholeStep.

(** A step of the drawer of the comb, from three graded specimens: the
    two with the total 1 survive the selection and two children are
    bred and graded. *)
Lemma a_step_of_the_drawer :
  exists self' rest,
    Drawer.step Examples.toString
      (Examples.drawer [Examples.graded 1; Examples.graded 1; Examples.graded 2])
      [3 # 4; 3 # 4; 1 # 2; 0; 3 # 4; 1 # 2; 1 # 2; 0; 3 # 4; 1 # 2; 1 # 2]
    = Some (self', rest).
Proof.
  (* the cost of a child *)
  destruct (cost_returns Examples.toString Examples.unbent_diagram
                         1 1 1 1 11%Z 100 100)
    as (c & Ec & _).
  { vm_compute. reflexivity. }
  { vm_compute. reflexivity. }
  { vm_compute. reflexivity. }
  { vm_compute. discriminate. }
  { vm_compute. discriminate. }
  (* the selection keeps the two specimens below the largest total *)
  assert (Hq34 : Q2R (3 # 4) = (3 / 4)%R) by (unfold Q2R; simpl; lra).
  assert (Hq12 : Q2R (1 # 2) = (1 / 2)%R) by (unfold Q2R; simpl; lra).
  assert (Hmax : Drawer.largest_total
                   0 [Examples.graded 1; Examples.graded 1; Examples.graded 2]
                 = 2%R).
  { unfold Drawer.largest_total, Drawer.total_of. simpl.
    unfold Rmax. repeat destruct (Rle_dec _ _); lra. }
  assert (Hin : Drawer.survives 2 (Examples.graded 1, 3 # 4) = true).
  { unfold Drawer.survives, Drawer.total_of. simpl. rewrite Hq34.
    destruct (Rlt_dec 1 (3 / 4 * 2)); [reflexivity|lra]. }
  assert (Hout : Drawer.survives 2 (Examples.graded 2, 1 # 2) = false).
  { unfold Drawer.survives, Drawer.total_of. simpl. rewrite Hq12.
    destruct (Rlt_dec 2 (1 / 2 * 2)); [lra|reflexivity]. }
  assert (Hsel : Drawer.performSelection
                   [Examples.graded 1; Examples.graded 1; Examples.graded 2]
                   [3 # 4; 3 # 4; 1 # 2; 0; 3 # 4; 1 # 2; 1 # 2;
                    0; 3 # 4; 1 # 2; 1 # 2]
                 = Some ([Examples.graded 1; Examples.graded 1],
                         [0; 3 # 4; 1 # 2; 1 # 2; 0; 3 # 4; 1 # 2; 1 # 2])).
  { rewrite performSelection_filters;
      [|repeat constructor; discriminate|simpl; lia].
    rewrite Hmax. cbn [combine filter]. rewrite Hin, Hout. reflexivity. }
  (* the two children *)
  assert (B : forall (c1 c2 : option Cost.cost_record)
                     (pop : list Drawer.specimen),
             Drawer.breed 2 (Examples.drawer pop)
               [Examples.cached c1; Examples.cached c2]
               [0; 3 # 4; 1 # 2; 1 # 2; 0; 3 # 4; 1 # 2; 1 # 2]
             = Some ([Examples.unbent 0; Examples.unbent 1],
                     Drawer.with_counter (Examples.drawer pop) (Some 2%Z),
                     [])).
  { intros c1 c2 pop. vm_compute. reflexivity. }
  unfold Drawer.step, Random.bind, Random.lift.
  change (Drawer.gradePopulation Examples.toString
            (Examples.drawer
               [Examples.graded 1; Examples.graded 1; Examples.graded 2]))
    with (Some (Examples.drawer
                  [Examples.graded 1; Examples.graded 1; Examples.graded 2])).
  unfold Random.ret at 1.
  change (Drawer.population
            (Examples.drawer
               [Examples.graded 1; Examples.graded 1; Examples.graded 2]))
    with [Examples.graded 1; Examples.graded 1; Examples.graded 2].
  rewrite Hsel.
  change (Drawer.breed _ _ [Examples.graded 1; Examples.graded 1] _)
    with (Drawer.breed 2
            (Examples.drawer [Examples.graded 1; Examples.graded 1])
            [Examples.cached (Drawer.cost (Examples.graded 1));
             Examples.cached (Drawer.cost (Examples.graded 1))]
            [0; 3 # 4; 1 # 2; 1 # 2; 0; 3 # 4; 1 # 2; 1 # 2]).
  rewrite B. cbn [fst snd].
  unfold Drawer.gradePopulation.
  cbn [Drawer.population Drawer.with_population Drawer.grade Drawer.cost
       Examples.unbent].
  change (Drawer.cost_of Examples.toString _ (Examples.unbent 0))
    with (Cost.cost Examples.toString Examples.unbent_diagram 1 1 1 1).
  change (Drawer.cost_of Examples.toString _ (Examples.unbent 1))
    with (Cost.cost Examples.toString Examples.unbent_diagram 1 1 1 1).
  rewrite Ec. unfold Random.ret. eexists. eexists. reflexivity.
Qed.

Lemma step_renews_the_population_witness :
  exists self' rest,
    Drawer.step Examples.toString
      (Examples.drawer [Examples.graded 1; Examples.graded 1; Examples.graded 2])
      [3 # 4; 3 # 4; 1 # 2; 0; 3 # 4; 1 # 2; 1 # 2; 0; 3 # 4; 1 # 2; 1 # 2]
    = Some (self', rest)
    /\ List.length (Drawer.population self') = 2%nat
    /\ map Drawer.id (Drawer.population self') = [Some 0%Z; Some 1%Z].
Proof.
  destruct a_step_of_the_drawer as (self' & rest & E). exists self', rest.
  split; [exact E|].
  destruct (step_renews_the_population Examples.toString _ _ _ _ E)
    as (Hlen & _ & Hids & _).
  split; [exact Hlen|exact Hids].
Defined.

(** ** Learning *)

Section Learning.
Import Diagram Cost Drawer Shape.
Variable Number_toString : Q -> string.
Variable step_callback : Z -> list (option cost_record) -> bool.

Local Abbreviation run := (learn_from Number_toString step_callback).

Lemma learn_from_spec (n : nat) :
  forall i self draws self' rest,
    run n i self draws = Some (self', rest) ->
    population_size self' = population_size self
    /\ ((n = 0%nat /\ self' = self /\ rest = draws)
        \/ ((0 < n)%nat
            /\ List.length (population self') = population_size self
            /\ Forall (fun s => cost s <> None) (population self'))).
Proof.
  induction n as [|n IH]; intros i self draws self' rest.
  - intros [= <- <-]. split; [reflexivity|]. left. auto.
  - cbn [learn_from]. unfold Random.bind at 1.
    destruct (step Number_toString self draws) as [[s1 r1]|] eqn:Es;
      [|discriminate].
    apply step_spec in Es. destruct Es as (Hlen & Hall & _ & E1).
    assert (Hsize : population_size s1 = population_size self)
      by (rewrite E1; reflexivity).
    destruct (step_callback i (map cost (population s1))).
    + intros H. apply IH in H. destruct H as [Hs H]. rewrite Hsize in Hs.
      split; [exact Hs|]. right. split; [lia|].
      destruct H as [(_ & -> & _)|(_ & Hl & Ha)]; [auto|].
      split; [now rewrite Hl|exact Ha].
    + intros [= <- <-]. split; [exact Hsize|]. right.
      split; [lia|]. auto.
Qed.

(** X24.  [learn] with the limit 0 returns the population as it is and
    runs no step.  With a callback that answers [false] it runs one step
    and stops, whatever the limit.  And whenever [learn] returns for a
    limit above 0, what it returns is the population of the drawer, which
    has [population_size] specimens, every one with a cost. *)
Theorem learn_runs_steps (self : TDiagramDrawer) (draws : list Q) :
  learn Number_toString step_callback 0 self draws
  = Some ((population self, self), draws)
  /\ (forall n,
         (forall i costs, step_callback i costs = false) ->
         learn Number_toString step_callback (S n) self draws
         = match step Number_toString self draws with
           | Some (self', rest) => Some ((population self', self'), rest)
           | None => None
           end)
  /\ (forall n pop self' rest,
         learn Number_toString step_callback (S n) self draws
         = Some ((pop, self'), rest) ->
         pop = population self'
         /\ List.length pop = population_size self
         /\ Forall (fun s => cost s <> None) pop
         /\ population_size self' = population_size self).
Proof.
  split; [reflexivity|]. split.
  - intros n Hcb. unfold learn. cbn [learn_from]. unfold Random.bind.
    destruct (step Number_toString self draws) as [[s1 r1]|]; [|reflexivity].
    now rewrite Hcb.
  - intros n pop self' rest. unfold learn. unfold Random.bind at 1.
    destruct (run (S n) 0%Z self draws) as [[s1 r1]|] eqn:E; [|discriminate].
    intros [= <- <- <-].
    apply learn_from_spec in E. destruct E as [Hs [(H & _)|(_ & Hl & Ha)]];
      [discriminate|auto].
Qed.

End Learning.

Lemma learn_runs_steps_witness :
  exists pop self' rest,
    Drawer.learn Examples.toString (fun _ _ => true) 1
      (Examples.drawer [Examples.graded 1; Examples.graded 1; Examples.graded 2])
      [3 # 4; 3 # 4; 1 # 2; 0; 3 # 4; 1 # 2; 1 # 2; 0; 3 # 4; 1 # 2; 1 # 2]
    = Some ((pop, self'), rest)
    /\ pop = Drawer.population self'
    /\ List.length pop = 2%nat.
Proof.
  destruct a_step_of_the_drawer as (self' & rest & E).
  assert (L : Drawer.learn Examples.toString (fun _ _ => true) 1
                (Examples.drawer
                   [Examples.graded 1; Examples.graded 1; Examples.graded 2])
                [3 # 4; 3 # 4; 1 # 2; 0; 3 # 4; 1 # 2; 1 # 2;
                 0; 3 # 4; 1 # 2; 1 # 2]
              = Some ((Drawer.population self', self'), rest)).
  { unfold Drawer.learn. cbn [Drawer.learn_from]. unfold Random.bind.
    rewrite E. reflexivity. }
  exists (Drawer.population self'), self', rest. split; [exact L|].
  destruct (learn_runs_steps
              Examples.toString (fun _ _ => true)
              (Examples.drawer
                 [Examples.graded 1; Examples.graded 1; Examples.graded 2])
              [3 # 4; 3 # 4; 1 # 2; 0; 3 # 4; 1 # 2; 1 # 2;
               0; 3 # 4; 1 # 2; 1 # 2])
    as (_ & _ & H).
  destruct (H _ _ _ _ L) as (Hpop & Hlen & _).
  split; [exact Hpop|exact Hlen].
Defined.

(** ** Coordinates computed once, turns read back, flat diagrams *)

Section Once.
Import Constants Diagram Cost Shape.

Lemma requiresCoordinates_computed (td td' : TDiagram) :
  requiresCoordinates td = Some td' ->
  coord_computed td' = true
  /\ (coord_computed td = true -> td' = td)
  /\ margins_top td' = margins_top td
  /\ margins_left td' = margins_left td.
Proof.
  unfold requiresCoordinates. destruct (coord_computed td) eqn:E.
  - intros [= <-]. auto.
  - unfold computeCoord. destruct (tree_of td) as [|[k root] rest];
      [discriminate|].
    intros [= <-]. simpl. repeat split. discriminate.
Qed.

Lemma coordinates_once
        (td td' : TDiagram) (g : geometry_map) :
  getGeometry td = Some (g, td') ->
  coord_computed td' = true
  /\ (coord_computed td = true -> td' = td)
  /\ requiresCoordinates td' = Some td'
  /\ getGeometry td' = Some (g, td')
  /\ option_map (fun b => (left b, top b, right b, bottom b)) (getBounds td')
     = option_map (fun b => (left b, top b, right b, bottom b)) (getBounds td)
  /\ margins_top td' = margins_top td
  /\ margins_left td' = margins_left td.
Proof.
  intros H. pose proof H as H0. unfold getGeometry in H.
  destruct (requiresCoordinates td) as [td1|] eqn:E; [|discriminate].
  destruct (getRoot td1) as [root|] eqn:Er; [|discriminate].
  injection H as <- <-.
  destruct (requiresCoordinates_computed _ _ E) as (Hc & Hsame & Ht & Hl).
  assert (E1 : requiresCoordinates td1 = Some td1)
    by (unfold requiresCoordinates; now rewrite Hc).
  assert (G1 : getGeometry td1 = Some (geometry_from root, td1))
    by (unfold getGeometry; now rewrite E1, Er).
  split; [exact Hc|]. split; [exact Hsame|]. split; [exact E1|].
  split; [exact G1|]. split; [|auto].
  unfold getBounds. now rewrite G1, H0.
Qed.

(** X25.  The coordinates are computed once: after a method that
    requires them has returned, the diagram is marked as computed, and
    asking again for the geometry (or for the bounds) computes nothing
    anew and gives the same answer; the margins are never touched. *)
Theorem coordinates_are_computed_once
        (td td' : TDiagram) (g : geometry_map) :
  getGeometry td = Some (g, td') ->
  coord_computed td' = true
  /\ (coord_computed td = true -> td' = td)
  /\ requiresCoordinates td' = Some td'
  /\ getGeometry td' = Some (g, td')
  /\ option_map (fun b => (left b, top b, right b, bottom b)) (getBounds td')
     = option_map (fun b => (left b, top b, right b, bottom b)) (getBounds td)
  /\ margins_top td' = margins_top td
  /\ margins_left td' = margins_left td.
Proof. exact (coordinates_once td td' g). Qed.

(** X26.  How [updateFromGeometry] reads back the direction of a node
    that lies a quarter turn from its parent: a right turn is read as
    ['right'] unless the parent points LEFT, and a left turn as ['left']
    unless the parent points UP; in these two cases, where the
    orientation wraps around between 0 and 3, the turn is read as the
    opposite one.  The other properties are those of the node, and [seq]
    is its position among the children of the parent. *)
Theorem describe_reads_the_turn
        (g : geometry_map) (n p : gnode) (a : Z) :
  g_parent n <> ""%string ->
  Dict.get (g_parent n) g = Some p ->
  (0 <= g_pointing p < 4)%Z ->
  (a = 1 \/ a = -1)%Z ->
  g_pointing n = Z.rem (4 + g_pointing p + a) 4 ->
  exists i,
    describe g n = Some i
    /\ name i = g_name n
    /\ parent i = g_parent n
    /\ length i = g_length n
    /\ branch_at i = g_branch_at n
    /\ hidden i = g_hidden n
    /\ seq i = indexOf (g_name n) (g_children p)
    /\ direction i
       = (if (a =? 1)%Z
          then (if (g_pointing p =? POINTING_LEFT)%Z then "left" else "right")
          else (if (g_pointing p =? POINTING_UP)%Z then "right" else "left"))%string.
Proof.
  intros Hne Hp Hr Ha Hn. unfold describe.
  destruct (String.eqb_spec (g_parent n) ""); [contradiction|].
  rewrite Hp. eexists. split; [reflexivity|]. simpl.
  repeat (split; [reflexivity|]).
  rewrite Hn.
  assert (H : (g_pointing p = 0 \/ g_pointing p = 1
               \/ g_pointing p = 2 \/ g_pointing p = 3)%Z) by lia.
  destruct H as [-> | [-> | [-> | ->]]], Ha as [-> | ->]; reflexivity.
Qed.

End Once.

Section Flat.
Import Constants Diagram Cost Shape.
Variable Number_toString : Q -> string.

Lemma min_r_attained (c : coords -> Q) (arr : list gnode) :
  forall m m',
    fold_left (min_r c) arr (Some m) = Some m' ->
    m' = m \/ exists n, In n arr /\ (m' = c (g_coordinates n) \/ m' = m).
Proof.
  induction arr as [|a arr IH]; intros m m'; simpl.
  - intros [= <-]. now left.
  - intros H. apply IH in H.
    assert (Hmin : Qmin (c (g_coordinates a)) m = c (g_coordinates a)
                   \/ Qmin (c (g_coordinates a)) m = m).
    { unfold Qmin, GenericMinMax.gmin.
      destruct (c (g_coordinates a) ?= m); auto. }
    destruct H as [->|(n & Hn & [->| ->])].
    + destruct Hmin as [->| ->]; [right; exists a; split; [now left|now left]|now left].
    + right. exists n. split; [now right|now left].
    + destruct Hmin as [->| ->]; [right; exists a; split; [now left|now left]|now left].
Qed.

Lemma max_r_attained (c : coords -> Q) (arr : list gnode) :
  forall m m',
    fold_left (max_r c) arr (Some m) = Some m' ->
    m' = m \/ exists n, In n arr /\ (m' = c (g_coordinates n) \/ m' = m).
Proof.
  induction arr as [|a arr IH]; intros m m'; simpl.
  - intros [= <-]. now left.
  - intros H. apply IH in H.
    assert (Hmax : Qmax (c (g_coordinates a)) m = c (g_coordinates a)
                   \/ Qmax (c (g_coordinates a)) m = m).
    { unfold Qmax, GenericMinMax.gmax.
      destruct (c (g_coordinates a) ?= m); auto. }
    destruct H as [->|(n & Hn & [->| ->])].
    + destruct Hmax as [->| ->]; [right; exists a; split; [now left|now left]|now left].
    + right. exists n. split; [now right|now left].
    + destruct Hmax as [->| ->]; [right; exists a; split; [now left|now left]|now left].
Qed.

(** The bounds are coordinates of nodes. *)
Lemma bounds_attained (td : TDiagram) (b : bounds) :
  getBounds td = Some b ->
  exists g td' nt nb,
    getGeometry td = Some (g, td')
    /\ In nt (map snd g) /\ In nb (map snd g)
    /\ top b = y (g_coordinates nt)
    /\ bottom b = y (g_coordinates nb).
Proof.
  unfold getBounds.
  destruct (getGeometry td) as [[g td']|]; [|discriminate].
  destruct (map snd g) as [|a arr] eqn:Earr; [discriminate|]. simpl.
  destruct (fold_left (min_r x) arr _) as [l|]; [|discriminate].
  destruct (fold_left (max_r x) arr _) as [r|]; [|discriminate].
  destruct (fold_left (min_r y) arr _) as [t|] eqn:Et; [|discriminate].
  destruct (fold_left (max_r y) arr _) as [bt|] eqn:Eb; [|discriminate].
  intros [= <-]. simpl. exists g, td'.
  apply min_r_attained in Et. apply max_r_attained in Eb.
  assert (Ht : exists n, In n (a :: arr) /\ t = y (g_coordinates n)).
  { destruct Et as [->|(n & Hn & [->| ->])].
    - exists a. split; [now left|reflexivity].
    - exists n. split; [now right|reflexivity].
    - exists a. split; [now left|reflexivity]. }
  assert (Hb : exists n, In n (a :: arr) /\ bt = y (g_coordinates n)).
  { destruct Eb as [->|(n & Hn & [->| ->])].
    - exists a. split; [now left|reflexivity].
    - exists n. split; [now right|reflexivity].
    - exists a. split; [now left|reflexivity]. }
  destruct Ht as (nt & Hnt & ->), Hb as (nb & Hnb & ->).
  exists nt, nb. rewrite Earr. auto.
Qed.

Lemma In_values {V : Type} (d : Dict.dict V) (v : V) :
  NoDup (Dict.keys d) -> In v (map snd d) -> exists k, Dict.get k d = Some v.
Proof.
  intros Hnd Hin. apply in_map_iff in Hin. destruct Hin as ([k v'] & <- & Hin).
  exists k. now apply In_get.
Qed.

(** X27.  A diagram whose nodes all lie at one height, drawn without a
    top margin, has no finite cost: the height of its canvas is 0 and the
    aspect ratio is a division by it.  Such is every diagram that is only
    a root. *)
Theorem flat_diagram_has_no_cost
        (self : TDiagramCost) (alpha beta gamma pref : Q)
        (g : geometry_map) (td' : TDiagram) (y0 : Q) :
  getGeometry (tdiagram self) = Some (g, td') ->
  (forall k n, Dict.get k g = Some n -> y (g_coordinates n) == y0) ->
  margins_top (tdiagram self) == 0 ->
  getCanvasHeight (tdiagram self) <> None
  /\ (forall h, getCanvasHeight (tdiagram self) = Some h -> h == 0)
  /\ cost Number_toString self alpha beta gamma pref = None.
Proof.
  intros Hg Hflat Hm.
  destruct (getBounds_returns _ _ _ Hg) as (b & Eb & _).
  assert (Hh : bottom b - top b + 2 * margins_top (tdiagram self) == 0).
  { destruct (bounds_attained _ _ Eb) as (g1 & td1 & nt & nb & Hg1 & Hnt & Hnb & Et & Ebt).
    rewrite Hg in Hg1. injection Hg1 as <- <-.
    assert (Hnd : NoDup (Dict.keys g)).
    { unfold getGeometry in Hg.
      destruct (requiresCoordinates (tdiagram self)); [|discriminate].
      destruct (getRoot t) as [root|]; [|discriminate].
      injection Hg as <- _. apply geometry_from_spec. }
    destruct (In_values g nt Hnd Hnt) as [kt Hkt].
    destruct (In_values g nb Hnd Hnb) as [kb Hkb].
    rewrite Et, Ebt, (Hflat _ _ Hkt), (Hflat _ _ Hkb), Hm. ring. }
  unfold getCanvasHeight. rewrite Eb.
  split; [discriminate|]. split; [intros h [= <-]; exact Hh|].
  unfold cost, getCanvasHeight. rewrite Eb.
  destruct (intersections Number_toString self); [|reflexivity].
  destruct (getCanvasWidth (tdiagram self)); [|reflexivity].
  apply Qeq_bool_iff in Hh. now rewrite Hh.
Qed.

End Flat.

Lemma coordinates_are_computed_once_witness :
  Diagram.getGeometry (Cost.tdiagram (Examples.engine Examples.comb))
  = Some (Examples.comb_geometry, Cost.tdiagram (Examples.engine Examples.comb)).
Proof.
  apply (coordinates_are_computed_once (Diagram.new Examples.comb)).
  vm_compute. reflexivity.
Defined.

Lemma describe_reads_the_turn_witness :
  exists i,
    Cost.describe (Examples.captured Examples.left_left)
      (match Dict.get "B" (Examples.captured Examples.left_left) with
       | Some n => n
       | None => Examples.comb_root
       end) = Some i
    /\ Diagram.direction i = "right"%string.
Proof.
  destruct (describe_reads_the_turn
              (Examples.captured Examples.left_left)
              (match Dict.get "B" (Examples.captured Examples.left_left) with
               | Some n => n
               | None => Examples.comb_root
               end)
              (match Dict.get "A" (Examples.captured Examples.left_left) with
               | Some n => n
               | None => Examples.comb_root
               end)
              (-1)%Z)
    as (i & E & _ & _ & _ & _ & _ & _ & Hd).
  - vm_compute. discriminate.
  - vm_compute. reflexivity.
  - vm_compute. split; [discriminate|reflexivity].
  - now right.
  - vm_compute. reflexivity.
  - exists i. split; [exact E|exact Hd].
Defined.

Lemma flat_diagram_has_no_cost_witness :
  Cost.cost Examples.toString
            (Examples.engine [Examples.entry "R" "" "right" 100 0 None])
            1 1 1 1
  = None.
Proof.
  apply (flat_diagram_has_no_cost
           Examples.toString
           (Examples.engine [Examples.entry "R" "" "right" 100 0 None])
           1 1 1 1
           (Examples.captured [Examples.entry "R" "" "right" 100 0 None])
           (Cost.tdiagram
              (Examples.engine [Examples.entry "R" "" "right" 100 0 None]))
           0).
  - vm_compute. reflexivity.
  - apply get_Forall. repeat constructor.
  - reflexivity.
Defined.

(** ** Margins and the SVG output *)

Section Margins.
Import Diagram Cost Shape.

Lemma getBounds_margins (td : TDiagram) (l t : Q) :
  getBounds (setMarginTop t (setMarginLeft l td)) = getBounds td.
Proof.
  unfold getBounds, getGeometry, requiresCoordinates, computeCoord, getRoot,
    setMarginTop, setMarginLeft.
  cbn [tree_of coord_computed margins_top margins_left].
  destruct (coord_computed td);
    destruct (tree_of td) as [|[k r] rest]; reflexivity.
Qed.

(** X28.  The margins are only added to the canvas: setting them
    changes neither the geometry nor the bounds, and afterwards the width
    of the canvas is the extent of the bounds plus twice the left margin
    and its height the extent plus twice the top margin. *)
Theorem margins_only_widen_the_canvas (td : TDiagram) (l t : Q) :
  let td' := setMarginTop t (setMarginLeft l td) in
  option_map fst (getGeometry td') = option_map fst (getGeometry td)
  /\ getBounds td' = getBounds td
  /\ getCanvasWidth td'
     = option_map (fun b => right b - left b + 2 * l) (getBounds td)
  /\ getCanvasHeight td'
     = option_map (fun b => bottom b - top b + 2 * t) (getBounds td)
  /\ margins_left td' = l
  /\ margins_top td' = t.
Proof.
  cbv zeta. split; [|split; [apply getBounds_margins|]].
  - unfold getGeometry, requiresCoordinates, computeCoord, getRoot,
      setMarginTop, setMarginLeft.
    cbn [tree_of coord_computed margins_top margins_left].
    destruct (coord_computed td);
      destruct (tree_of td) as [|[k r] rest]; reflexivity.
  - unfold getCanvasWidth, getCanvasHeight. rewrite getBounds_margins.
    destruct (getBounds td); repeat split; reflexivity.
Qed.

End Margins.

Section SvgFacts.
Import Diagram Cost Shape.
Variable Number_toString : Q -> string.





End SvgFacts.

(** ** A break keeps the geometry closed *)

Section LargerLast.
Import Helpers.
Context {T : Type}.
Variable trans : T -> Q.

(** On an array, sorted or not, whose last element is above [x], the
    search returns an index of the array. *)
Lemma binarySearch_before_a_larger_last (front : list T) (z : T) (x : Q) :
  x < trans z ->
  exists i,
    binarySearch trans (front ++ [z]) x = Some (Idx i)
    /\ (0 <= i <= Z.of_nat (List.length front))%Z.
Proof.
  intros Hz. set (arr := front ++ [z]).
  assert (Hlen : Z.of_nat (List.length arr) = (Z.of_nat (List.length front) + 1)%Z)
    by (unfold arr; rewrite length_app; simpl; lia).
  assert (Hlast : at_index arr (Z.of_nat (List.length front)) = Some z).
  { unfold at_index. destruct (Z.ltb_spec (Z.of_nat (List.length front)) 0); [lia|].
    rewrite Nat2Z.id. unfold arr.
    now rewrite nth_error_app2, Nat.sub_diag by lia. }
  pose proof (binarySearch_returns trans arr x) as Hret.
  unfold binarySearch, binarySearch_fuel in *.
  destruct (search_loop trans (List.length arr) arr x 0
                        (Z.of_nat (List.length arr) - 1) None)
    as [r|] eqn:E; [|congruence].
  apply search_loop_in_range in E; try lia.
  destruct E as (k & [-> | ->] & Hk).
  - exists k. split; [reflexivity|lia].
  - unfold after_loop.
    replace (Z.min (Z.max 0 k) (Z.of_nat (List.length arr) - 1)) with k by lia.
    destruct (is_positive (diff_sign trans arr (Z.max 0 (k - 1)) x));
      [eexists; split; [reflexivity|lia]|].
    destruct (is_positive (diff_sign trans arr k x)) eqn:Ek;
      [eexists; split; [reflexivity|lia]|].
    eexists; split; [reflexivity|].
    assert (k <> Z.of_nat (List.length front)); [|lia].
    intros ->. unfold diff_sign in Ek. rewrite Hlast in Ek.
    apply Qgt_alt in Hz. rewrite Hz in Ek. discriminate.
Qed.

End LargerLast.

Section ClosedBreak.
Import Diagram Cost Shape.

Lemma introduceBreak_closed g node f b n front e :
  closed g ->
  Dict.get node g = Some n ->
  Dict.get b g = None ->
  g_children n = front ++ [e] ->
  g_length n * f < distance_of g n e ->
  exists g' n' kept,
    introduceBreak g node f b = Some g'
    /\ closed g'
    /\ Dict.get node g' = Some n'
    /\ g_children n' = kept ++ [Name b; e].
Proof.
  intros Hc Hn Hb Hcs Hfar.
  assert (Hres : Forall (fun c => lookup g c <> None) (g_children n)).
  { apply Forall_forall. intros c. now apply (closed_lookup g n node). }
  assert (Hnb : node <> b) by congruence.
  unfold introduceBreak. rewrite Hn.
  rewrite (distances_resolved g n _ Hres).
  set (l := g_length n * f) in *.
  destruct (binarySearch_before_a_larger_last
              (fun d => d) (map (distance_of g n) front) (distance_of g n e) l Hfar)
    as (i & Ei & Hi).
  rewrite length_map in Hi.
  assert (Ebs : Helpers.binarySearch (fun d => d)
                  (map (distance_of g n) (g_children n)) l
                = Some (Helpers.Idx i))
    by (rewrite Hcs, map_app; exact Ei).
  rewrite Ebs.
  assert (Hstart : splice_start (Helpers.Idx i) (List.length (g_children n))
                   = Z.to_nat i).
  { unfold splice_start. destruct (Z.ltb_spec i 0); [lia|].
    rewrite Hcs, length_app. simpl. lia. }
  rewrite Hstart. set (start := Z.to_nat i).
  assert (Hle : (start <= List.length front)%nat) by (unfold start; lia).
  assert (Hskip : skipn start (g_children n) = skipn start front ++ [e]).
  { rewrite Hcs, skipn_app.
    replace (start - List.length front)%nat with 0%nat by lia. reflexivity. }
  assert (Hfirst : firstn start (g_children n) = firstn start front).
  { rewrite Hcs, firstn_app.
    replace (start - List.length front)%nat with 0%nat by lia.
    simpl. now rewrite app_nil_r. }
  rewrite Hskip, splice_last_app, Hfirst.
  set (moved := skipn start front).
  set (kept := firstn start front).
  set (n' := {| g_name := g_name n; g_coordinates := g_coordinates n;
                g_pointing := g_pointing n; g_length := l;
                g_parent := g_parent n;
                g_children := kept ++ [Name b; e];
                g_hidden := g_hidden n; g_branch_at := g_branch_at n |}).
  set (br := {| g_name := b; g_coordinates := break_coordinates n l;
                g_pointing := break_pointing n; g_length := g_length n - l;
                g_parent := node; g_children := moved; g_hidden := true;
                g_branch_at := Some l |}).
  assert (Hfront : forall c, In c front -> In c (g_children n))
    by (intros c H; rewrite Hcs; apply in_or_app; now left).
  assert (Hmoved : forall c, In c moved -> In c (g_children n))
    by (intros c H; apply Hfront; now apply In_skipn in H).
  assert (Hkept : forall c, In c kept -> In c (g_children n)).
  { intros c H. apply Hfront.
    rewrite <- (firstn_skipn start front). apply in_or_app. now left. }
  destruct (reparent_spec b moved (Dict.set node n' g)) as (g1 & -> & Hg1).
  { apply Forall_forall. intros c H. unfold lookup. rewrite get_set.
    destruct (String.eqb _ _); [discriminate|].
    rewrite Forall_forall in Hres. apply Hres. now apply Hmoved. }
  (* the entries of the new geometry *)
  assert (Hentry : forall k m,
             Dict.get k (Dict.set b br g1) = Some m ->
             (k = b /\ m = br)
             \/ (k <> b
                 /\ exists m0,
                     (m = m0 \/ m = with_parent b m0)
                     /\ ((k = node /\ m0 = n')
                         \/ (k <> node /\ Dict.get k g = Some m0)))).
  { intros k m. rewrite get_set.
    destruct (String.eqb_spec k b) as [->|Nb]; [intros [= <-]; now left|].
    rewrite Hg1, get_set. intros H. right. split; [exact Nb|].
    destruct (String.eqb_spec k node) as [->|Nn].
    - exists n'. split; [|now left].
      destruct (is_key_of moved node); simpl in H; injection H as <-; auto.
    - destruct (Dict.get k g) as [m0|] eqn:E.
      + exists m0. split; [|right; auto].
        destruct (is_key_of moved k); simpl in H; injection H as <-; auto.
      + destruct (is_key_of moved k); discriminate. }
  assert (Hmono : forall s, Dict.has s g = true ->
                            Dict.has s (Dict.set b br g1) = true).
  { intros s Hs. unfold Dict.has in *. rewrite get_set.
    destruct (String.eqb s b); [reflexivity|].
    rewrite Hg1, get_set.
    destruct (String.eqb s node);
      [destruct (is_key_of moved s); reflexivity|].
    destruct (Dict.get s g); [|discriminate].
    destruct (is_key_of moved s); reflexivity. }
  assert (Hold : forall c, In c (g_children n) ->
                  exists s, c = Name s /\ Dict.has s (Dict.set b br g1) = true).
  { intros c H. destruct (Hc node n Hn) as [_ Hch].
    destruct (Hch c H) as (s & -> & Hs). exists s. auto. }
  assert (Hnode : exists m, Dict.get node (Dict.set b br g1) = Some m
                            /\ g_children m = kept ++ [Name b; e]).
  { rewrite get_set_other by exact Hnb. rewrite Hg1, get_set_same.
    destruct (is_key_of moved node); eexists; split; reflexivity. }
  destruct Hnode as (m & Em & Hm).
  exists (Dict.set b br g1), m, kept.
  split; [reflexivity|]. split; [|auto].
  intros k m1 Hk. apply Hentry in Hk.
  destruct Hk as [[-> ->]|(Nb & m0 & Hm0 & Hsrc)].
  - split; [reflexivity|]. intros c H. apply Hold. now apply Hmoved.
  - assert (Hname : g_name m1 = g_name m0 /\ g_children m1 = g_children m0)
      by (destruct Hm0 as [->| ->]; split; reflexivity).
    destruct Hname as [-> ->].
    destruct Hsrc as [[-> ->]|[Nn E]].
    + split; [exact (proj1 (Hc node n Hn))|].
      intros c H. simpl in H. apply in_app_or in H.
      destruct H as [H|[<-|[<-|[]]]].
      * apply Hold. now apply Hkept.
      * exists b. split; [reflexivity|]. unfold Dict.has.
        now rewrite get_set_same.
      * apply Hold. rewrite Hcs. apply in_or_app. right. now left.
    + destruct (Hc k m0 E) as [Hnm Hch]. split; [exact Hnm|].
      intros c H. destruct (Hch c H) as (s & -> & Hs). exists s. auto.
Qed.

(** X30.  A break keeps the geometry closed when the last child of the
    node, the end of its segment, lies beyond the break: the search then
    lands inside the children, so that the end stays the last child of
    the node, after the break node, and every child listed in the new
    geometry is again the name of an entry. *)
Theorem introduceBreak_keeps_the_geometry_closed
        (g : geometry_map) (node : string) (f : Q) (b : string)
        (n : gnode) (front : list ref) (e : ref) :
  closed g ->
  Dict.get node g = Some n ->
  Dict.get b g = None ->
  g_children n = front ++ [e] ->
  g_length n * f < distance_of g n e ->
  exists g' n' kept,
    introduceBreak g node f b = Some g'
    /\ closed g'
    /\ Dict.get node g' = Some n'
    /\ g_children n' = kept ++ [Name b; e].
Proof. exact (introduceBreak_closed g node f b n front e). Qed.

End ClosedBreak.

Lemma introduceBreak_keeps_the_geometry_closed_witness :
  exists g',
    Cost.introduceBreak Examples.comb_geometry "R" (1 # 2) "b7" = Some g'
    /\ Shape.closed g'.
Proof.
  destruct (introduceBreak_keeps_the_geometry_closed
              Examples.comb_geometry "R" (1 # 2) "b7" Examples.comb_root
              [Diagram.Name "A"; Diagram.Name "B"; Diagram.Name "C"]
              (Diagram.Name "R_end"))
    as (g' & n' & kept & E & Hc & _).
  - exact (proj1 (proj2 (proj2 (geometry_from_spec
       (match Diagram.getRoot
                (match Diagram.computeCoord (Diagram.new Examples.comb) with
                 | Some td' => td'
                 | None => Diagram.new []
                 end) with
        | Some r => r
        | None => Diagram.fresh (Examples.entry "" "" "" 0 0 None)
        end))))).
  - vm_compute. reflexivity.
  - vm_compute. reflexivity.
  - vm_compute. reflexivity.
  - vm_compute. reflexivity.
  - exists g'. split; [exact E|exact Hc].
Defined.

